(** * sego: a shallow embedding of [segmenter.go]

    The Go segmenter splits raw bytes into units ([splitTextToWords]),
    loads a dictionary from text ([LoadDictionary]) and runs a Viterbi
    style forward pass with a backward reconstruction ([segmentWords]).

    Conventions of the embedding:
    - a Go [[]byte] or [string] is a [list byte];
    - Go [int] indices that are only ever added to are [nat]; indices the
      code subtracts from ([location], [index], [numSeg]) are [Z];
    - a run-time panic (index or slice out of range, nil dereference) is
      the outcome [Panic]; a loop that has no syntactic bound runs on fuel
      and reports [OutOfFuel] when the fuel is used up;
    - [float32] values are IEEE binary32 numbers of the Standard Library's
      [SpecFloat] (precision 24, emax 128);
    - what the Go standard library computes from tables or by numeric
      approximation ([unicode.IsLetter], [unicode.IsNumber] outside ASCII,
      [math.Log2]) is a parameter, bundled in the class [GoStdlib]. *)

From Stdlib Require Import ZArith List Lia Bool.
From Stdlib Require Import Strings.Byte Floats.SpecFloat.
From stdpp Require Import base list option.

Local Open Scope Z_scope.

(** ** Outcomes of a Go computation *)

Inductive result (A : Type) : Type :=
  | Ok (a : A)
  | Panic
  | OutOfFuel.
Arguments Ok {A} a.
Arguments Panic {A}.
Arguments OutOfFuel {A}.

#[global] Instance result_ret : MRet result := fun A a => Ok a.
#[global] Instance result_bind : MBind result := fun A B k c =>
  match c with
  | Ok a => k a
  | Panic => Panic
  | OutOfFuel => OutOfFuel
  end.

(** [l[i]] with Go's bounds check. *)
Definition index {A} (l : list A) (i : Z) : result A :=
  if (0 <=? i) && (i <? Z.of_nat (length l))
  then match l !! Z.to_nat i with Some a => Ok a | None => Panic end
  else Panic.

(** [l[i] = a] with Go's bounds check. *)
Definition store {A} (l : list A) (i : Z) (a : A) : result (list A) :=
  if (0 <=? i) && (i <? Z.of_nat (length l))
  then Ok (<[Z.to_nat i := a]> l)
  else Panic.

(** [l[lo:hi]]; Go panics unless [lo <= hi <= cap l], and every slice taken
    in [segmenter.go] is of a slice whose capacity is its length or is
    bounded by the length explicitly. *)
Definition slice {A} (l : list A) (lo hi : nat) : result (list A) :=
  if (lo <=? hi)%nat && (hi <=? length l)%nat
  then Ok (take (hi - lo) (drop lo l))
  else Panic.

(** ** Bytes and text *)

(** Modelled from the spec: the declaration of [Text] is outside
    [segmenter.go]; the source converts it from and to [[]byte] and the
    spec calls a unit "a read-only byte slice". *)
Definition Text : Type := list byte.

Definition b2z (b : byte) : Z := Z.of_N (Byte.to_N b).

(** Conversion to [uint8]: arithmetic on bytes wraps around modulo 256. *)
Definition z2b (z : Z) : byte :=
  match Byte.of_N (Z.to_N (z mod 256)) with
  | Some b => b
  | None => x00
  end.

#[global] Instance byte_eq_dec : EqDecision byte := Byte.byte_eq_dec.

(** Modelled from the spec: [textSliceByteLength] is declared outside
    [segmenter.go]; the spec has the byte offsets accumulate "each term's
    total byte length", the sum of the lengths of its units. *)
Definition textSliceByteLength (text : list Text) : nat :=
  sum_list_with length text.

(** ** [float32] *)

Definition float32 : Type := spec_float.
Definition f32_of_Z (z : Z) : float32 := binary_normalize 24 128 z 0 false.
Definition f32_add : float32 -> float32 -> float32 := SFadd 24 128.
Definition f32_sub : float32 -> float32 -> float32 := SFsub 24 128.
Definition f32_eqb : float32 -> float32 -> bool := SFeqb.
(** Go's [a > b]. *)
Definition f32_gtb (a b : float32) : bool := SFltb b a.

(** ** The Go standard library *)

(** [IsLetterTable] and [IsNumberTable] stand for [unicode.IsLetter] and
    [unicode.IsNumber] on code points from U+0080 on, which Go decides by
    its Unicode tables; [Log2_f32 n] stands for
    [float32(math.Log2(float64(n)))]. *)
Class GoStdlib := {
  IsLetterTable : Z -> bool;
  IsNumberTable : Z -> bool;
  Log2_f32 : Z -> float32
}.

Definition RuneError : Z := 0xFFFD.

(** What [utf8.first] records about a leading byte: ASCII, invalid, or the
    length of the sequence with the accepted range of its second byte. *)
Inductive firstInfo : Type :=
  | AS
  | XX
  | Lead (sz : nat) (lo hi : Z).

Definition first (p0 : Z) : firstInfo :=
  if p0 <? 0x80 then AS
  else if p0 <? 0xC2 then XX
  else if p0 <? 0xE0 then Lead 2 0x80 0xBF
  else if p0 =? 0xE0 then Lead 3 0xA0 0xBF
  else if p0 <? 0xED then Lead 3 0x80 0xBF
  else if p0 =? 0xED then Lead 3 0x80 0x9F
  else if p0 <? 0xF0 then Lead 3 0x80 0xBF
  else if p0 =? 0xF0 then Lead 4 0x90 0xBF
  else if p0 <? 0xF4 then Lead 4 0x80 0xBF
  else if p0 =? 0xF4 then Lead 4 0x80 0x8F
  else XX.

(** A continuation byte outside [locb..hicb]. *)
Definition notCont (b : Z) : bool := (b <? 0x80) || (0xBF <? b).

(** [utf8.DecodeRune]: the first code point of [p] and its width. *)
Definition DecodeRune (p : Text) : Z * nat :=
  match p with
  | [] => (RuneError, 0%nat)
  | c0 :: rest =>
    let p0 := b2z c0 in
    match first p0 with
    | AS => (p0, 1%nat)
    | XX => (RuneError, 1%nat)
    | Lead sz lo hi =>
      if (length p <? sz)%nat then (RuneError, 1%nat) else
      match rest with
      | [] => (RuneError, 1%nat)
      | c1 :: rest1 =>
        let b1 := b2z c1 in
        if (b1 <? lo) || (hi <? b1) then (RuneError, 1%nat)
        else if (sz <=? 2)%nat
        then (Z.lor (Z.shiftl (Z.land p0 0x1F) 6) (Z.land b1 0x3F), 2%nat)
        else
        match rest1 with
        | [] => (RuneError, 1%nat)
        | c2 :: rest2 =>
          let b2 := b2z c2 in
          if notCont b2 then (RuneError, 1%nat)
          else if (sz <=? 3)%nat
          then (Z.lor (Z.lor (Z.shiftl (Z.land p0 0x0F) 12)
                             (Z.shiftl (Z.land b1 0x3F) 6))
                      (Z.land b2 0x3F), 3%nat)
          else
          match rest2 with
          | [] => (RuneError, 1%nat)
          | c3 :: _ =>
            let b3 := b2z c3 in
            if notCont b3 then (RuneError, 1%nat)
            else (Z.lor (Z.lor (Z.lor (Z.shiftl (Z.land p0 0x07) 18)
                                      (Z.shiftl (Z.land b1 0x3F) 12))
                               (Z.shiftl (Z.land b2 0x3F) 6))
                        (Z.land b3 0x3F), 4%nat)
          end
        end
      end
    end
  end.

Definition asciiLetter (r : Z) : bool :=
  ((65 <=? r) && (r <=? 90)) || ((97 <=? r) && (r <=? 122)).
Definition asciiDigit (r : Z) : bool := (48 <=? r) && (r <=? 57).

Section Splitter.
Context `{GoStdlib}.

Definition IsLetter (r : Z) : bool :=
  if r <? 0x80 then asciiLetter r else IsLetterTable r.
Definition IsNumber (r : Z) : bool :=
  if r <? 0x80 then asciiDigit r else IsNumberTable r.

(** [toLower]: fold the bytes ['A'..'Z'] to lower case. *)
Definition toLowerByte (t : byte) : byte :=
  if (65 <=? b2z t) && (b2z t <=? 90) then z2b (b2z t - 65 + 97) else t.
Definition toLower (text : Text) : Text := toLowerByte <$> text.

(** The flush of the pending run, at the two places where the source
    appends [toLower(text[alphanumericStart:current])]. *)
Definition flushRun (text : Text) (output : list Text) (current : nat)
    (inAlphanumeric : bool) (alphanumericStart : nat) : result (list Text) :=
  if inAlphanumeric then
    if negb (current =? 0)%nat then
      run ← slice text alphanumericStart current;
      Ok (output ++ [toLower run])
    else Ok output
  else Ok output.

(** The loop [for current < len(text)] of [splitTextToWords]. *)
Fixpoint splitLoop (fuel : nat) (text : Text) (output : list Text)
    (current : nat) (inAlphanumeric : bool) (alphanumericStart : nat)
    : result (list Text) :=
  if (current <? length text)%nat then
    match fuel with
    | O => OutOfFuel
    | S fuel' =>
      let '(r, size) := DecodeRune (drop current text) in
      if (size <=? 2)%nat && (IsLetter r || IsNumber r) then
        if negb inAlphanumeric
        then splitLoop fuel' text output (current + size)%nat true current
        else splitLoop fuel' text output (current + size)%nat true
               alphanumericStart
      else
        output1 ← flushRun text output current inAlphanumeric
                     alphanumericStart;
        unit ← slice text current (current + size)%nat;
        splitLoop fuel' text (output1 ++ [unit]) (current + size)%nat false
          alphanumericStart
    end
  else flushRun text output current inAlphanumeric alphanumericStart.

(** Every iteration consumes at least one byte, so [len(text)] iterations
    are enough (see [splitLoop_ok]). *)
Definition splitTextToWords (text : Text) : result (list Text) :=
  splitLoop (length text) text [] 0%nat true 0%nat.

End Splitter.

(** The positions at which the decoder starts a code point when it reads
    [text] from the left, and the end of [text]. *)
Inductive RuneBoundary (text : Text) : nat -> Prop :=
  | rb_start : RuneBoundary text 0%nat
  | rb_step n :
      RuneBoundary text n -> (n < length text)%nat ->
      RuneBoundary text (n + (DecodeRune (drop n text)).2)%nat.

(** ** Tokens, segments and the dictionary *)

(** A [*Token]: the address of an element of [dict.tokens], or the address
    of a pseudo token that [segmentWords] allocates for one unit. *)
Inductive TokenPtr : Type :=
  | DictTok (i : nat)
  | PseudoTok (u : Text).

#[global] Instance TokenPtr_eq_dec : EqDecision TokenPtr.
Proof. solve_decision. Defined.

Module Segment.
(** Modelled from the spec: the declaration of [Segment] is outside
    [segmenter.go]; its fields are the ones the source assigns ([start],
    [end], [token]), "a reference to the chosen Term, plus start/end byte
    offsets". A nil [token] is [None]. *)
Record t : Type := mk {
  start : nat;
  end_ : nat;
  token : option TokenPtr
}.
End Segment.

Module Token.
(** Modelled from the spec: the declaration of [Token] is outside
    [segmenter.go]; its fields are the ones the source reads and writes:
    the normalized text, the frequency, the derived cost [distance], the
    tag [pos] and the precomputed sub-segmentation [segments]. *)
Record t : Type := mk {
  text : list Text;
  frequency : Z;
  distance : float32;
  pos : Text;
  segments : list Segment.t
}.
End Token.

Module Dictionary.
(** Modelled from the spec: the declaration of [Dictionary] is outside
    [segmenter.go]; the spec gives it "the full set of Terms plus the
    aggregate totalFrequency (sum of all term frequencies) and
    maxTermLength (length, in Units, of the longest term)". *)
Record t : Type := mk {
  tokens : list Token.t;
  maxTokenLength : nat;
  totalFrequency : Z
}.
End Dictionary.

(** Modelled from the spec: [NewDictionary] is outside [segmenter.go]; a
    dictionary starts with no term. *)
Definition NewDictionary : Dictionary.t := Dictionary.mk [] 0%nat 0.

(** Modelled from the spec: [addToken] is outside [segmenter.go]; "store a
    Term with that frequency and optional pos tag. Accumulate
    totalFrequency over all accepted terms and track maxTermLength". *)
Definition addToken (dict : Dictionary.t) (token : Token.t) : Dictionary.t :=
  Dictionary.mk
    (Dictionary.tokens dict ++ [token])
    (Nat.max (Dictionary.maxTokenLength dict) (length (Token.text token)))
    (Dictionary.totalFrequency dict + Token.frequency token).

(** The addresses of the terms of [dict] whose text is [words], in the
    order of [dict.tokens]. *)
Definition tokensWithText (dict : Dictionary.t) (words : list Text)
    : list TokenPtr :=
  omap (fun it : nat * Token.t =>
          if decide (Token.text it.2 = words) then Some (DictTok it.1)
          else None)
       (imap pair (Dictionary.tokens dict)).

(** Modelled from the spec: [lookupTokens] is outside [segmenter.go]; it
    returns the "ordered list of matching Terms, ordered by ascending text
    length, where a Term matches iff its full normalized text equals a
    prefix of the given slice". The prefixes are taken from the shortest,
    the empty one, to the whole slice; terms of one text keep the order of
    [dict.tokens]. *)
Definition lookupTokens (dict : Dictionary.t) (words : list Text)
    : list TokenPtr :=
  flat_map (fun k => tokensWithText dict (take k words))
           (seq 0 (S (length words))).

(** The pseudo token [&Token{text: []Text{u}, frequency: 1, distance: 32,
    pos: "x"}]. *)
Definition pseudoToken (u : Text) : Token.t :=
  Token.mk [u] 1 (f32_of_Z 32) [x78] [].

(** Reading through a [*Token]. *)
Definition deref (dict : Dictionary.t) (p : option TokenPtr)
    : result Token.t :=
  match p with
  | None => Panic
  | Some (DictTok i) =>
      match Dictionary.tokens dict !! i with
      | Some t => Ok t
      | None => Panic
      end
  | Some (PseudoTok u) => Ok (pseudoToken u)
  end.

(** ** The segmenter *)

Definition minTokenFrequency : Z := 2.

Record jumper : Type := mkJumper {
  minDistance : float32;
  token : option TokenPtr
}.

(** The zero value of [jumper], as [make] fills the slice with. *)
Definition zeroJumper : jumper := mkJumper (S754_zero false) None.

Definition minInt (a b : nat) : nat := if (b <? a)%nat then b else a.
Definition maxInt (a b : nat) : nat := if (b <? a)%nat then a else b.

Definition updateJumper (dict : Dictionary.t) (j : jumper)
    (baseDistance : float32) (tok : TokenPtr) : result jumper :=
  t ← deref dict (Some tok);
  let newDistance := f32_add baseDistance (Token.distance t) in
  if f32_eqb (minDistance j) (S754_zero false)
     || f32_gtb (minDistance j) newDistance
  then Ok (mkJumper newDistance (Some tok))
  else Ok j.

(** [updateJumper(&jumpers[location], baseDistance, tok)]. *)
Definition updateAt (dict : Dictionary.t) (baseDistance : float32)
    (jumpers : list jumper) (call : Z * TokenPtr) : result (list jumper) :=
  j ← index jumpers call.1;
  j' ← updateJumper dict j baseDistance call.2;
  store jumpers call.1 j'.

(** A loop over a list whose body may panic. *)
Fixpoint foldM {A B} (f : A -> B -> result A) (a : A) (l : list B)
    : result A :=
  match l with
  | [] => Ok a
  | b :: l' => a' ← f a b; foldM f a' l'
  end.

(** The guard of the call in the loop over the matches:
    [!searchMode || current != 0 || location != len(text)-1]. *)
Definition updates (len : nat) (searchMode : bool) (current : nat)
    (location : Z) : bool :=
  negb searchMode || negb (current =? 0)%nat
  || negb (location =? Z.of_nat len - 1).

(** The tokens found at position [current]:
    [lookupTokens(text[current:minInt(current+maxTokenLength, len(text))])];
    the buffer [tokens] that the source passes is the list returned here,
    and [numTokens] is its length. *)
Definition tokensAt (dict : Dictionary.t) (text : list Text) (current : nat)
    : result (list TokenPtr) :=
  words ← slice text current
             (minInt (current + Dictionary.maxTokenLength dict) (length text));
  Ok (lookupTokens dict words).

(** [baseDistance] at position [current]. *)
Definition baseDistanceAt (jumpers : list jumper) (current : nat)
    : result float32 :=
  if (current =? 0)%nat then Ok (S754_zero false)
  else j ← index jumpers (Z.of_nat current - 1); Ok (minDistance j).

(** The loop over the tokens found at position [current]. *)
Fixpoint updateMatches (dict : Dictionary.t) (len : nat) (searchMode : bool)
    (current : nat) (baseDistance : float32) (tokens : list TokenPtr)
    (jumpers : list jumper) : result (list jumper) :=
  match tokens with
  | [] => Ok jumpers
  | tok :: rest =>
    t ← deref dict (Some tok);
    let location :=
      Z.of_nat current + Z.of_nat (length (Token.text t)) - 1 in
    jumpers' ← (if updates len searchMode current location
                then updateAt dict baseDistance jumpers (location, tok)
                else Ok jumpers);
    updateMatches dict len searchMode current baseDistance rest jumpers'
  end.

(** The pseudo token, added when [numTokens == 0 || len(tokens[0].text) > 1]. *)
Definition addPseudoToken (dict : Dictionary.t) (text : list Text)
    (current : nat) (baseDistance : float32) (tokens : list TokenPtr)
    (jumpers : list jumper) : result (list jumper) :=
  inject ← match tokens with
           | [] => Ok true
           | tok0 :: _ =>
               t0 ← deref dict (Some tok0);
               Ok (1 <? length (Token.text t0))%nat
           end;
  if inject : bool then
    u ← index text (Z.of_nat current);
    updateAt dict baseDistance jumpers (Z.of_nat current, PseudoTok u)
  else Ok jumpers.

(** One iteration of the forward loop. *)
Definition forwardStep (dict : Dictionary.t) (text : list Text)
    (searchMode : bool) (jumpers : list jumper) (current : nat)
    : result (list jumper) :=
  baseDistance ← baseDistanceAt jumpers current;
  tokens ← tokensAt dict text current;
  jumpers' ← updateMatches dict (length text) searchMode current baseDistance
                tokens jumpers;
  addPseudoToken dict text current baseDistance tokens jumpers'.

Definition forwardPass (dict : Dictionary.t) (text : list Text)
    (searchMode : bool) : result (list jumper) :=
  foldM (forwardStep dict text searchMode)
        (replicate (length text) zeroJumper)
        (seq 0 (length text)).

(** The first backward scan: it counts the segments. *)
Fixpoint countSegments (fuel : nat) (dict : Dictionary.t)
    (jumpers : list jumper) (idx : Z) (numSeg : Z) : result Z :=
  if 0 <=? idx then
    match fuel with
    | O => OutOfFuel
    | S fuel' =>
      j ← index jumpers idx;
      t ← deref dict (token j);
      let location := idx - Z.of_nat (length (Token.text t)) + 1 in
      countSegments fuel' dict jumpers (location - 1) (numSeg + 1)
    end
  else Ok numSeg.

(** The second backward scan: it fills [outputSegments] from the back. *)
Fixpoint fillSegments (fuel : nat) (dict : Dictionary.t)
    (jumpers : list jumper) (idx : Z) (numSeg : Z)
    (outputSegments : list Segment.t) : result (list Segment.t * Z) :=
  if 0 <=? idx then
    match fuel with
    | O => OutOfFuel
    | S fuel' =>
      j ← index jumpers idx;
      t ← deref dict (token j);
      let location := idx - Z.of_nat (length (Token.text t)) + 1 in
      let numSeg := numSeg - 1 in
      s ← index outputSegments numSeg;
      j2 ← index jumpers idx;
      out ← store outputSegments numSeg
              (Segment.mk (Segment.start s) (Segment.end_ s) (token j2));
      fillSegments fuel' dict jumpers (location - 1) numSeg out
    end
  else Ok (outputSegments, numSeg).

(** The last loop: the byte positions of the segments. *)
Fixpoint bytePositions (dict : Dictionary.t) (bytePosition : nat)
    (outputSegments : list Segment.t) : result (list Segment.t) :=
  match outputSegments with
  | [] => Ok []
  | s :: rest =>
    t ← deref dict (Segment.token s);
    let bytePosition' :=
      (bytePosition + textSliceByteLength (Token.text t))%nat in
    rest' ← bytePositions dict bytePosition' rest;
    Ok (Segment.mk bytePosition bytePosition' (Segment.token s) :: rest')
  end.

(** [make([]Segment, numSeg)], which panics on a negative length. *)
Definition makeSegments (numSeg : Z) : result (list Segment.t) :=
  if numSeg <? 0 then Panic
  else Ok (replicate (Z.to_nat numSeg) (Segment.mk 0 0 None)).

(** [segmentWords]; a token of at least one unit moves a backward scan at
    least one position, so [len(text)] iterations are its fuel. *)
Definition segmentWords (dict : Dictionary.t) (text : list Text)
    (searchMode : bool) : result (list Segment.t) :=
  if searchMode && (length text =? 1)%nat then Ok []
  else
    jumpers ← forwardPass dict text searchMode;
    let last := Z.of_nat (length text) - 1 in
    numSeg ← countSegments (length text) dict jumpers last 0;
    outputSegments ← makeSegments numSeg;
    filled ← fillSegments (length text) dict jumpers last numSeg
               outputSegments;
    bytePositions dict 0 filled.1.

Section Segmenter.
Context `{GoStdlib}.

Definition internalSegment (dict : Dictionary.t) (bytes : Text)
    (searchMode : bool) : result (list Segment.t) :=
  if (length bytes =? 0)%nat then Ok []
  else
    text ← splitTextToWords bytes;
    segmentWords dict text searchMode.

Definition Segment (dict : Dictionary.t) (bytes : Text)
    : result (list Segment.t) :=
  internalSegment dict bytes false.

Definition InternalSegment (dict : Dictionary.t) (bytes : Text)
    (searchMode : bool) : result (list Segment.t) :=
  internalSegment dict bytes searchMode.

End Segmenter.

(** ** Loading a dictionary *)

(** [unicode.IsSpace]: the Unicode White_Space code points. *)
Definition IsSpace (r : Z) : bool :=
  ((0x09 <=? r) && (r <=? 0x0D)) || (r =? 0x20) || (r =? 0x85) || (r =? 0xA0)
  || (r =? 0x1680) || ((0x2000 <=? r) && (r <=? 0x200A))
  || (r =? 0x2028) || (r =? 0x2029) || (r =? 0x202F) || (r =? 0x205F)
  || (r =? 0x3000).

Definition flushField (field : Text) : list Text :=
  match field with
  | [] => []
  | _ => [field]
  end.

(** [strings.Fields]: the maximal runs of code points that are not white
    space; [field] is the run being read. *)
Fixpoint fieldsLoop (fuel : nat) (s : Text) (field : Text)
    : result (list Text) :=
  match s with
  | [] => Ok (flushField field)
  | _ :: _ =>
    match fuel with
    | O => OutOfFuel
    | S fuel' =>
      let '(r, size) := DecodeRune s in
      if IsSpace r then
        rest ← fieldsLoop fuel' (drop size s) [];
        Ok (flushField field ++ rest)
      else fieldsLoop fuel' (drop size s) (field ++ take size s)
    end
  end.

Definition Fields (s : Text) : result (list Text) :=
  fieldsLoop (length s) s [].

Definition digitValue (c : byte) : option Z :=
  if (48 <=? b2z c) && (b2z c <=? 57) then Some (b2z c - 48) else None.

Fixpoint parseDigits (n : Z) (s : Text) : option Z :=
  match s with
  | [] => Some n
  | c :: s' =>
    match digitValue c with
    | Some v => parseDigits (n * 10 + v) s'
    | None => None
    end
  end.

(** [strconv.Atoi] for a 64-bit [int]: an optional sign, then decimal
    digits only, at least one, and a value that fits; [None] is a non-nil
    error. *)
Definition Atoi (s : Text) : option Z :=
  let '(neg, digits) :=
    match s with
    | c :: s' =>
        if decide (c = x2d) then (true, s')
        else if decide (c = x2b) then (false, s')
        else (false, s)
    | [] => (false, [])
    end in
  match digits with
  | [] => None
  | _ :: _ =>
    match parseDigits 0 digits with
    | Some n =>
        let v := if neg : bool then - n else n in
        if (- 2 ^ 63 <=? v) && (v <? 2 ^ 63) then Some v else None
    | None => None
    end
  end.

(** The lines that the loop over [reader.ReadString('\n')] sees: each ends
    with its newline, except a last one that the input does not end. *)
Fixpoint readLines (content : Text) (line : Text) : list Text :=
  match content with
  | [] => flushField line
  | c :: rest =>
      if decide (c = x0a) then (line ++ [c]) :: readLines rest []
      else readLines rest (line ++ [c])
  end.

Section Loader.
Context `{GoStdlib}.

(** What the body of the reading loop does with one line: [None] when the
    line is skipped ([continue]), the token it adds otherwise. *)
Definition parseLine (line : Text) : result (option Token.t) :=
  fields ← Fields line;
  match fields with
  | text :: freqText :: rest =>
    let pos := match rest with
               | p :: _ => p
               | [] => []
               end in
    match Atoi freqText with
    | None => Ok None
    | Some frequency =>
      if frequency <? minTokenFrequency then Ok None
      else
        words ← splitTextToWords text;
        Ok (Some (Token.mk words frequency (S754_zero false) pos []))
    end
  | _ => Ok None
  end.

Definition loadLine (dict : Dictionary.t) (line : Text)
    : result Dictionary.t :=
  r ← parseLine line;
  match r with
  | Some token => Ok (addToken dict token)
  | None => Ok dict
  end.

(** The first loop of [LoadDictionary]. *)
Definition loadLines (lines : list Text) : result Dictionary.t :=
  foldM loadLine NewDictionary lines.

Definition setDistance (logTotalFrequency : float32) (t : Token.t)
    : Token.t :=
  Token.mk (Token.text t) (Token.frequency t)
    (f32_sub logTotalFrequency (Log2_f32 (Token.frequency t)))
    (Token.pos t) (Token.segments t).

(** The second loop: the path value of every token. *)
Definition assignDistances (dict : Dictionary.t) : Dictionary.t :=
  let logTotalFrequency := Log2_f32 (Dictionary.totalFrequency dict) in
  Dictionary.mk
    (map (setDistance logTotalFrequency) (Dictionary.tokens dict))
    (Dictionary.maxTokenLength dict)
    (Dictionary.totalFrequency dict).

(** The segments that the third loop keeps: those whose token has text. *)
Fixpoint keepSegments (dict : Dictionary.t) (segments : list Segment.t)
    : result (list Segment.t) :=
  match segments with
  | [] => Ok []
  | s :: rest =>
    t ← deref dict (Segment.token s);
    rest' ← keepSegments dict rest;
    if (0 <? length (Token.text t))%nat then Ok (s :: rest') else Ok rest'
  end.

Definition setSegments (segments : list Segment.t) (t : Token.t) : Token.t :=
  Token.mk (Token.text t) (Token.frequency t) (Token.distance t)
    (Token.pos t) segments.

(** One iteration of the third loop: the sub-segmentation of token [i],
    written into [dict.tokens[i]] in place. *)
Definition subSegment (dict : Dictionary.t) (i : nat)
    : result Dictionary.t :=
  token ← index (Dictionary.tokens dict) (Z.of_nat i);
  segments ← segmentWords dict (Token.text token) true;
  kept ← keepSegments dict segments;
  Ok (Dictionary.mk
        (<[i := setSegments kept token]> (Dictionary.tokens dict))
        (Dictionary.maxTokenLength dict)
        (Dictionary.totalFrequency dict)).

(** The three loops of [LoadDictionary], on the lines read. *)
Definition loadFromLines (lines : list Text) : result Dictionary.t :=
  dict ← loadLines lines;
  let dict := assignDistances dict in
  foldM subSegment dict (seq 0 (length (Dictionary.tokens dict))).

Definition LoadDictionary (content : Text) : result Dictionary.t :=
  loadFromLines (readLines content []).

End Loader.

(** ** A concrete standard library for the examples

    [math.Log2] is exact on the powers of two ([Frexp] gives the fraction
    one half, and the result is the exponent), and the examples only take
    it of powers of two; their inputs have no code point in
    U+0080..U+07FF, and U+FFFD is neither a letter nor a number. *)
Definition exampleStdlib : GoStdlib :=
  {| IsLetterTable := fun _ => false;
     IsNumberTable := fun _ => false;
     Log2_f32 := fun n => f32_of_Z (Z.log2 n) |}.

(** The two characters of "bei jing" in UTF-8, three bytes each. *)
Definition uBei : Text := [xe5; x8c; x97].
Definition uJing : Text := [xe4; xba; xac].
(** The dictionary source ["<bei><jing> 128\n"]. *)
Definition beijingSource : Text :=
  uBei ++ uJing ++ [x20; x31; x32; x38; x0a].

(** ** Specification vocabulary

    The predicates in which the properties below are stated, and the
    example inputs on which they are tried. *)

Section Specification.
Context `{GoStdlib}.

(** Every boundary between two units, and both ends, is a boundary of the
    decoder. *)
Definition unitBoundaries (text : Text) (units : list Text) : Prop :=
  forall k, (k <= length units)%nat ->
    RuneBoundary text (textSliceByteLength (take k units)).

(** The state of the loop that the proofs carry along. *)
Record splitInv (text : Text) (output : list Text) (current : nat)
    (inA : bool) (start : nat) : Prop := {
  inv_cur : (current <= length text)%nat;
  inv_rb : RuneBoundary text current;
  inv_run : inA = true -> (start <= current)%nat /\ RuneBoundary text start;
  inv_len : textSliceByteLength output = if inA then start else current;
  inv_bnd : unitBoundaries text output
}.

(** The bytes ['A'..'Z']. *)
Definition isUpper (c : byte) : bool := (65 <=? b2z c) && (b2z c <=? 90).

(** Whether the code point at the head of [p] extends a run, and its width. *)
Definition runeClass (p : Text) : bool * nat :=
  let '(r, size) := DecodeRune p in
  ((size <=? 2)%nat && (IsLetter r || IsNumber r), size).

(** No term of the dictionary has an empty text. *)
Definition noEmptyToken (dict : Dictionary.t) : bool :=
  forallb (fun t => negb (length (Token.text t) =? 0)%nat)
          (Dictionary.tokens dict).

(** [tok] points to a token of at least one unit whose text is the text
    that ends at unit [i]; in search mode it is not the whole text. *)
Definition GoodTok (dict : Dictionary.t) (text : list Text)
    (searchMode : bool) (i : nat) (tok : TokenPtr) : Prop :=
  exists t, deref dict (Some tok) = Ok t
    /\ (1 <= length (Token.text t) <= i + 1)%nat
    /\ take (length (Token.text t))
            (drop (i + 1 - length (Token.text t)) text) = Token.text t
    /\ (searchMode = true -> (length (Token.text t) < length text)%nat).

(** A cell is either untouched, with the cost 0 of its zero value, or holds
    a good token. *)
Definition CellOk (dict : Dictionary.t) (text : list Text)
    (searchMode : bool) (i : nat) (j : jumper) : Prop :=
  match token j with
  | None => minDistance j = S754_zero false
  | Some tok => GoodTok dict text searchMode i tok
  end.

(** The invariant of the forward pass. *)
Definition Cells (dict : Dictionary.t) (text : list Text)
    (searchMode : bool) (jumpers : list jumper) : Prop :=
  length jumpers = length text
  /\ forall i j, jumpers !! i = Some j -> CellOk dict text searchMode i j.

(** Cell [i] holds a token. *)
Definition filled (jumpers : list jumper) (i : nat) : Prop :=
  exists j tok, jumpers !! i = Some j /\ token j = Some tok.

(** A call of [updateJumper] on a cell of the slice with a good token. *)
Definition GoodCall (dict : Dictionary.t) (text : list Text)
    (searchMode : bool) (call : Z * TokenPtr) : Prop :=
  0 <= call.1 < Z.of_nat (length text)
  /\ GoodTok dict text searchMode (Z.to_nat call.1) call.2.

(** The calls that the loop over the tokens found makes at position
    [current], as pairs of the cell's index and the token. *)
Fixpoint matchCalls (dict : Dictionary.t) (len : nat) (searchMode : bool)
    (current : nat) (tokens : list TokenPtr) : result (list (Z * TokenPtr)) :=
  match tokens with
  | [] => Ok []
  | tok :: rest =>
    t ← deref dict (Some tok);
    let location :=
      Z.of_nat current + Z.of_nat (length (Token.text t)) - 1 in
    calls ← matchCalls dict len searchMode current rest;
    if updates len searchMode current location
    then Ok ((location, tok) :: calls)
    else Ok calls
  end.

(** The call that adds the pseudo token at position [current], if any. *)
Definition pseudoCall (dict : Dictionary.t) (text : list Text)
    (current : nat) (tokens : list TokenPtr) : result (list (Z * TokenPtr)) :=
  inject ← match tokens with
           | [] => Ok true
           | tok0 :: _ =>
               t0 ← deref dict (Some tok0);
               Ok (1 <? length (Token.text t0))%nat
           end;
  if inject : bool then
    u ← index text (Z.of_nat current);
    Ok [(Z.of_nat current, PseudoTok u)]
  else Ok [].

(** All calls of [updateJumper] at position [current], in order. *)
Definition callsAt (dict : Dictionary.t) (text : list Text)
    (searchMode : bool) (current : nat) : result (list (Z * TokenPtr)) :=
  tokens ← tokensAt dict text current;
  real ← matchCalls dict (length text) searchMode current tokens;
  pseudo ← pseudoCall dict text current tokens;
  Ok (real ++ pseudo).

(** An outcome other than the end of the fuel. *)
Definition fuelFree {A} (c : result A) : Prop := c <> OutOfFuel.

(** Whether the source adds the pseudo token, given the tokens found. *)
Definition addsPseudo (dict : Dictionary.t) (toks : list TokenPtr) : bool :=
  match toks with
  | [] => true
  | tok0 :: _ =>
      match deref dict (Some tok0) with
      | Ok t0 => (1 <? length (Token.text t0))%nat
      | _ => false
      end
  end.

(** The tokens that the backward scans meet from unit [m - 1] down, listed
    from the left. *)
Inductive Chain (dict : Dictionary.t) (text : list Text) (searchMode : bool)
    (jumpers : list jumper) : nat -> list TokenPtr -> Prop :=
  | chain_nil : Chain dict text searchMode jumpers 0%nat []
  | chain_step m j tok toks :
      jumpers !! m = Some j -> token j = Some tok ->
      GoodTok dict text searchMode m tok ->
      (forall t, deref dict (Some tok) = Ok t ->
         Chain dict text searchMode jumpers
               (m + 1 - length (Token.text t))%nat toks) ->
      Chain dict text searchMode jumpers (S m) (toks ++ [tok]).

(** The bytes of the text of the token behind a pointer. *)
Definition tokBytes (dict : Dictionary.t) (tok : TokenPtr) : nat :=
  match deref dict (Some tok) with
  | Ok t => textSliceByteLength (Token.text t)
  | _ => 0%nat
  end.

(** The segments lie end to end from byte [from] to byte [to]. *)
Fixpoint contiguous (from : nat) (segs : list Segment.t) (to : nat) : Prop :=
  match segs with
  | [] => from = to
  | s :: rest =>
      Segment.start s = from /\ (Segment.start s <= Segment.end_ s)%nat
      /\ contiguous (Segment.end_ s) rest to
  end.

(** The three equations of the spec for the spans of a result, and that no
    span ends before it starts. *)
Definition covers (segs : list Segment.t) (len : nat) : Prop :=
  (exists s : Segment.t, segs !! 0%nat = Some s /\ Segment.start s = 0%nat)
  /\ (forall (i : nat) (s s' : Segment.t),
        segs !! i = Some s -> segs !! S i = Some s' ->
        Segment.end_ s = Segment.start s')
  /\ (exists s : Segment.t, list.last segs = Some s /\ Segment.end_ s = len)
  /\ (forall s : Segment.t,
        s ∈ segs -> (Segment.start s <= Segment.end_ s)%nat).

(** The fields of a line, and the units of a text, as plain lists. *)
Definition fieldsOf (line : Text) : list Text :=
  match Fields line with
  | Ok fields => fields
  | _ => []
  end.

Definition unitsOf (text : Text) : list Text :=
  match splitTextToWords text with
  | Ok units => units
  | _ => []
  end.

(** A line is discarded when it has fewer than two fields, when its second
    field is not an integer, or when that integer is below the threshold. *)
Definition discarded (line : Text) : bool :=
  (length (fieldsOf line) <? 2)%nat
  || match fieldsOf line !! 1%nat with
     | Some freqText =>
         match Atoi freqText with
         | Some frequency => frequency <? 2
         | None => true
         end
     | None => true
     end.

(** The term of a line that is kept: its first field in units, the value of
    its second field, and its third field, or no tag. *)
Definition storedTerm (line : Text) : list Text * Z * Text :=
  (unitsOf (default [] (fieldsOf line !! 0%nat)),
   default 0 (fieldsOf line !! 1%nat ≫= Atoi),
   default [] (fieldsOf line !! 2%nat)).

(** What a record gives a term: text, frequency and tag. *)
Definition termOf (t : Token.t) : list Text * Z * Text :=
  (Token.text t, Token.frequency t, Token.pos t).

(** A token without its sub-segmentation. *)
Definition core (t : Token.t) : Token.t :=
  Token.mk (Token.text t) (Token.frequency t) (Token.distance t)
    (Token.pos t) [].

(** The sum of the frequencies of a list of terms. *)
Fixpoint sumFrequency (tokens : list Token.t) : Z :=
  match tokens with
  | [] => 0
  | t :: rest => Token.frequency t + sumFrequency rest
  end.

(** The token that the reading loop adds for a line, if any. *)
Definition parsed (line : Text) : option Token.t :=
  match parseLine line with
  | Ok r => r
  | _ => None
  end.

(** The four characters of "zhong hua ren min" in UTF-8, three bytes each. *)
Definition uZhong : Text := [xe4; xb8; xad].

Definition uHua : Text := [xe5; x8d; x8e].

Definition uRen : Text := [xe4; xba; xba].

Definition uMin : Text := [xe6; xb0; x91].

(** The records ["<zhong><hua> 4"], ["<ren><min> 2 n"],
    ["<zhong><hua><ren><min> 2"], and two lines that are skipped:
    ["<zhong> 1"] and ["<hua> many"]. The frequencies that are kept add up
    to 8. *)
Definition exampleSource : Text :=
  uZhong ++ uHua ++ [x20; x34; x0a]
  ++ uZhong ++ [x20; x31; x0a]
  ++ uRen ++ uMin ++ [x20; x32; x20; x6e; x0a]
  ++ uHua ++ [x20; x6d; x61; x6e; x79; x0a]
  ++ uZhong ++ uHua ++ uRen ++ uMin ++ [x20; x32].

(** The dictionaries loaded from the two example sources (the witnesses
    below show that the loads return them). *)
Definition exampleDict : Dictionary.t :=
  match @LoadDictionary exampleStdlib exampleSource with
  | Ok dict => dict
  | _ => NewDictionary
  end.

Definition beijingDict : Dictionary.t :=
  match @LoadDictionary exampleStdlib beijingSource with
  | Ok dict => dict
  | _ => NewDictionary
  end.

(** ** Notions of the further properties

    The text behind a token pointer, the span of a segment, the state of
    the cells on a text without matches, and the sub-segmentation of a
    term. *)

(** A byte that is an ASCII letter or digit. *)
Definition asciiAlnum (c : byte) : bool :=
  asciiLetter (b2z c) || asciiDigit (b2z c).

(** The text of the token of a segment, and of the token behind a pointer;
    no text when the pointer is nil. *)
Definition tokText (dict : Dictionary.t) (tok : option TokenPtr)
    : list Text :=
  match deref dict tok with
  | Ok t => Token.text t
  | _ => []
  end.
Definition segText (dict : Dictionary.t) (s : Segment.t) : list Text :=
  tokText dict (Segment.token s).

(** A segment spans as many bytes as the text of its token has. *)
Definition spansToken (dict : Dictionary.t) (s : Segment.t) : Prop :=
  Segment.end_ s
  = (Segment.start s + textSliceByteLength (segText dict s))%nat.

(** The cells before [current] hold the pseudo tokens of the units of
    [text], the others are untouched. *)
Definition pseudoUpTo (text : list Text) (current : nat) (jumpers : list jumper) : Prop :=
  length jumpers = length text
  /\ (forall i, (i < current)%nat ->
        exists j u, jumpers !! i = Some j /\ text !! i = Some u
                    /\ token j = Some (PseudoTok u))
  /\ (forall i, (current <= i < length text)%nat ->
        jumpers !! i = Some zeroJumper).

(** What the third loop of [LoadDictionary] leaves in [token.segments] for a
    token of text [text]: nothing for a text of one unit; for a longer text
    at least two segments that lie end to end over its bytes, whose tokens
    spell it unit by unit, each shorter than the text. *)
Definition subSegmentation (dict : Dictionary.t) (text : list Text)
    (segs : list Segment.t) : Prop :=
  (length text = 1%nat -> segs = [])
  /\ ((2 <= length text)%nat ->
      (2 <= length segs)%nat
      /\ covers segs (textSliceByteLength text)
      /\ concat (segText dict <$> segs) = text
      /\ Forall (fun s => (1 <= length (segText dict s) < length text)%nat)
                segs).

End Specification.

(** * Properties *)

(** Case analysis on the next comparison that guards a conditional. *)
Ltac case_cmp :=
  match goal with
  | |- context [if (?a <? ?b)%Z then _ else _] => destruct (Z.ltb_spec a b)
  | |- context [if (?a <=? ?b)%Z then _ else _] => destruct (Z.leb_spec a b)
  | |- context [if (?a =? ?b)%Z then _ else _] => destruct (Z.eqb_spec a b)
  end.

(** Unfolding of the binds of the result monad. *)
Ltac rstep := cbn [mbind result_bind mret result_ret].

(** ** Generic facts *)

Lemma slice_ok {A} (l : list A) (lo hi : nat) :
  (lo <= hi)%nat -> (hi <= length l)%nat ->
  slice l lo hi = Ok (take (hi - lo) (drop lo l)).
Proof.
  intros Hlo Hhi. unfold slice.
  destruct (Nat.leb_spec lo hi); [|lia].
  destruct (Nat.leb_spec hi (length l)); [|lia]. reflexivity.
Qed.

Lemma textSliceByteLength_app (a b : list Text) :
  textSliceByteLength (a ++ b)
  = (textSliceByteLength a + textSliceByteLength b)%nat.
Proof. unfold textSliceByteLength. apply sum_list_with_app. Qed.

Lemma textSliceByteLength_snoc (a : list Text) (u : Text) :
  textSliceByteLength (a ++ [u]) = (textSliceByteLength a + length u)%nat.
Proof. rewrite textSliceByteLength_app. simpl. lia. Qed.

(** ** The decoder *)

Lemma first_Lead (x : Z) (sz : nat) (lo hi : Z) :
  first x = Lead sz lo hi ->
  0xC2 <= x /\ 0x80 <= lo /\ (2 <= sz <= 4)%nat.
Proof.
  unfold first. repeat case_cmp; intros Heq; inversion Heq; subst; lia.
Qed.

Lemma first_AS (x : Z) : first x = AS <-> x < 0x80.
Proof.
  unfold first. repeat case_cmp; split; intros;
    try discriminate; try reflexivity; try lia; exfalso; lia.
Qed.

Lemma DecodeRune_size (p : Text) :
  p <> [] -> (1 <= (DecodeRune p).2 <= length p)%nat.
Proof.
  destruct p as [|c0 rest]; [congruence|]. intros _.
  unfold DecodeRune.
  destruct (first (b2z c0)) as [| |sz lo hi] eqn:Hf;
    [cbn [snd length]; lia .. |].
  apply first_Lead in Hf. destruct Hf as (_ & _ & Hsz).
  destruct (Nat.ltb_spec (length (c0 :: rest)) sz) as [Hl|Hl];
    [cbn [snd length]; lia|].
  destruct rest as [|c1 rest1]; [cbn [snd length]; lia|].
  destruct (_ || _); [cbn [snd length]; lia|].
  destruct (Nat.leb_spec sz 2); [cbn [snd length]; lia|].
  destruct rest1 as [|c2 rest2]; [cbn [snd length]; lia|].
  destruct (notCont _); [cbn [snd length]; lia|].
  destruct (Nat.leb_spec sz 3); [cbn [snd length]; lia|].
  destruct rest2 as [|c3 rest3]; [cbn [snd length]; lia|].
  destruct (notCont _); cbn [snd length]; lia.
Qed.

Lemma DecodeRune_drop_size (text : Text) (n : nat) r size :
  (n < length text)%nat -> DecodeRune (drop n text) = (r, size) ->
  (1 <= size)%nat /\ (n + size <= length text)%nat.
Proof.
  intros Hn He.
  assert (Hne : drop n text <> []).
  { intros Hd. apply (f_equal length) in Hd.
    rewrite length_drop in Hd. simpl in Hd. lia. }
  pose proof (DecodeRune_size _ Hne) as Hs.
  rewrite He, length_drop in Hs. simpl in Hs. lia.
Qed.

(** ** The splitter covers its input *)

Lemma unitBoundaries_nil (text : Text) : unitBoundaries text [].
Proof. intros k _. rewrite take_nil. apply rb_start. Qed.

Lemma unitBoundaries_snoc (text : Text) (units : list Text) (u : Text) :
  unitBoundaries text units ->
  RuneBoundary text (textSliceByteLength units + length u)%nat ->
  unitBoundaries text (units ++ [u]).
Proof.
  intros Hb Hu k Hk. rewrite length_app in Hk. simpl in Hk.
  destruct (decide (k <= length units)%nat) as [Hle|Hgt].
  - rewrite take_app_le by assumption. apply Hb. assumption.
  - rewrite take_ge by (rewrite length_app; simpl; lia).
    rewrite textSliceByteLength_snoc. assumption.
Qed.

Section SplitterFacts.
Context `{GoStdlib}.

Lemma length_toLower (t : Text) : length (toLower t) = length t.
Proof. apply length_fmap. Qed.

Lemma flushRun_cover text output current inA start :
  splitInv text output current inA start ->
  exists out1, flushRun text output current inA start = Ok out1
    /\ textSliceByteLength out1 = current
    /\ unitBoundaries text out1.
Proof.
  intros [Hcur Hrb Hrun Hlen Hbnd]. unfold flushRun.
  destruct inA.
  - destruct (Hrun eq_refl) as [Hle Hrbs].
    destruct (Nat.eqb_spec current 0) as [->|Hne]; simpl.
    + exists output. split; [reflexivity|]. split; [lia|assumption].
    + rewrite slice_ok by lia. simpl.
      assert (Hl : length (toLower (take (current - start) (drop start text)))
                   = (current - start)%nat).
      { rewrite length_toLower, length_take, length_drop. lia. }
      eexists. split; [reflexivity|]. split.
      * rewrite textSliceByteLength_snoc, Hl. lia.
      * apply unitBoundaries_snoc; [assumption|].
        rewrite Hl, Hlen. replace (start + (current - start))%nat
          with current by lia. assumption.
  - exists output. split; [reflexivity|]. split; assumption.
Qed.

Lemma splitLoop_cover fuel : forall text output current inA start,
  splitInv text output current inA start ->
  (length text - current <= fuel)%nat ->
  exists units, splitLoop fuel text output current inA start = Ok units
    /\ textSliceByteLength units = length text
    /\ unitBoundaries text units.
Proof.
  induction fuel as [|fuel IH]; intros text output current inA start Hinv Hfuel.
  - simpl. destruct (Nat.ltb_spec current (length text)) as [Hlt|Hge]; [lia|].
    destruct (flushRun_cover _ _ _ _ _ Hinv) as (out1 & -> & Hl & Hb).
    exists out1. pose proof (inv_cur _ _ _ _ _ Hinv). repeat split; [lia|assumption].
  - simpl. destruct (Nat.ltb_spec current (length text)) as [Hlt|Hge].
    2:{ destruct (flushRun_cover _ _ _ _ _ Hinv) as (out1 & -> & Hl & Hb).
        exists out1. pose proof (inv_cur _ _ _ _ _ Hinv).
        repeat split; [lia|assumption]. }
    destruct (DecodeRune (drop current text)) as [r size] eqn:He.
    destruct (DecodeRune_drop_size _ _ _ _ Hlt He) as [Hs1 Hs2].
    assert (Hrb' : RuneBoundary text (current + size)).
    { replace size with (DecodeRune (drop current text)).2 by (rewrite He; reflexivity).
      apply rb_step; [apply Hinv|assumption]. }
    destruct ((size <=? 2)%nat && (IsLetter r || IsNumber r)).
    + destruct Hinv as [Hcur Hrb Hrun Hlen Hbnd].
      destruct inA; simpl; apply IH; try lia; constructor; try assumption; try lia.
      * intros _. destruct (Hrun eq_refl). split; [lia|assumption].
      * intros _. split; [lia|assumption].
    + destruct (flushRun_cover _ _ _ _ _ Hinv) as (out1 & -> & Hl & Hb).
      simpl. rewrite slice_ok by lia. simpl.
      assert (Hlu : length (take (current + size - current) (drop current text)) = size).
      { rewrite length_take, length_drop. lia. }
      apply IH; [|lia]. constructor.
      * lia.
      * assumption.
      * discriminate.
      * rewrite textSliceByteLength_snoc, Hlu. lia.
      * apply unitBoundaries_snoc; [assumption|]. rewrite Hlu, Hl. assumption.
Qed.

End SplitterFacts.

Lemma toLowerByte_b2z (c : byte) :
  b2z (toLowerByte c) = if isUpper c then b2z c + 32 else b2z c.
Proof. destruct c; reflexivity. Qed.

Lemma toLowerByte_idem (c : byte) : toLowerByte (toLowerByte c) = toLowerByte c.
Proof. destruct c; reflexivity. Qed.

Lemma toLowerByte_fixed (c : byte) : isUpper c = false -> toLowerByte c = c.
Proof. unfold toLowerByte, isUpper. intros ->. reflexivity. Qed.

Lemma isUpper_range (c : byte) : isUpper c = true -> 65 <= b2z c <= 90.
Proof. unfold isUpper. intros Hu. apply andb_true_iff in Hu. lia. Qed.

Lemma isUpper_high (c : byte) : 0x80 <= b2z c -> isUpper c = false.
Proof.
  intros Hc. destruct (isUpper c) eqn:Hu; [|reflexivity].
  apply isUpper_range in Hu. lia.
Qed.

Lemma toLower_idem (t : Text) : toLower (toLower t) = toLower t.
Proof.
  unfold toLower. rewrite <- list_fmap_compose. apply list_fmap_ext.
  intros i c _. apply toLowerByte_idem.
Qed.

Lemma toLower_fixed (t : Text) :
  Forall (fun c => isUpper c = false) t -> toLower t = t.
Proof.
  induction 1 as [|c t Hc _ IH]; [reflexivity|].
  unfold toLower in *. cbn [fmap list_fmap]. 
  rewrite toLowerByte_fixed by assumption. f_equal. exact IH.
Qed.

Lemma notCont_false (b : Z) : notCont b = false -> 0x80 <= b.
Proof. unfold notCont. intros Hn. apply orb_false_iff in Hn. lia. Qed.

Lemma range_false (b lo hi : Z) : (b <? lo) || (hi <? b) = false -> lo <= b.
Proof. intros Hn. apply orb_false_iff in Hn. lia. Qed.

Section Lowering.
Context `{GoStdlib}.

Lemma asciiUpper_letter (x : Z) : 65 <= x <= 90 -> IsLetter x = true.
Proof.
  intros Hx. unfold IsLetter, asciiLetter.
  destruct (Z.ltb_spec x 128); [|lia].
  apply orb_true_iff. left. apply andb_true_iff. lia.
Qed.

Lemma asciiLower_letter (x : Z) : 97 <= x <= 122 -> IsLetter x = true.
Proof.
  intros Hx. unfold IsLetter, asciiLetter.
  destruct (Z.ltb_spec x 128); [|lia].
  apply orb_true_iff. right. apply andb_true_iff. lia.
Qed.

(** The bytes of a code point that does not extend a run have no upper
    case letter among them. *)
Lemma nonAlnum_noUpper (p : Text) (r : Z) (size : nat) :
  DecodeRune p = (r, size) ->
  (size <=? 2)%nat && (IsLetter r || IsNumber r) = false ->
  Forall (fun c => isUpper c = false) (take size p).
Proof.
  destruct p as [|c0 rest].
  { intros _ _. rewrite take_nil. constructor. }
  unfold DecodeRune.
  assert (Hone : forall r', 0x80 <= b2z c0 ->
            (RuneError, 1%nat) = (r', size) ->
            Forall (fun c => isUpper c = false) (take size (c0 :: rest))).
  { intros r' Hc Heq. inversion Heq; subst. cbn [take].
    constructor; [apply isUpper_high; assumption|rewrite take_0; constructor]. }
  destruct (first (b2z c0)) as [| |sz lo hi] eqn:Hf.
  - intros Heq Hcls. inversion Heq; subst. cbn [take]. rewrite take_0.
    constructor; [|constructor].
    destruct (isUpper c0) eqn:Hu; [|reflexivity].
    apply isUpper_range in Hu. rewrite (asciiUpper_letter _ Hu) in Hcls.
    discriminate.
  - intros Heq _. apply (Hone r); [|assumption].
    destruct (Z.ltb_spec (b2z c0) 0x80) as [Hlt|]; [|assumption].
    apply first_AS in Hlt. congruence.
  - apply first_Lead in Hf. destruct Hf as (Hc0 & Hlo & Hsz).
    assert (Hc0' : 0x80 <= b2z c0) by lia.
    destruct (length (c0 :: rest) <? sz)%nat; [intros; eapply Hone; eassumption|].
    destruct rest as [|c1 rest1]; [intros; eapply Hone; eassumption|].
    destruct ((b2z c1 <? lo) || (hi <? b2z c1)) eqn:Hr1;
      [intros; eapply Hone; eassumption|].
    apply range_false in Hr1.
    destruct (sz <=? 2)%nat.
    { intros Heq _. inversion Heq; subst. cbn [take]. rewrite take_0.
      repeat constructor; apply isUpper_high; lia. }
    destruct rest1 as [|c2 rest2]; [intros; eapply Hone; eassumption|].
    destruct (notCont (b2z c2)) eqn:Hr2; [intros; eapply Hone; eassumption|].
    apply notCont_false in Hr2.
    destruct (sz <=? 3)%nat.
    { intros Heq _. inversion Heq; subst. cbn [take]. rewrite take_0.
      repeat constructor; apply isUpper_high; lia. }
    destruct rest2 as [|c3 rest3]; [intros; eapply Hone; eassumption|].
    destruct (notCont (b2z c3)) eqn:Hr3; [intros; eapply Hone; eassumption|].
    apply notCont_false in Hr3.
    intros Heq _. inversion Heq; subst. cbn [take]. rewrite take_0.
    repeat constructor; apply isUpper_high; lia.
Qed.

Lemma nonAlnum_fixed (p : Text) (r : Z) (size : nat) :
  DecodeRune p = (r, size) ->
  (size <=? 2)%nat && (IsLetter r || IsNumber r) = false ->
  toLower (take size p) = take size p.
Proof. intros He Hc. apply toLower_fixed. eapply nonAlnum_noUpper; eassumption. Qed.

End Lowering.

Lemma upper_notCont (c : byte) :
  isUpper c = true ->
  notCont (b2z c) = true /\ notCont (b2z (toLowerByte c)) = true.
Proof.
  intros Hu. rewrite toLowerByte_b2z, Hu. apply isUpper_range in Hu.
  unfold notCont. split; apply orb_true_iff; left; lia.
Qed.

Lemma upper_outside (c : byte) (lo hi : Z) :
  isUpper c = true -> 0x80 <= lo ->
  (b2z c <? lo) || (hi <? b2z c) = true
  /\ (b2z (toLowerByte c) <? lo) || (hi <? b2z (toLowerByte c)) = true.
Proof.
  intros Hu Hlo. rewrite toLowerByte_b2z, Hu. apply isUpper_range in Hu.
  split; apply orb_true_iff; left; lia.
Qed.

Section LoweringDecoder.
Context `{GoStdlib}.

Lemma runeClass_toLower (p : Text) : runeClass (toLower p) = runeClass p.
Proof.
  destruct p as [|c0 rest]; [reflexivity|].
  unfold runeClass, toLower. cbn [fmap list_fmap].
  destruct (isUpper c0) eqn:Hu0.
  { pose proof (toLowerByte_b2z c0) as Hb. rewrite Hu0 in Hb.
    apply isUpper_range in Hu0.
    unfold DecodeRune.
    assert (Hf : first (b2z c0) = AS) by (apply first_AS; lia).
    assert (Hf' : first (b2z (toLowerByte c0)) = AS) by (apply first_AS; lia).
    rewrite Hf, Hf'.
    rewrite (asciiUpper_letter (b2z c0)) by lia.
    rewrite (asciiLower_letter (b2z (toLowerByte c0))) by lia.
    reflexivity. }
  rewrite (toLowerByte_fixed c0 Hu0).
  unfold DecodeRune.
  destruct (first (b2z c0)) as [| |sz lo hi] eqn:Hf; [reflexivity..|].
  apply first_Lead in Hf. destruct Hf as (_ & Hlo & _).
  cbn [length]. rewrite length_fmap.
  destruct (S (length rest) <? sz)%nat; [reflexivity|].
  destruct rest as [|c1 rest1]; [reflexivity|]. cbn [fmap list_fmap].
  destruct (isUpper c1) eqn:Hu1.
  { destruct (upper_outside c1 lo hi Hu1 Hlo) as [-> ->]. reflexivity. }
  rewrite (toLowerByte_fixed c1 Hu1).
  destruct ((b2z c1 <? lo) || (hi <? b2z c1)); [reflexivity|].
  destruct (sz <=? 2)%nat; [reflexivity|].
  destruct rest1 as [|c2 rest2]; [reflexivity|]. cbn [fmap list_fmap].
  destruct (isUpper c2) eqn:Hu2.
  { destruct (upper_notCont c2 Hu2) as [-> ->]. reflexivity. }
  rewrite (toLowerByte_fixed c2 Hu2).
  destruct (notCont (b2z c2)); [reflexivity|].
  destruct (sz <=? 3)%nat; [reflexivity|].
  destruct rest2 as [|c3 rest3]; [reflexivity|]. cbn [fmap list_fmap].
  destruct (isUpper c3) eqn:Hu3.
  { destruct (upper_notCont c3 Hu3) as [-> ->]. reflexivity. }
  rewrite (toLowerByte_fixed c3 Hu3). reflexivity.
Qed.

Lemma slice_toLower (text : Text) (lo hi : nat) :
  slice (toLower text) lo hi = (r ← slice text lo hi; Ok (toLower r)).
Proof.
  unfold slice. rewrite length_toLower.
  destruct ((lo <=? hi)%nat && (hi <=? length text)%nat); [|reflexivity].
  cbn. unfold toLower. rewrite fmap_take, fmap_drop. reflexivity.
Qed.

Lemma flushRun_toLower text output current inA start :
  flushRun (toLower text) output current inA start
  = flushRun text output current inA start.
Proof.
  unfold flushRun. destruct inA; [|reflexivity].
  destruct (negb (current =? 0)%nat); [|reflexivity].
  rewrite slice_toLower.
  destruct (slice text start current); cbn; try reflexivity.
  rewrite toLower_idem. reflexivity.
Qed.

Lemma splitLoop_toLower fuel : forall text output current inA start,
  splitLoop fuel (toLower text) output current inA start
  = splitLoop fuel text output current inA start.
Proof.
  induction fuel as [|fuel IH]; intros text output current inA start.
  - cbn [splitLoop]. rewrite length_toLower, flushRun_toLower. reflexivity.
  - cbn [splitLoop]. rewrite length_toLower, flushRun_toLower.
    destruct (Nat.ltb_spec current (length text)) as [Hlt|Hge]; [|reflexivity].
    pose proof (runeClass_toLower (drop current text)) as Hcls.
    unfold runeClass in Hcls.
    replace (drop current (toLower text)) with (toLower (drop current text))
      by (unfold toLower; apply fmap_drop).
    destruct (DecodeRune (toLower (drop current text))) as [r' size'].
    destruct (DecodeRune (drop current text)) as [r size] eqn:He.
    injection Hcls as Hc Hs. subst size'. rewrite Hc.
    destruct ((size <=? 2)%nat && (IsLetter r || IsNumber r)) eqn:Hcl.
    + destruct (negb inA); apply IH.
    + destruct (flushRun text output current inA start) as [out1| |];
        cbn; try reflexivity.
      rewrite slice_toLower.
      destruct (DecodeRune_drop_size _ _ _ _ Hlt He) as [Hs1 Hs2].
      rewrite slice_ok by lia. cbn.
      replace (current + size - current)%nat with size by lia.
      rewrite (nonAlnum_fixed _ _ _ He Hcl). apply IH.
Qed.

Lemma take_drop_glue {A} (l : list A) (a b c : nat) :
  (a <= b)%nat -> (b <= c)%nat ->
  take (b - a) (drop a l) ++ take (c - b) (drop b l) = take (c - a) (drop a l).
Proof.
  intros Hab Hbc.
  replace (drop b l) with (drop (b - a) (drop a l))
    by (rewrite drop_drop; f_equal; lia).
  rewrite take_take_drop. f_equal. lia.
Qed.

Lemma toLower_app (a b : Text) : toLower (a ++ b) = toLower a ++ toLower b.
Proof. unfold toLower. apply fmap_app. Qed.

Lemma flushRun_concat text output current inA start out1 :
  (inA = true -> (start <= current)%nat) ->
  concat output
    ++ (if inA then toLower (take (current - start) (drop start text)) else [])
  = toLower (take current text) ->
  flushRun text output current inA start = Ok out1 ->
  concat out1 = toLower (take current text).
Proof.
  intros Hrun Hcat. unfold flushRun. destruct inA.
  - specialize (Hrun eq_refl).
    destruct (Nat.eqb_spec current 0) as [->|Hne]; cbn.
    + intros [= <-]. cbn in Hcat. rewrite take_0 in Hcat.
      rewrite app_nil_r in Hcat. rewrite take_0. exact Hcat.
    + unfold slice.
      destruct ((start <=? current)%nat && (current <=? length text)%nat);
        cbn; [|discriminate].
      intros [= <-]. rewrite concat_app. cbn. rewrite app_nil_r. exact Hcat.
  - intros [= <-]. rewrite app_nil_r in Hcat. exact Hcat.
Qed.

Lemma splitLoop_concat fuel : forall text output current inA start units,
  (current <= length text)%nat ->
  (inA = true -> (start <= current)%nat) ->
  concat output
    ++ (if inA then toLower (take (current - start) (drop start text)) else [])
  = toLower (take current text) ->
  splitLoop fuel text output current inA start = Ok units ->
  concat units = toLower text.
Proof.
  assert (Hend : forall text output current inA start units,
    (length text <= current)%nat ->
    (inA = true -> (start <= current)%nat) ->
    concat output
      ++ (if inA then toLower (take (current - start) (drop start text)) else [])
    = toLower (take current text) ->
    flushRun text output current inA start = Ok units ->
    concat units = toLower text).
  { intros text output current inA start units Hge Hrun Hcat Hfl.
    rewrite (flushRun_concat _ _ _ _ _ _ Hrun Hcat Hfl).
    rewrite take_ge by lia. reflexivity. }
  induction fuel as [|fuel IH];
    intros text output current inA start units Hcur Hrun Hcat; cbn [splitLoop];
    destruct (Nat.ltb_spec current (length text)) as [Hlt|Hge];
    try discriminate; try (apply Hend; assumption).
  destruct (DecodeRune (drop current text)) as [r size] eqn:He.
  destruct (DecodeRune_drop_size _ _ _ _ Hlt He) as [Hs1 Hs2].
  assert (Hnext : toLower (take (current + size) text)
            = toLower (take current text)
              ++ toLower (take size (drop current text))).
  { rewrite <- toLower_app, take_take_drop. reflexivity. }
  destruct ((size <=? 2)%nat && (IsLetter r || IsNumber r)) eqn:Hcl.
  - destruct inA; cbn [negb].
    + specialize (Hrun eq_refl). apply IH; [lia|lia|].
      rewrite <- (take_drop_glue text start current (current + size)) by lia.
      rewrite toLower_app, app_assoc, Hcat, Hnext.
      do 3 f_equal. lia.
    + apply IH; [lia|lia|]. rewrite app_nil_r in Hcat.
      rewrite Hcat, Hnext. do 3 f_equal. lia.
  - destruct (flushRun text output current inA start) as [out1| |] eqn:Hfl;
      cbn; try discriminate.
    rewrite slice_ok by lia. cbn.
    apply IH; [lia|discriminate|].
    rewrite app_nil_r, concat_app. cbn. rewrite app_nil_r.
    rewrite (flushRun_concat _ _ _ _ _ _ Hrun Hcat Hfl), Hnext.
    replace (current + size - current)%nat with size by lia.
    rewrite (nonAlnum_fixed _ _ _ He Hcl). reflexivity.
Qed.

Lemma splitTextToWords_ok (text : Text) :
  exists units,
    splitTextToWords text = Ok units
    /\ textSliceByteLength units = length text
    /\ unitBoundaries text units.
Proof.
  unfold splitTextToWords. apply splitLoop_cover; [|lia].
  constructor.
  - lia.
  - apply rb_start.
  - intros _. split; [lia|apply rb_start].
  - reflexivity.
  - apply unitBoundaries_nil.
Qed.

Lemma splitTextToWords_concat (text : Text) (units : list Text) :
  splitTextToWords text = Ok units -> concat units = toLower text.
Proof.
  unfold splitTextToWords. intros Hsplit.
  eapply splitLoop_concat; [| | |exact Hsplit].
  - lia.
  - intros _. lia.
  - reflexivity.
Qed.

Lemma splitTextToWords_toLower (text : Text) :
  splitTextToWords (toLower text) = splitTextToWords text.
Proof.
  unfold splitTextToWords. rewrite length_toLower. apply splitLoop_toLower.
Qed.

End LoweringDecoder.

(** ** Indexing *)

Lemma index_ok {A} (l : list A) (i : nat) (a : A) :
  l !! i = Some a -> index l (Z.of_nat i) = Ok a.
Proof.
  intros Hl. pose proof (lookup_lt_Some _ _ _ Hl) as Hlt. unfold index.
  destruct (Z.leb_spec 0 (Z.of_nat i)); [|lia].
  destruct (Z.ltb_spec (Z.of_nat i) (Z.of_nat (length l))); [|lia].
  cbn. rewrite Nat2Z.id, Hl. reflexivity.
Qed.

Lemma index_Ok_inv {A} (l : list A) (i : Z) (a : A) :
  index l i = Ok a -> 0 <= i /\ l !! Z.to_nat i = Some a.
Proof.
  unfold index. destruct (Z.leb_spec 0 i); [|discriminate].
  destruct (Z.ltb_spec i (Z.of_nat (length l))); [|discriminate].
  cbn. destruct (l !! Z.to_nat i); [|discriminate].
  intros [= ->]. split; [lia|reflexivity].
Qed.

Lemma store_ok {A} (l : list A) (i : nat) (a : A) :
  (i < length l)%nat -> store l (Z.of_nat i) a = Ok (<[i := a]> l).
Proof.
  intros Hlt. unfold store.
  destruct (Z.leb_spec 0 (Z.of_nat i)); [|lia].
  destruct (Z.ltb_spec (Z.of_nat i) (Z.of_nat (length l))); [|lia].
  cbn. rewrite Nat2Z.id. reflexivity.
Qed.

(** ** The lookup *)

Lemma elem_of_tokensWithText dict words tok :
  tok ∈ tokensWithText dict words <->
  exists i t, tok = DictTok i /\ Dictionary.tokens dict !! i = Some t
              /\ Token.text t = words.
Proof.
  unfold tokensWithText. rewrite list_elem_of_omap. split.
  - intros ([i t] & Hin & Hsome).
    apply elem_of_lookup_imap in Hin. destruct Hin as (i' & t' & Heq & Hl).
    inversion Heq; subst. cbn in Hsome.
    destruct (decide (Token.text t' = words)); [|discriminate].
    injection Hsome as <-. eauto.
  - intros (i & t & -> & Hl & Ht). exists (i, t). split.
    + apply elem_of_lookup_imap. eauto.
    + cbn. rewrite decide_True by assumption. reflexivity.
Qed.

Lemma elem_of_lookupTokens dict words tok :
  tok ∈ lookupTokens dict words <->
  exists i t k, tok = DictTok i /\ Dictionary.tokens dict !! i = Some t
    /\ (k <= length words)%nat /\ Token.text t = take k words.
Proof.
  unfold lookupTokens. rewrite list_elem_of_In, in_flat_map. split.
  - intros (k & Hk & Hin). apply in_seq in Hk.
    apply list_elem_of_In, elem_of_tokensWithText in Hin.
    destruct Hin as (i & t & -> & Hl & Ht). exists i, t, k.
    repeat split; try assumption; lia.
  - intros (i & t & k & -> & Hl & Hk & Ht). exists k. split.
    + apply in_seq. lia.
    + apply list_elem_of_In, elem_of_tokensWithText. eauto.
Qed.

Lemma noEmptyToken_lookup dict i t :
  noEmptyToken dict = true -> Dictionary.tokens dict !! i = Some t ->
  (1 <= length (Token.text t))%nat.
Proof.
  unfold noEmptyToken. rewrite forallb_forall. intros Hall Hl.
  assert (Hin : In t (Dictionary.tokens dict)).
  { apply list_elem_of_In, list_elem_of_lookup. eauto. }
  specialize (Hall t Hin). destruct (Nat.eqb_spec (length (Token.text t)) 0);
    [discriminate|lia].
Qed.

(** What a token found at position [current] looks like. *)
Lemma tokensAt_found dict text current toks tok :
  (current < length text)%nat ->
  tokensAt dict text current = Ok toks -> tok ∈ toks ->
  exists i t, tok = DictTok i /\ Dictionary.tokens dict !! i = Some t
    /\ (current + length (Token.text t) <= length text)%nat
    /\ take (length (Token.text t)) (drop current text) = Token.text t.
Proof.
  intros Hc. unfold tokensAt, slice, minInt.
  set (m := if (_ <? _)%nat then _ else _).
  assert (Hm : (current <= m <= length text)%nat).
  { subst m. destruct (Nat.ltb_spec (length text)
      (current + Dictionary.maxTokenLength dict)); lia. }
  destruct (Nat.leb_spec current m); [|lia].
  destruct (Nat.leb_spec m (length text)); [|lia]. cbn.
  intros [= <-] Hin. apply elem_of_lookupTokens in Hin.
  destruct Hin as (i & t & k & -> & Hl & Hk & Ht).
  rewrite length_take, length_drop in Hk.
  assert (Hlen : length (Token.text t) = k).
  { rewrite Ht, length_take, length_take, length_drop. lia. }
  exists i, t. repeat split; try assumption; [lia|].
  rewrite Hlen, Ht, take_take. f_equal. lia.
Qed.

Lemma tokensAt_ok dict text current :
  (current < length text)%nat ->
  exists toks, tokensAt dict text current = Ok toks.
Proof.
  intros Hc. unfold tokensAt, minInt.
  rewrite slice_ok; [cbn; eauto| |];
    destruct (Nat.ltb_spec (length text)
      (current + Dictionary.maxTokenLength dict)); lia.
Qed.

(** ** The calls of [updateJumper] in one step

    The tests that decide which calls a step makes read the text and the
    dictionary only, never the cells; the calls of a step are therefore a
    list that can be told beforehand, and the step applies them in order
    ([forwardStep_calls]). *)

Lemma bind_swap {A B C} (a : result A) (b : result B)
    (k : A -> B -> result C) :
  fuelFree a -> fuelFree b ->
  (x ← a; y ← b; k x y) = (y ← b; x ← a; k x y).
Proof. unfold fuelFree. destruct a, b; intros Ha Hb; try reflexivity; congruence. Qed.

Lemma bind_assoc {A B C} (a : result A) (f : A -> result B)
    (g : B -> result C) :
  (y ← (x ← a; f x); g y) = (x ← a; y ← f x; g y).
Proof. destruct a; reflexivity. Qed.

Lemma bind_fuelFree {A B} (a : result A) (f : A -> result B) :
  fuelFree a -> (forall x, fuelFree (f x)) -> fuelFree (x ← a; f x).
Proof. unfold fuelFree. destruct a; rstep; auto; discriminate. Qed.

Lemma index_fuelFree {A} (l : list A) (i : Z) : fuelFree (index l i).
Proof.
  unfold fuelFree, index. destruct (_ && _); [|discriminate].
  destruct (l !! Z.to_nat i); discriminate.
Qed.

Lemma store_fuelFree {A} (l : list A) (i : Z) (a : A) : fuelFree (store l i a).
Proof. unfold fuelFree, store. destruct (_ && _); discriminate. Qed.

Lemma deref_fuelFree dict p : fuelFree (deref dict p).
Proof.
  unfold fuelFree, deref. destruct p as [[i|u]|]; try discriminate.
  destruct (Dictionary.tokens dict !! i); discriminate.
Qed.

Lemma updateJumper_fuelFree dict j b tok : fuelFree (updateJumper dict j b tok).
Proof.
  unfold updateJumper. apply bind_fuelFree; [apply deref_fuelFree|].
  intros t. destruct (_ || _); discriminate.
Qed.

Lemma updateAt_fuelFree dict b jumpers call :
  fuelFree (updateAt dict b jumpers call).
Proof.
  unfold updateAt. apply bind_fuelFree; [apply index_fuelFree|]. intros j.
  apply bind_fuelFree; [apply updateJumper_fuelFree|]. intros j'.
  apply store_fuelFree.
Qed.

Lemma updateAll_fuelFree dict b : forall calls jumpers,
  fuelFree (foldM (updateAt dict b) jumpers calls).
Proof.
  induction calls as [|call calls IH]; intros jumpers; [discriminate|].
  cbn [foldM]. apply bind_fuelFree; [apply updateAt_fuelFree|]. apply IH.
Qed.

Lemma matchCalls_fuelFree dict len searchMode current : forall toks,
  fuelFree (matchCalls dict len searchMode current toks).
Proof.
  induction toks as [|tok toks IH]; [discriminate|]. cbn [matchCalls].
  apply bind_fuelFree; [apply deref_fuelFree|]. intros t.
  apply bind_fuelFree; [apply IH|]. intros calls.
  destruct (updates _ _ _ _); discriminate.
Qed.

Lemma pseudoCall_fuelFree dict text current toks :
  fuelFree (pseudoCall dict text current toks).
Proof.
  unfold pseudoCall. apply bind_fuelFree.
  - destruct toks as [|tok0 rest]; [discriminate|].
    apply bind_fuelFree; [apply deref_fuelFree|]. discriminate.
  - intros [|]; [|discriminate].
    apply bind_fuelFree; [apply index_fuelFree|]. discriminate.
Qed.

Lemma foldM_app {A B} (f : A -> B -> result A) : forall l1 l2 a,
  foldM f a (l1 ++ l2) = (a' ← foldM f a l1; foldM f a' l2).
Proof.
  induction l1 as [|b l1 IH]; intros l2 a; [reflexivity|].
  cbn [foldM app]. rewrite bind_assoc. destruct (f a b); rstep; auto.
Qed.

(** The loop over the tokens found makes the calls of [matchCalls]. *)
Lemma updateMatches_calls dict len searchMode current b : forall toks jumpers,
  updateMatches dict len searchMode current b toks jumpers
  = (calls ← matchCalls dict len searchMode current toks;
     foldM (updateAt dict b) jumpers calls).
Proof.
  induction toks as [|tok toks IH]; intros jumpers; [reflexivity|].
  cbn [updateMatches matchCalls].
  destruct (deref dict (Some tok)) as [t| |]; rstep; try reflexivity.
  set (location := Z.of_nat current + Z.of_nat (length (Token.text t)) - 1).
  pose proof (matchCalls_fuelFree dict len searchMode current toks) as Hfm.
  pose proof (updateAt_fuelFree dict b jumpers (location, tok)) as Hfu.
  unfold fuelFree in Hfm, Hfu.
  destruct (updates len searchMode current location).
  - destruct (matchCalls dict len searchMode current toks) as [calls| |] eqn:Hm;
      [| |congruence]; rstep; cbn [foldM];
      (destruct (updateAt dict b jumpers (location, tok)) as [j'| |];
       [|reflexivity|congruence]); rstep; rewrite IH; reflexivity.
  - rstep. rewrite IH.
    destruct (matchCalls dict len searchMode current toks); reflexivity.
Qed.

(** The last test of a step makes the call of [pseudoCall]. *)
Lemma addPseudoToken_calls dict text current b toks jumpers :
  addPseudoToken dict text current b toks jumpers
  = (calls ← pseudoCall dict text current toks;
     foldM (updateAt dict b) jumpers calls).
Proof.
  unfold addPseudoToken, pseudoCall. rewrite bind_assoc.
  destruct (match toks with
            | [] => Ok true
            | tok0 :: _ => _
            end) as [[|]| |]; rstep; try reflexivity.
  rewrite bind_assoc.
  destruct (index text (Z.of_nat current)) as [u| |]; rstep; try reflexivity.
  cbn [foldM].
  destruct (updateAt dict b jumpers (Z.of_nat current, PseudoTok u));
    reflexivity.
Qed.

(** A step applies the calls of [callsAt], in order, to the cells. *)
Lemma forwardStep_calls dict text searchMode jumpers current :
  forwardStep dict text searchMode jumpers current
  = (b ← baseDistanceAt jumpers current;
     calls ← callsAt dict text searchMode current;
     foldM (updateAt dict b) jumpers calls).
Proof.
  unfold forwardStep, callsAt.
  destruct (baseDistanceAt jumpers current) as [b| |]; rstep; try reflexivity.
  rewrite bind_assoc.
  destruct (tokensAt dict text current) as [toks| |]; rstep; try reflexivity.
  rewrite updateMatches_calls, !bind_assoc.
  destruct (matchCalls dict (length text) searchMode current toks)
    as [real| |]; rstep; try reflexivity.
  rewrite bind_assoc.
  pose proof (updateAll_fuelFree dict b real jumpers) as Hfr.
  pose proof (pseudoCall_fuelFree dict text current toks) as Hfp.
  unfold fuelFree in Hfr, Hfp.
  destruct (pseudoCall dict text current toks) as [pseudo| |] eqn:Hp;
    [| |congruence]; rstep; try rewrite foldM_app;
    (destruct (foldM (updateAt dict b) jumpers real) as [js| |];
     [|reflexivity|congruence]); rstep;
    rewrite addPseudoToken_calls, Hp; reflexivity.
Qed.

Lemma updates_spec len searchMode current location :
  updates len searchMode current location = false <->
  searchMode = true /\ current = 0%nat /\ location = Z.of_nat len - 1.
Proof.
  unfold updates.
  destruct searchMode, (Nat.eqb_spec current 0),
    (Z.eqb_spec location (Z.of_nat len - 1)); cbn;
    split; try discriminate; try tauto; intros (? & ? & ?);
    try discriminate; contradiction.
Qed.

Lemma matchCalls_spec dict len searchMode current : forall toks,
  (forall tok, tok ∈ toks -> exists t, deref dict (Some tok) = Ok t) ->
  exists calls,
    matchCalls dict len searchMode current toks = Ok calls
    /\ forall location tok,
         (location, tok) ∈ calls <->
         tok ∈ toks
         /\ exists t, deref dict (Some tok) = Ok t
            /\ location
               = Z.of_nat current + Z.of_nat (length (Token.text t)) - 1
            /\ updates len searchMode current location = true.
Proof.
  induction toks as [|tok0 rest IH]; intros Hd.
  - exists []. split; [reflexivity|]. intros location tok. split.
    + intros Hin. inversion Hin.
    + intros (Hin & _). inversion Hin.
  - destruct (Hd tok0) as (t0 & Ht0); [left|].
    destruct IH as (calls & Hcalls & Hspec).
    { intros tok Hin. apply Hd. right. assumption. }
    cbn [matchCalls]. rewrite Ht0. cbn. rewrite Hcalls. cbn.
    set (loc0 := Z.of_nat current + Z.of_nat (length (Token.text t0)) - 1).
    destruct (updates len searchMode current loc0) eqn:Hu.
    + eexists. split; [reflexivity|]. intros location tok.
      rewrite !elem_of_cons, Hspec. split.
      * intros [Heq|(Hin & Hex)].
        -- inversion Heq; subst. split; [left; reflexivity|]. exists t0. auto.
        -- split; [right; assumption|assumption].
      * intros ([Heq|Hin] & t & Ht & Hloc & Hupd).
        -- left. subst tok.
           assert (Ht' : Ok t0 = Ok t) by (rewrite <- Ht0; exact Ht).
           injection Ht' as <-. subst loc0. rewrite Hloc. reflexivity.
        -- right. split; [assumption|]. exists t. auto.
    + exists calls. split; [reflexivity|]. intros location tok.
      rewrite elem_of_cons, Hspec. split.
      * intros (Hin & Hex). split; [right; assumption|assumption].
      * intros ([Heq|Hin] & t & Ht & Hloc & Hupd).
        -- subst tok.
           assert (Ht' : Ok t0 = Ok t) by (rewrite <- Ht0; exact Ht).
           injection Ht' as <-. subst loc0. rewrite <- Hloc in Hu. congruence.
        -- split; [assumption|]. exists t. auto.
Qed.

Lemma pseudoCall_spec dict text current toks u :
  (forall tok, tok ∈ toks -> exists t, deref dict (Some tok) = Ok t) ->
  text !! current = Some u ->
  pseudoCall dict text current toks
  = Ok (if addsPseudo dict toks then [(Z.of_nat current, PseudoTok u)]
        else []).
Proof.
  intros Hd Hu. unfold pseudoCall, addsPseudo.
  destruct toks as [|tok0 rest].
  - cbn. rewrite (index_ok _ _ _ Hu). reflexivity.
  - destruct (Hd tok0) as (t0 & ->); [left|]. cbn [mbind result_bind].
    destruct (1 <? length (Token.text t0))%nat; [|reflexivity].
    rewrite (index_ok _ _ _ Hu). reflexivity.
Qed.

Lemma drop_lookup_head {A} (l : list A) (i : nat) (a : A) :
  l !! i = Some a -> take 1 (drop i l) = [a].
Proof.
  intros Hl. rewrite (drop_S _ _ _ Hl). reflexivity.
Qed.

Section Calls.
Variable dict : Dictionary.t.
Variable text : list Text.
Variable searchMode : bool.
Hypothesis Hwf : noEmptyToken dict = true.
Hypothesis Hmode : searchMode = true -> length text <> 1%nat.

Lemma found_deref current toks :
  (current < length text)%nat ->
  tokensAt dict text current = Ok toks ->
  forall tok, tok ∈ toks -> exists t, deref dict (Some tok) = Ok t.
Proof.
  intros Hc Ht tok Hin.
  destruct (tokensAt_found _ _ _ _ _ Hc Ht Hin) as (i & t & -> & Hl & _).
  exists t. cbn. rewrite Hl. reflexivity.
Qed.

Lemma pseudo_GoodCall current u :
  text !! current = Some u ->
  GoodCall dict text searchMode (Z.of_nat current, PseudoTok u).
Proof.
  intros Hu. pose proof (lookup_lt_Some _ _ _ Hu) as Hlt.
  split; cbn [fst snd]; [lia|]. rewrite Nat2Z.id.
  exists (pseudoToken u). cbn. repeat split; try lia.
  - replace (current + 1 - 1)%nat with current by lia.
    apply drop_lookup_head. assumption.
  - intros Hs. specialize (Hmode Hs). lia.
Qed.

Lemma match_GoodCall current toks tok t location :
  (current < length text)%nat ->
  tokensAt dict text current = Ok toks -> tok ∈ toks ->
  deref dict (Some tok) = Ok t ->
  location = Z.of_nat current + Z.of_nat (length (Token.text t)) - 1 ->
  updates (length text) searchMode current location = true ->
  GoodCall dict text searchMode (location, tok).
Proof.
  intros Hc Ht Hin Hd Hloc Hupd.
  destruct (tokensAt_found _ _ _ _ _ Hc Ht Hin) as (i & t' & -> & Hl & Hlen & Htxt).
  cbn in Hd. rewrite Hl in Hd. injection Hd as <-.
  pose proof (noEmptyToken_lookup _ _ _ Hwf Hl) as Hne.
  split; cbn [fst snd]; [lia|].
  exists t'. split; [cbn; rewrite Hl; reflexivity|].
  replace (Z.to_nat location)
    with (current + length (Token.text t') - 1)%nat by lia.
  split; [lia|]. split.
  - replace (current + length (Token.text t') - 1 + 1
             - length (Token.text t'))%nat with current by lia.
    assumption.
  - intros Hs. destruct (decide (length (Token.text t') < length text)%nat)
      as [|Hge]; [assumption|]. exfalso.
    assert (Hf : updates (length text) searchMode current location = false).
    { apply updates_spec. repeat split; [assumption|lia|lia]. }
    congruence.
Qed.

Lemma callsAt_ok current :
  (current < length text)%nat ->
  exists calls,
    callsAt dict text searchMode current = Ok calls
    /\ Forall (GoodCall dict text searchMode) calls
    /\ exists tok, (Z.of_nat current, tok) ∈ calls.
Proof.
  intros Hc. destruct (tokensAt_ok dict text current Hc) as (toks & Ht).
  pose proof (found_deref _ _ Hc Ht) as Hd.
  destruct (matchCalls_spec dict (length text) searchMode current toks Hd)
    as (real & Hreal & Hspec).
  destruct (lookup_lt_is_Some_2 text current Hc) as (u & Hu).
  unfold callsAt. rewrite Ht. cbn. rewrite Hreal. cbn.
  rewrite (pseudoCall_spec _ _ _ _ _ Hd Hu). cbn.
  eexists. split; [reflexivity|]. split.
  - apply Forall_app. split.
    + apply List.Forall_forall. intros [location tok] Hin.
      rewrite <- list_elem_of_In in Hin. apply Hspec in Hin. destruct Hin as (Hin & t & Hdt & Hloc & Hupd).
      eapply match_GoodCall; eassumption.
    + destruct (addsPseudo dict toks); [|constructor].
      constructor; [|constructor]. apply pseudo_GoodCall. assumption.
  - destruct (addsPseudo dict toks) eqn:Hp.
    { exists (PseudoTok u). apply elem_of_app. right. left. }
    unfold addsPseudo in Hp. destruct toks as [|tok0 rest]; [discriminate|].
    destruct (Hd tok0) as (t0 & Ht0); [left|]. rewrite Ht0 in Hp.
    destruct (tokensAt_found _ _ _ _ tok0 Hc Ht) as (i & t' & -> & Hl & _);
      [left|].
    assert (Heq : t' = t0) by (cbn in Ht0; rewrite Hl in Ht0; congruence).
    subst t'. pose proof (noEmptyToken_lookup _ _ _ Hwf Hl) as Hne.
    destruct (Nat.ltb_spec 1 (length (Token.text t0))); [discriminate|].
    exists (DictTok i). apply elem_of_app. left. apply Hspec.
    split; [left|]. exists t0. split; [assumption|]. split; [lia|].
    destruct (updates (length text) searchMode current (Z.of_nat current))
      eqn:Hupd; [reflexivity|].
    apply updates_spec in Hupd. destruct Hupd as (Hs & Hz & Hlast).
    specialize (Hmode Hs). lia.
Qed.

End Calls.

Lemma updateJumper_ok dict j baseDistance tok t :
  deref dict (Some tok) = Ok t ->
  exists j',
    updateJumper dict j baseDistance tok = Ok j'
    /\ (j' = j \/ token j' = Some tok)
    /\ (minDistance j = S754_zero false -> token j' = Some tok).
Proof.
  intros Hd. unfold updateJumper. rewrite Hd. rstep.
  destruct (f32_eqb (minDistance j) (S754_zero false)
            || f32_gtb (minDistance j) (f32_add baseDistance (Token.distance t)))
    eqn:Hc.
  - eexists. split; [reflexivity|]. split; [right; reflexivity|reflexivity].
  - exists j. split; [reflexivity|]. split; [left; reflexivity|].
    intros Hz. rewrite Hz in Hc. cbn in Hc. discriminate.
Qed.

Section Forward.
Variable dict : Dictionary.t.
Variable text : list Text.
Variable searchMode : bool.
Hypothesis Hwf : noEmptyToken dict = true.
Hypothesis Hmode : searchMode = true -> length text <> 1%nat.

Lemma updateAt_ok baseDistance jumpers call :
  Cells dict text searchMode jumpers ->
  GoodCall dict text searchMode call ->
  exists jumpers',
    updateAt dict baseDistance jumpers call = Ok jumpers'
    /\ Cells dict text searchMode jumpers'
    /\ (forall i, filled jumpers i -> filled jumpers' i)
    /\ filled jumpers' (Z.to_nat call.1).
Proof.
  intros [Hlen Hcells] [Hrange Hgood]. destruct call as [location tok].
  cbn [fst snd] in *. set (i := Z.to_nat location) in *.
  assert (Hloc : location = Z.of_nat i) by lia.
  assert (Hi : (i < length jumpers)%nat) by lia.
  destruct (lookup_lt_is_Some_2 jumpers i Hi) as (j & Hj).
  pose proof Hgood as (t & Hd & _).
  destruct (updateJumper_ok dict j baseDistance tok t Hd)
    as (j' & Hupd & Hcase & Hzero).
  unfold updateAt. cbn [fst snd]. rewrite Hloc, (index_ok _ _ _ Hj). rstep.
  rewrite Hupd. rstep. rewrite store_ok by assumption.
  eexists. split; [reflexivity|].
  assert (Hj' : CellOk dict text searchMode i j').
  { destruct Hcase as [->|Htok]; [apply Hcells; assumption|].
    unfold CellOk. rewrite Htok. assumption. }
  assert (Hfill : exists tok', token j' = Some tok').
  { destruct Hcase as [->|Htok]; [|eauto].
    destruct (token j) as [tok'|] eqn:Htj; [eauto|].
    specialize (Hcells i j Hj). unfold CellOk in Hcells.
    rewrite Htj in Hcells. rewrite (Hzero Hcells). eauto. }
  split; [|split].
  - split; [rewrite length_insert; assumption|].
    intros i' j'' Hl. destruct (decide (i = i')) as [<-|Hne].
    + rewrite list_lookup_insert_eq in Hl by assumption.
      injection Hl as <-. assumption.
    + rewrite list_lookup_insert_ne in Hl by assumption.
      apply Hcells. assumption.
  - intros i' (j0 & tok0 & Hl & Ht). destruct (decide (i = i')) as [<-|Hne].
    + destruct Hfill as (tok' & Htok'). exists j', tok'.
      rewrite list_lookup_insert_eq by assumption. auto.
    + exists j0, tok0. rewrite list_lookup_insert_ne by assumption. auto.
  - destruct Hfill as (tok' & Htok'). exists j', tok'.
    rewrite list_lookup_insert_eq by assumption. auto.
Qed.

Lemma updateAll_ok baseDistance : forall calls jumpers,
  Cells dict text searchMode jumpers ->
  Forall (GoodCall dict text searchMode) calls ->
  exists jumpers',
    foldM (updateAt dict baseDistance) jumpers calls = Ok jumpers'
    /\ Cells dict text searchMode jumpers'
    /\ (forall i, filled jumpers i -> filled jumpers' i)
    /\ (forall call, call ∈ calls -> filled jumpers' (Z.to_nat call.1)).
Proof.
  induction calls as [|call calls IH]; intros jumpers Hcells Hgood.
  - exists jumpers. split; [reflexivity|]. split; [assumption|].
    split; [auto|]. intros call Hin. inversion Hin.
  - inversion Hgood as [|? ? Hcall Hrest]; subst.
    destruct (updateAt_ok baseDistance jumpers call Hcells Hcall)
      as (js1 & Hupd & Hcells1 & Hmono1 & Hhit1).
    destruct (IH js1 Hcells1 Hrest) as (js2 & Hfold & Hcells2 & Hmono2 & Hhit2).
    exists js2. cbn [foldM]. rewrite Hupd. rstep.
    split; [assumption|]. split; [assumption|]. split; [auto|].
    intros call' Hin. apply elem_of_cons in Hin.
    destruct Hin as [->|Hin]; [apply Hmono2; assumption|apply Hhit2; assumption].
Qed.

Lemma forwardStep_ok jumpers current :
  (current < length text)%nat ->
  Cells dict text searchMode jumpers ->
  (forall i, (i < current)%nat -> filled jumpers i) ->
  exists jumpers',
    forwardStep dict text searchMode jumpers current = Ok jumpers'
    /\ Cells dict text searchMode jumpers'
    /\ (forall i, (i < S current)%nat -> filled jumpers' i).
Proof.
  intros Hc Hcells Hfilled.
  destruct (callsAt_ok dict text searchMode Hwf Hmode current Hc)
    as (calls & Hcalls & Hgood & tok & Hhit).
  assert (Hfin : forall b, exists jumpers',
    foldM (updateAt dict b) jumpers calls = Ok jumpers'
    /\ Cells dict text searchMode jumpers'
    /\ (forall i, (i < S current)%nat -> filled jumpers' i)).
  { intros b. destruct (updateAll_ok b calls jumpers Hcells Hgood)
      as (js' & Hfold & Hcells' & Hmono & Hhits).
    exists js'. split; [assumption|]. split; [assumption|].
    intros i Hi. destruct (decide (i = current)) as [->|Hne].
    - specialize (Hhits _ Hhit). cbn [fst] in Hhits.
      rewrite Nat2Z.id in Hhits. assumption.
    - apply Hmono, Hfilled. lia. }
  rewrite forwardStep_calls. unfold baseDistanceAt.
  destruct (Nat.eqb_spec current 0) as [|Hne].
  - rstep. rewrite Hcalls. rstep. apply Hfin.
  - destruct (Hfilled (current - 1)%nat) as (j & _ & Hj & _); [lia|].
    replace (Z.of_nat current - 1) with (Z.of_nat (current - 1)) by lia.
    rewrite (index_ok _ _ _ Hj). rstep. rewrite Hcalls. rstep. apply Hfin.
Qed.

Lemma forwardLoop_ok : forall count current jumpers,
  (current + count = length text)%nat ->
  Cells dict text searchMode jumpers ->
  (forall i, (i < current)%nat -> filled jumpers i) ->
  exists jumpers',
    foldM (forwardStep dict text searchMode) jumpers (seq current count)
    = Ok jumpers'
    /\ Cells dict text searchMode jumpers'
    /\ (forall i, (i < length text)%nat -> filled jumpers' i).
Proof.
  induction count as [|count IH]; intros current jumpers Hsum Hcells Hfilled.
  - exists jumpers. split; [reflexivity|]. split; [assumption|].
    intros i Hi. apply Hfilled. lia.
  - destruct (forwardStep_ok jumpers current) as (js1 & Hstep & Hcells1 & Hf1);
      [lia|assumption|assumption|].
    destruct (IH (S current) js1) as (js2 & Hloop & Hcells2 & Hf2);
      [lia|assumption|assumption|].
    exists js2. cbn [seq foldM]. rewrite Hstep. rstep. auto.
Qed.

Lemma forwardPass_ok :
  exists jumpers,
    forwardPass dict text searchMode = Ok jumpers
    /\ Cells dict text searchMode jumpers
    /\ (forall i, (i < length text)%nat -> filled jumpers i).
Proof.
  unfold forwardPass. apply forwardLoop_ok.
  - lia.
  - split; [apply length_replicate|].
    intros i j Hl. apply lookup_replicate in Hl. destruct Hl as [-> _].
    reflexivity.
  - intros i Hi. lia.
Qed.

End Forward.

Section Backward.
Variable dict : Dictionary.t.
Variable text : list Text.
Variable searchMode : bool.
Variable jumpers : list jumper.
Hypothesis Hcells : Cells dict text searchMode jumpers.
Hypothesis Hfilled : forall i, (i < length text)%nat -> filled jumpers i.

Local Abbreviation Chain' := (Chain dict text searchMode jumpers).

Lemma chain_exists : forall m, (m <= length text)%nat -> exists toks, Chain' m toks.
Proof.
  induction m as [m IH] using lt_wf_ind. intros Hm.
  destruct m as [|m]; [exists []; constructor|].
  destruct (Hfilled m) as (j & tok & Hj & Htok); [lia|].
  pose proof (proj2 Hcells m j Hj) as Hcell. unfold CellOk in Hcell.
  rewrite Htok in Hcell. pose proof Hcell as (t & Hd & Hlen & _).
  destruct (IH (m + 1 - length (Token.text t))%nat) as (toks & Hch); [lia|lia|].
  exists (toks ++ [tok]). econstructor; try eassumption.
  intros t' Hd'. rewrite Hd in Hd'. injection Hd' as <-. assumption.
Qed.

Lemma chain_length m toks : Chain' m toks -> (length toks <= m)%nat.
Proof.
  revert toks. induction m as [m IH] using lt_wf_ind. intros toks Hch.
  inversion Hch as [|m' j tok toks' Hj Htok Hgood Hrest]; subst; [cbn; lia|].
  destruct Hgood as (t & Hd & Hlen & _). specialize (Hrest t Hd).
  apply IH in Hrest; [|lia]. rewrite length_app. cbn. lia.
Qed.

Lemma chain_positive m toks : Chain' m toks -> (0 < m)%nat -> toks <> [].
Proof.
  intros Hch Hm. inversion Hch; subst; [lia|].
  intros Heq. apply app_eq_nil in Heq. destruct Heq as [_ Heq]. discriminate.
Qed.

Lemma chain_derefs m toks :
  Chain' m toks ->
  Forall (fun tok => exists t, deref dict (Some tok) = Ok t
                       /\ (1 <= length (Token.text t))%nat
                       /\ (searchMode = true ->
                           (length (Token.text t) < length text)%nat)) toks.
Proof.
  revert toks. induction m as [m IH] using lt_wf_ind. intros toks Hch.
  inversion Hch as [|m' j tok toks' Hj Htok Hgood Hrest]; subst; [constructor|].
  destruct Hgood as (t & Hd & Hlen & _ & Hs). specialize (Hrest t Hd).
  apply Forall_app. split; [eapply IH; [|eassumption]; lia|].
  constructor; [|constructor]. exists t. repeat split; try assumption; lia.
Qed.

Lemma chain_bytes m toks :
  Chain' m toks ->
  sum_list_with (tokBytes dict) toks = textSliceByteLength (take m text).
Proof.
  revert toks. induction m as [m IH] using lt_wf_ind. intros toks Hch.
  inversion Hch as [|m' j tok toks' Hj Htok Hgood Hrest]; subst;
    [rewrite take_0; reflexivity|].
  destruct Hgood as (t & Hd & Hlen & Htxt & _). specialize (Hrest t Hd).
  apply IH in Hrest; [|lia].
  rewrite sum_list_with_app, Hrest. cbn. unfold tokBytes at 1. rewrite Hd.
  rewrite Nat.add_0_r. remember (length (Token.text t)) as L eqn:HL.
  rewrite <- Htxt, <- textSliceByteLength_app, take_take_drop.
  f_equal. f_equal. lia.
Qed.

Lemma countSegments_chain m toks :
  Chain' m toks -> forall fuel numSeg, (m <= fuel)%nat ->
  countSegments fuel dict jumpers (Z.of_nat m - 1) numSeg
  = Ok (numSeg + Z.of_nat (length toks)).
Proof.
  revert toks. induction m as [m IH] using lt_wf_ind.
  intros toks Hch fuel numSeg Hfuel.
  inversion Hch as [|m' j tok toks' Hj Htok Hgood Hrest]; subst.
  - destruct fuel; cbn; f_equal; lia.
  - destruct fuel as [|fuel]; [lia|]. cbn [countSegments].
    destruct (Z.leb_spec 0 (Z.of_nat (S m') - 1)); [|lia].
    replace (Z.of_nat (S m') - 1) with (Z.of_nat m') by lia.
    rewrite (index_ok _ _ _ Hj). rstep. rewrite Htok.
    destruct Hgood as (t & Hd & Hlen & _). rewrite Hd. rstep.
    specialize (Hrest t Hd).
    replace (Z.of_nat m' - Z.of_nat (length (Token.text t)) + 1 - 1)
      with (Z.of_nat (m' + 1 - length (Token.text t)) - 1) by lia.
    rewrite (IH (m' + 1 - length (Token.text t))%nat ltac:(lia) _ Hrest)
      by lia.
    f_equal. rewrite length_app. cbn. lia.
Qed.

Lemma fillSegments_chain m toks :
  Chain' m toks -> forall fuel (numSeg : nat) out, (m <= fuel)%nat ->
  (length toks <= numSeg <= length out)%nat ->
  exists out',
    fillSegments fuel dict jumpers (Z.of_nat m - 1) (Z.of_nat numSeg) out
    = Ok (out', Z.of_nat numSeg - Z.of_nat (length toks))
    /\ Segment.token <$> out'
       = take (numSeg - length toks) (Segment.token <$> out)
         ++ (Some <$> toks) ++ drop numSeg (Segment.token <$> out).
Proof.
  revert toks. induction m as [m IH] using lt_wf_ind.
  intros toks Hch fuel numSeg out Hfuel Hnum.
  inversion Hch as [|m' j tok toks' Hj Htok Hgood Hrest]; subst.
  - exists out. split.
    + destruct fuel; cbn; do 2 f_equal; lia.
    + cbn. rewrite Nat.sub_0_r, take_drop. reflexivity.
  - rewrite length_app in Hnum. cbn [length] in Hnum.
    destruct fuel as [|fuel]; [lia|]. cbn [fillSegments].
    destruct (Z.leb_spec 0 (Z.of_nat (S m') - 1)); [|lia].
    replace (Z.of_nat (S m') - 1) with (Z.of_nat m') by lia.
    rewrite (index_ok _ _ _ Hj). rstep. rewrite Htok.
    destruct Hgood as (t & Hd & Hlen & _). rewrite Hd. rstep.
    specialize (Hrest t Hd).
    replace (Z.of_nat numSeg - 1) with (Z.of_nat (numSeg - 1)) by lia.
    destruct (lookup_lt_is_Some_2 out (numSeg - 1)%nat) as (s & Hs); [lia|].
    rewrite (index_ok _ _ _ Hs). rstep.
    rewrite store_ok by lia. rstep.
    replace (Z.of_nat m' - Z.of_nat (length (Token.text t)) + 1 - 1)
      with (Z.of_nat (m' + 1 - length (Token.text t)) - 1) by lia.
    set (out1 := <[(numSeg - 1)%nat :=
                    Segment.mk (Segment.start s) (Segment.end_ s) (Some tok)]> out).
    destruct (IH (m' + 1 - length (Token.text t))%nat ltac:(lia) _ Hrest
                fuel (numSeg - 1)%nat out1)
      as (out' & Hfill & Htoks); [lia|subst out1; rewrite length_insert; lia|].
    exists out'. split.
    + rewrite Hfill. do 2 f_equal. rewrite length_app. cbn. lia.
    + rewrite Htoks. subst out1. rewrite list_fmap_insert. cbn [Segment.token].
      rewrite take_insert_ge by lia.
      rewrite drop_insert_ge by lia. rewrite Nat.sub_diag.
      rewrite length_app. cbn [length].
      replace (numSeg - 1 - length toks')%nat
        with (numSeg - (length toks' + 1))%nat by lia.
      rewrite fmap_app, <- app_assoc. do 2 f_equal. cbn.
      assert (Hlt : (numSeg - 1 < length (Segment.token <$> out))%nat)
        by (rewrite length_fmap; lia).
      destruct (lookup_lt_is_Some_2 _ _ Hlt) as (x & Hx).
      rewrite (drop_S _ _ _ Hx). cbn. do 2 f_equal. lia.
Qed.

Lemma bytePositions_ok : forall toks segs from,
  Segment.token <$> segs = Some <$> toks ->
  Forall (fun tok => exists t, deref dict (Some tok) = Ok t) toks ->
  exists segs',
    bytePositions dict from segs = Ok segs'
    /\ Segment.token <$> segs' = Some <$> toks
    /\ contiguous from segs' (from + sum_list_with (tokBytes dict) toks)%nat.
Proof.
  induction toks as [|tok toks IH]; intros segs from Htoks Hd.
  - apply fmap_nil_inv in Htoks. subst segs. exists [].
    cbn. repeat split. lia.
  - destruct segs as [|s segs]; [discriminate|]. cbn in Htoks.
    injection Htoks as Hs Hrest.
    inversion Hd as [|? ? (t & Ht) Hd']; subst.
    cbn [bytePositions]. rewrite Hs, Ht. rstep.
    destruct (IH segs (from + textSliceByteLength (Token.text t))%nat Hrest Hd')
      as (segs' & Hbp & Htoks' & Hcont).
    rewrite Hbp. rstep. eexists. split; [reflexivity|]. split.
    + cbn. rewrite Htoks'. reflexivity.
    + cbn. split; [reflexivity|]. split; [lia|].
      unfold tokBytes at 1. rewrite Ht.
      replace (from + (textSliceByteLength (Token.text t)
                       + sum_list_with (tokBytes dict) toks))%nat
        with (from + textSliceByteLength (Token.text t)
              + sum_list_with (tokBytes dict) toks)%nat by lia.
      assumption.
Qed.

End Backward.

Lemma contiguous_consecutive : forall segs from to i s s',
  contiguous from segs to ->
  segs !! i = Some s -> segs !! S i = Some s' ->
  Segment.end_ s = Segment.start s'.
Proof.
  induction segs as [|s0 segs IH]; intros from to i s s' Hc Hs Hs';
    [discriminate|].
  destruct Hc as (_ & _ & Hrest). destruct i as [|i].
  - cbn in Hs. injection Hs as <-. destruct segs as [|s1 segs]; [discriminate|].
    cbn in Hs'. injection Hs' as <-. destruct Hrest as (-> & _). reflexivity.
  - eapply IH; eassumption.
Qed.

Lemma contiguous_last : forall segs from to s,
  contiguous from segs to -> list.last segs = Some s -> Segment.end_ s = to.
Proof.
  induction segs as [|s0 segs IH]; intros from to s Hc Hl; [discriminate|].
  destruct Hc as (_ & _ & Hrest). destruct segs as [|s1 segs].
  - cbn in Hl. injection Hl as <-. exact Hrest.
  - rewrite last_cons_cons in Hl. eapply IH; eassumption.
Qed.

Lemma contiguous_ordered : forall segs from to s,
  contiguous from segs to -> s ∈ segs ->
  (Segment.start s <= Segment.end_ s)%nat.
Proof.
  induction segs as [|s0 segs IH]; intros from to s Hc Hin; [inversion Hin|].
  destruct Hc as (_ & Hle & Hrest). apply elem_of_cons in Hin.
  destruct Hin as [->|Hin]; [assumption|eapply IH; eassumption].
Qed.

Lemma contiguous_covers segs len :
  contiguous 0 segs len -> segs <> [] -> covers segs len.
Proof.
  intros Hc Hne. destruct segs as [|s0 segs]; [congruence|].
  split; [|split; [|split]].
  - exists s0. split; [reflexivity|]. apply Hc.
  - intros i s s'. apply contiguous_consecutive with (1 := Hc).
  - destruct (list.last (s0 :: segs)) as [s|] eqn:Hl.
    + exists s. split; [reflexivity|]. eapply contiguous_last; eassumption.
    + apply last_None in Hl. discriminate.
  - intros s. apply contiguous_ordered with (1 := Hc).
Qed.

(** What one run of [segmentWords] goes through. *)
Lemma segmentWords_run dict text searchMode :
  noEmptyToken dict = true ->
  (searchMode = true -> length text <> 1%nat) ->
  exists jumpers toks out segs,
    forwardPass dict text searchMode = Ok jumpers
    /\ Cells dict text searchMode jumpers
    /\ (forall i, (i < length text)%nat -> filled jumpers i)
    /\ Chain dict text searchMode jumpers (length text) toks
    /\ countSegments (length text) dict jumpers (Z.of_nat (length text) - 1) 0
       = Ok (Z.of_nat (length toks))
    /\ fillSegments (length text) dict jumpers (Z.of_nat (length text) - 1)
         (Z.of_nat (length toks))
         (replicate (length toks) (Segment.mk 0 0 None))
       = Ok (out, 0)
    /\ segmentWords dict text searchMode = Ok segs
    /\ Segment.token <$> segs = Some <$> toks
    /\ contiguous 0 segs (textSliceByteLength text).
Proof.
  intros Hwf Hmode.
  destruct (forwardPass_ok dict text searchMode Hwf Hmode)
    as (jumpers & Hfwd & Hcells & Hfilled).
  destruct (chain_exists dict text searchMode jumpers Hcells Hfilled
              (length text)) as (toks & Hch); [lia|].
  pose proof (countSegments_chain _ _ _ _ _ _ Hch (length text) 0
                ltac:(lia)) as Hcount.
  rewrite Z.add_0_l in Hcount.
  destruct (fillSegments_chain _ _ _ _ _ _ Hch (length text) (length toks)
              (replicate (length toks) (Segment.mk 0 0 None)))
    as (out & Hfill & Htoks); [lia|rewrite length_replicate; lia|].
  rewrite Z.sub_diag in Hfill.
  rewrite Nat.sub_diag, take_0, fmap_replicate in Htoks.
  rewrite drop_ge, app_nil_r in Htoks by (rewrite length_replicate; lia).
  cbn [app] in Htoks.
  assert (Hder : Forall (fun tok => exists t, deref dict (Some tok) = Ok t) toks).
  { eapply List.Forall_impl; [|eapply chain_derefs; eassumption].
    cbn. intros tok (t & Ht & _). eauto. }
  destruct (bytePositions_ok dict toks out 0%nat Htoks Hder)
    as (segs & Hbp & Hstoks & Hcont).
  rewrite (chain_bytes _ _ _ _ _ _ Hch), take_ge in Hcont by lia.
  exists jumpers, toks, out, segs.
  repeat (split; [assumption|]). split; [|split; assumption].
  unfold segmentWords.
  assert (Hearly : searchMode && (length text =? 1)%nat = false).
  { destruct searchMode; [|reflexivity].
    destruct (Nat.eqb_spec (length text) 1) as [He|]; [|reflexivity].
    exfalso. apply (Hmode eq_refl He). }
  rewrite Hearly, Hfwd. rstep. rewrite Hcount. rstep.
  unfold makeSegments. destruct (Z.ltb_spec (Z.of_nat (length toks)) 0); [lia|].
  rstep. rewrite Nat2Z.id, Hfill. rstep. exact Hbp.
Qed.

(** ** The order of the tokens found *)

Lemma flat_map_seq_head {A} (f : nat -> list A) : forall n a x rest,
  flat_map f (seq a n) = x :: rest ->
  exists k, (a <= k < a + n)%nat /\ In x (f k)
    /\ forall y, In y rest -> exists k', (k <= k' < a + n)%nat /\ In y (f k').
Proof.
  induction n as [|n IH]; intros a x rest Heq; [discriminate|].
  cbn [seq flat_map] in Heq. destruct (f a) as [|x' r] eqn:Hfa.
  - cbn in Heq. destruct (IH _ _ _ Heq) as (k & Hk & Hx & Hrest).
    exists k. split; [lia|]. split; [assumption|].
    intros y Hy. destruct (Hrest y Hy) as (k' & Hk' & Hy'). exists k'.
    split; [lia|assumption].
  - cbn in Heq. injection Heq as <- <-. exists a. split; [lia|].
    split; [rewrite Hfa; left; reflexivity|].
    intros y Hy. apply in_app_or in Hy. destruct Hy as [Hy|Hy].
    + exists a. split; [lia|]. rewrite Hfa. right. assumption.
    + apply in_flat_map in Hy. destruct Hy as (k' & Hk' & Hy).
      apply in_seq in Hk'. exists k'. split; [lia|assumption].
Qed.

Lemma tokensWithText_length dict words k tok t :
  (k <= length words)%nat ->
  In tok (tokensWithText dict (take k words)) ->
  deref dict (Some tok) = Ok t -> length (Token.text t) = k.
Proof.
  intros Hk Hin Hd. apply list_elem_of_In, elem_of_tokensWithText in Hin.
  destruct Hin as (i & t' & -> & Hl & Ht). cbn in Hd. rewrite Hl in Hd.
  injection Hd as <-. rewrite Ht, length_take. lia.
Qed.

(** The first token found is a shortest one. *)
Lemma lookupTokens_head_shortest dict words tok0 rest t0 tok t :
  lookupTokens dict words = tok0 :: rest ->
  deref dict (Some tok0) = Ok t0 ->
  tok ∈ tok0 :: rest -> deref dict (Some tok) = Ok t ->
  (length (Token.text t0) <= length (Token.text t))%nat.
Proof.
  unfold lookupTokens. intros Heq Hd0 Hin Hd.
  apply flat_map_seq_head in Heq. destruct Heq as (k & Hk & Hx & Hrest).
  rewrite (tokensWithText_length dict words k tok0 t0) by (assumption || lia).
  apply elem_of_cons in Hin. destruct Hin as [->|Hin].
  - rewrite (tokensWithText_length dict words k tok0 t) by (assumption || lia).
    lia.
  - apply list_elem_of_In, Hrest in Hin. destruct Hin as (k' & Hk' & Hy).
    rewrite (tokensWithText_length dict words k' tok t) by (assumption || lia).
    lia.
Qed.

Lemma tokensAt_head_shortest dict text current tok0 rest t0 tok t :
  tokensAt dict text current = Ok (tok0 :: rest) ->
  deref dict (Some tok0) = Ok t0 ->
  tok ∈ tok0 :: rest -> deref dict (Some tok) = Ok t ->
  (length (Token.text t0) <= length (Token.text t))%nat.
Proof.
  unfold tokensAt. destruct (slice _ _ _) as [words| |]; try discriminate.
  rstep. intros [= Heq]. eapply lookupTokens_head_shortest. eassumption.
Qed.

Lemma tokensAt_DictTok dict text current toks tok :
  tokensAt dict text current = Ok toks -> tok ∈ toks ->
  exists i t, tok = DictTok i /\ deref dict (Some tok) = Ok t.
Proof.
  unfold tokensAt. destruct (slice _ _ _) as [words| |]; try discriminate.
  rstep. intros [= <-] Hin. apply elem_of_lookupTokens in Hin.
  destruct Hin as (i & t & k & -> & Hl & _). exists i, t.
  split; [reflexivity|]. cbn. rewrite Hl. reflexivity.
Qed.

(** [callsAt] in terms of its two parts. *)
Lemma callsAt_split dict text searchMode current toks u :
  tokensAt dict text current = Ok toks -> text !! current = Some u ->
  exists real,
    matchCalls dict (length text) searchMode current toks = Ok real
    /\ callsAt dict text searchMode current
       = Ok (real ++ if addsPseudo dict toks
                     then [(Z.of_nat current, PseudoTok u)] else [])
    /\ (forall location tok, (location, tok) ∈ real <->
          tok ∈ toks
          /\ exists t, deref dict (Some tok) = Ok t
             /\ location
                = Z.of_nat current + Z.of_nat (length (Token.text t)) - 1
             /\ updates (length text) searchMode current location = true).
Proof.
  intros Ht Hu.
  assert (Hd : forall tok, tok ∈ toks ->
            exists t, deref dict (Some tok) = Ok t).
  { intros tok Hin. destruct (tokensAt_DictTok _ _ _ _ _ Ht Hin)
      as (i & t & _ & Hdt). eauto. }
  destruct (matchCalls_spec dict (length text) searchMode current toks Hd)
    as (real & Hreal & Hspec).
  exists real. split; [assumption|]. split; [|assumption].
  unfold callsAt. rewrite Ht. rstep. rewrite Hreal. rstep.
  rewrite (pseudoCall_spec _ _ _ _ _ Hd Hu). reflexivity.
Qed.

Lemma fmap_token_length (segs : list Segment.t) (toks : list TokenPtr) :
  Segment.token <$> segs = Some <$> toks -> length segs = length toks.
Proof.
  intros Heq. apply (f_equal length) in Heq.
  rewrite !length_fmap in Heq. exact Heq.
Qed.

Section Claims.
Context `{GoStdlib}.

Lemma internalSegment_covers dict bytes searchMode units :
  noEmptyToken dict = true -> bytes <> [] ->
  splitTextToWords bytes = Ok units ->
  (searchMode = true -> length units <> 1%nat) ->
  exists segs,
    internalSegment dict bytes searchMode = Ok segs
    /\ covers segs (length bytes).
Proof.
  intros Hwf Hne Hsplit Hmode.
  destruct (splitTextToWords_ok bytes) as (units' & Hsplit' & Hlen & _).
  rewrite Hsplit in Hsplit'. injection Hsplit' as <-.
  destruct (segmentWords_run dict units searchMode Hwf Hmode)
    as (jumpers & toks & out & segs & _ & Hcells & Hfilled & Hch & _ & _
        & Hseg & Htoks & Hcont).
  exists segs. unfold internalSegment.
  destruct bytes as [|b bytes]; [congruence|]. cbn [length Nat.eqb].
  rewrite Hsplit. rstep. split; [assumption|].
  rewrite Hlen in Hcont. apply contiguous_covers; [assumption|].
  assert (Hpos : (0 < length units)%nat).
  { destruct units; [cbn in Hlen; discriminate|cbn; lia]. }
  pose proof (chain_positive _ _ _ _ _ _ Hch Hpos) as Htne.
  intros ->. cbn in Htoks. symmetry in Htoks. apply fmap_nil_inv in Htoks.
  contradiction.
Qed.

(** C1. For a dictionary none of whose terms is empty and a non-empty
    byte input, [Segment] returns segments that cover the input: the first
    starts at byte 0, each ends where the next starts, the last ends at
    [len(bytes)], and none ends before it starts. [InternalSegment] in
    search mode returns such segments too when the input does not split
    to exactly one unit. *)
Theorem Segment_covers_input (dict : Dictionary.t) (bytes : Text) :
  noEmptyToken dict = true -> bytes <> [] ->
  (exists segs, Segment dict bytes = Ok segs /\ covers segs (length bytes))
  /\ (forall units, splitTextToWords bytes = Ok units ->
        length units <> 1%nat ->
        exists segs, InternalSegment dict bytes true = Ok segs
                     /\ covers segs (length bytes)).
Proof.
  intros Hwf Hne. split.
  - destruct (splitTextToWords_ok bytes) as (units & Hsplit & _).
    apply (internalSegment_covers dict bytes false units Hwf Hne Hsplit).
    discriminate.
  - intros units Hsplit Hlen.
    apply (internalSegment_covers dict bytes true units Hwf Hne Hsplit).
    intros _. assumption.
Qed.

(** C9. The empty input has no segment, in plain and in search mode; in
    search mode a text of exactly one unit has no segment either, be it
    given to [segmentWords] or, as bytes that split to one unit, to
    [InternalSegment]. *)
Theorem empty_and_single_unit_inputs (dict : Dictionary.t) :
  Segment dict [] = Ok []
  /\ InternalSegment dict [] true = Ok []
  /\ (forall u, segmentWords dict [u] true = Ok [])
  /\ (forall bytes units, splitTextToWords bytes = Ok units ->
        length units = 1%nat -> InternalSegment dict bytes true = Ok []).
Proof.
  split; [reflexivity|]. split; [reflexivity|]. split; [reflexivity|].
  intros bytes units Hsplit Hlen.
  unfold InternalSegment, internalSegment.
  destruct (length bytes =? 0)%nat; [reflexivity|].
  rewrite Hsplit. rstep. unfold segmentWords. rewrite Hlen. reflexivity.
Qed.

End Claims.

(** C10. For a dictionary none of whose terms is empty and a non-empty
    text (of at least two units in search mode), the forward pass leaves in
    every cell a non-nil token of at least one unit, so that a backward
    scan moves from unit [i] to a smaller index; the first scan returns a
    count, [make] allocates that many segments, the second scan fills them
    and brings the count back to 0, and [segmentWords] returns that many
    segments, without panic and within its fuel. *)
Theorem backward_scans_safe (dict : Dictionary.t) (text : list Text)
    (searchMode : bool) :
  noEmptyToken dict = true -> text <> [] ->
  (searchMode = true -> (2 <= length text)%nat) ->
  exists jumpers numSeg outputSegments filled segs,
    forwardPass dict text searchMode = Ok jumpers
    /\ length jumpers = length text
    /\ (forall i, (i < length text)%nat ->
          exists j t, jumpers !! i = Some j
            /\ token j <> None
            /\ deref dict (token j) = Ok t
            /\ (1 <= length (Token.text t))%nat
            /\ Z.of_nat i - Z.of_nat (length (Token.text t)) + 1 - 1
               < Z.of_nat i)
    /\ countSegments (length text) dict jumpers
         (Z.of_nat (length text) - 1) 0 = Ok numSeg
    /\ makeSegments numSeg = Ok outputSegments
    /\ fillSegments (length text) dict jumpers
         (Z.of_nat (length text) - 1) numSeg outputSegments = Ok (filled, 0)
    /\ segmentWords dict text searchMode = Ok segs
    /\ Z.of_nat (length segs) = numSeg.
Proof.
  intros Hwf Hne Hmode.
  assert (Hmode' : searchMode = true -> length text <> 1%nat).
  { intros Hs. specialize (Hmode Hs). lia. }
  destruct (segmentWords_run dict text searchMode Hwf Hmode')
    as (jumpers & toks & out & segs & Hfwd & Hcells & Hfilled & Hch & Hcount
        & Hfill & Hseg & Htoks & _).
  exists jumpers, (Z.of_nat (length toks)),
    (replicate (length toks) (Segment.mk 0 0 None)), out, segs.
  split; [assumption|]. split; [apply Hcells|]. split.
  { intros i Hi. destruct (Hfilled i Hi) as (j & tok & Hj & Htok).
    pose proof (proj2 Hcells i j Hj) as Hcell. unfold CellOk in Hcell.
    rewrite Htok in Hcell. destruct Hcell as (t & Hd & Hlen & _).
    exists j, t. rewrite Htok. repeat split; try assumption;
      try discriminate; lia. }
  split; [assumption|]. split.
  { unfold makeSegments.
    destruct (Z.ltb_spec (Z.of_nat (length toks)) 0); [lia|].
    rewrite Nat2Z.id. reflexivity. }
  split; [assumption|]. split; [assumption|].
  rewrite (fmap_token_length _ _ Htoks). reflexivity.
Qed.

(** C4. At every position, the call of [updateJumper] for a token found
    there is made unless the mode is search mode, the position is 0 and
    the token ends at the last unit; in plain mode it is always made. As a
    result, in search mode a text of two or more units always comes back
    as two or more segments, each of a token shorter than the text, also
    when the whole text is a term of the dictionary. *)
Theorem searchMode_skips_whole_match (dict : Dictionary.t) (text : list Text) :
  (forall searchMode current toks u,
     tokensAt dict text current = Ok toks -> text !! current = Some u ->
     exists calls,
       callsAt dict text searchMode current = Ok calls
       /\ (forall jumpers,
             forwardStep dict text searchMode jumpers current
             = (b ← baseDistanceAt jumpers current;
                foldM (updateAt dict b) jumpers calls))
       /\ forall tok t, tok ∈ toks -> deref dict (Some tok) = Ok t ->
            let location :=
              Z.of_nat current + Z.of_nat (length (Token.text t)) - 1 in
            (location, tok) ∈ calls <->
            ~ (searchMode = true /\ current = 0%nat
               /\ location = Z.of_nat (length text) - 1))
  /\ (noEmptyToken dict = true -> (2 <= length text)%nat ->
      exists segs,
        segmentWords dict text true = Ok segs
        /\ (2 <= length segs)%nat
        /\ forall s, s ∈ segs ->
             exists t, deref dict (Segment.token s) = Ok t
               /\ (length (Token.text t) < length text)%nat).
Proof.
  split.
  - intros searchMode current toks u Ht Hu.
    destruct (callsAt_split dict text searchMode current toks u Ht Hu)
      as (real & Hreal & Hcalls & Hspec).
    eexists. split; [exact Hcalls|]. split.
    { intros jumpers. rewrite forwardStep_calls, Hcalls.
      destruct (baseDistanceAt jumpers current); reflexivity. }
    intros tok t Hin Hd location.
    assert (Hmem : (location, tok) ∈
                     real ++ (if addsPseudo dict toks
                              then [(Z.of_nat current, PseudoTok u)] else [])
                   <-> (location, tok) ∈ real).
    { rewrite elem_of_app. split; [|auto]. intros [Hr|Hp]; [assumption|].
      destruct (tokensAt_DictTok _ _ _ _ _ Ht Hin) as (i & t' & -> & _).
      destruct (addsPseudo dict toks); [|inversion Hp].
      apply list_elem_of_singleton in Hp. discriminate. }
    rewrite Hmem, Hspec, <- updates_spec. split.
    + intros (_ & t' & Hd' & Hloc & Hupd). rewrite Hupd. discriminate.
    + intros Hupd. split; [assumption|]. exists t.
      split; [assumption|]. split; [reflexivity|].
      destruct (updates _ _ _ _); [reflexivity|contradiction].
  - intros Hwf Hlen.
    destruct (segmentWords_run dict text true Hwf ltac:(intros _; lia))
      as (jumpers & toks & out & segs & _ & Hcells & Hfilled & Hch & _ & _
          & Hseg & Htoks & _).
    exists segs. split; [assumption|].
    pose proof (chain_derefs _ _ _ _ _ _ Hch) as Hder.
    split.
    + rewrite (fmap_token_length _ _ Htoks).
      inversion Hch as [Hz|m j tok toks' Hj Htok Hgood Hrest Hm]; [lia|].
      destruct Hgood as (t & Hd & Hl & _ & Hs). specialize (Hs eq_refl).
      specialize (Hrest t Hd).
      assert (Hpos : (0 < m + 1 - length (Token.text t))%nat) by lia.
      pose proof (chain_positive _ _ _ _ _ _ Hrest Hpos).
      rewrite length_app. cbn. destruct toks'; [congruence|cbn; lia].
    + intros s Hs. apply list_elem_of_lookup in Hs. destruct Hs as (i & Hs).
      assert (Hts : (Segment.token <$> segs) !! i = Some (Segment.token s))
        by (rewrite list_lookup_fmap, Hs; reflexivity).
      rewrite Htoks, list_lookup_fmap in Hts.
      destruct (toks !! i) as [tok|] eqn:Htok; [|discriminate].
      cbn in Hts. injection Hts as Hts.
      rewrite List.Forall_forall in Hder.
      destruct (Hder tok) as (t & Hd & _ & Hlt).
      { apply list_elem_of_In, list_elem_of_lookup. eauto. }
      exists t. rewrite <- Hts. split; [assumption|]. apply Hlt. reflexivity.
Qed.

(** C3. At position [current], the pseudo token of the unit
    [text[current]] (frequency 1, cost 32, tag "x") is a candidate for
    cell [current] exactly when no token is found there or a shortest
    token found has more than one unit; when a token of one unit is found,
    no pseudo token is a candidate at all. *)
Theorem pseudo_token_injection (dict : Dictionary.t) (text : list Text)
    (searchMode : bool) (current : nat) (toks : list TokenPtr) (u : Text) :
  tokensAt dict text current = Ok toks -> text !! current = Some u ->
  exists calls,
    callsAt dict text searchMode current = Ok calls
    /\ (forall jumpers,
          forwardStep dict text searchMode jumpers current
          = (b ← baseDistanceAt jumpers current;
             foldM (updateAt dict b) jumpers calls))
    /\ ((Z.of_nat current, PseudoTok u) ∈ calls <->
        toks = []
        \/ exists tok0 t0,
             tok0 ∈ toks /\ deref dict (Some tok0) = Ok t0
             /\ (forall tok t, tok ∈ toks -> deref dict (Some tok) = Ok t ->
                   (length (Token.text t0) <= length (Token.text t))%nat)
             /\ (1 < length (Token.text t0))%nat)
    /\ ((exists tok t, tok ∈ toks /\ deref dict (Some tok) = Ok t
                       /\ length (Token.text t) = 1%nat) ->
        forall location v, (location, PseudoTok v) ∉ calls)
    /\ deref dict (Some (PseudoTok u))
       = Ok (Token.mk [u] 1 (f32_of_Z 32) [x78] []).
Proof.
  intros Ht Hu.
  destruct (callsAt_split dict text searchMode current toks u Ht Hu)
    as (real & _ & Hcalls & Hspec).
  eexists. split; [exact Hcalls|]. split.
  { intros jumpers. rewrite forwardStep_calls, Hcalls.
    destruct (baseDistanceAt jumpers current); reflexivity. }
  assert (Hreal : forall location v, (location, PseudoTok v) ∉ real).
  { intros location v Hin. apply Hspec in Hin. destruct Hin as (Hin & _).
    destruct (tokensAt_DictTok _ _ _ _ _ Ht Hin) as (i & t & Heq & _).
    discriminate. }
  assert (Hadds : addsPseudo dict toks = true <->
            toks = []
            \/ exists tok0 t0,
                 tok0 ∈ toks /\ deref dict (Some tok0) = Ok t0
                 /\ (forall tok t, tok ∈ toks ->
                       deref dict (Some tok) = Ok t ->
                       (length (Token.text t0) <= length (Token.text t))%nat)
                 /\ (1 < length (Token.text t0))%nat).
  { unfold addsPseudo. destruct toks as [|tokh rest]; [tauto|].
    destruct (tokensAt_DictTok _ _ _ _ tokh Ht) as (ih & th & _ & Hdh); [left|].
    rewrite Hdh. split.
    - intros Hlt. apply Nat.ltb_lt in Hlt. right. exists tokh, th.
      split; [left|]. split; [assumption|]. split; [|assumption].
      intros tok t Hin Hd. eapply tokensAt_head_shortest; eassumption.
    - intros [Hnil|(tok0 & t0 & Hin & Hd0 & Hmin & Hlt)]; [discriminate|].
      apply Nat.ltb_lt. specialize (Hmin tokh th ltac:(left) Hdh). lia. }
  split; [|split; [|reflexivity]].
  - rewrite <- Hadds, elem_of_app. split.
    + intros [Hin|Hin]; [exfalso; eapply Hreal; eassumption|].
      destruct (addsPseudo dict toks); [reflexivity|inversion Hin].
    + intros ->. right. left.
  - intros (tok & t & Hin & Hd & Hone) location v Hc.
    apply elem_of_app in Hc. destruct Hc as [Hc|Hc];
      [eapply Hreal; eassumption|].
    destruct (addsPseudo dict toks) eqn:Ha; [|inversion Hc].
    destruct (proj1 Hadds eq_refl) as [->|(tok0 & t0 & _ & _ & Hmin & Hlt)];
      [inversion Hin|].
    specialize (Hmin tok t Hin Hd). lia.
Qed.

(** ** Reading the fields of a line *)

Lemma flushField_nonempty (field : Text) : Forall (fun f => f <> []) (flushField field).
Proof. destruct field; cbn; repeat constructor. discriminate. Qed.

Lemma fieldsLoop_ok : forall fuel s field,
  (length s <= fuel)%nat ->
  exists fields, fieldsLoop fuel s field = Ok fields
    /\ Forall (fun f => f <> []) fields.
Proof.
  induction fuel as [|fuel IH]; intros s field Hfuel.
  - destruct s; [|cbn in Hfuel; lia]. exists (flushField field).
    split; [reflexivity|apply flushField_nonempty].
  - destruct s as [|c s].
    { exists (flushField field).
      split; [reflexivity|apply flushField_nonempty]. }
    cbn [fieldsLoop].
    pose proof (DecodeRune_size (c :: s) ltac:(discriminate)) as Hsize.
    destruct (DecodeRune (c :: s)) as [r size]. cbn [snd] in Hsize.
    assert (Hdrop : (length (drop size (c :: s)) <= fuel)%nat).
    { rewrite length_drop. cbn [length] in *. lia. }
    destruct (IsSpace r).
    + destruct (IH (drop size (c :: s)) [] Hdrop) as (rest & -> & Hrest).
      rstep. eexists. split; [reflexivity|].
      apply Forall_app. split; [apply flushField_nonempty|assumption].
    + apply IH. assumption.
Qed.

Lemma Fields_ok (s : Text) :
  exists fields, Fields s = Ok fields /\ Forall (fun f => f <> []) fields.
Proof. unfold Fields. apply fieldsLoop_ok. lia. Qed.

(** ** The claim's reading of a record line *)

Section LoaderFacts.
Context `{GoStdlib}.

Lemma unitsOf_nonempty (text : Text) : text <> [] -> unitsOf text <> [].
Proof.
  intros Hne. unfold unitsOf.
  destruct (splitTextToWords_ok text) as (units & -> & Hlen & _).
  intros ->. cbn in Hlen. destruct text; [congruence|discriminate].
Qed.

Lemma parseLine_spec (line : Text) :
  exists r,
    parseLine line = Ok r
    /\ (discarded line = true -> r = None)
    /\ (discarded line = false ->
        exists t, r = Some t /\ termOf t = storedTerm line
          /\ Token.text t <> []).
Proof.
  unfold parseLine, discarded, storedTerm, fieldsOf.
  destruct (Fields_ok line) as (fields & -> & Hne). rstep.
  destruct fields as [|text [|freqText rest]].
  - exists None. split; [reflexivity|]. split; [reflexivity|discriminate].
  - exists None. split; [reflexivity|]. split; [reflexivity|discriminate].
  - cbn [length Nat.ltb Nat.leb orb lookup list_lookup].
    destruct (Atoi freqText) as [frequency|] eqn:Hatoi.
    2:{ exists None. split; [reflexivity|]. split; [reflexivity|discriminate]. }
    unfold minTokenFrequency. destruct (frequency <? 2).
    { exists None. split; [reflexivity|]. split; [reflexivity|discriminate]. }
    inversion Hne as [|? ? Htext _]; subst.
    pose proof (unitsOf_nonempty text Htext) as Hunits. unfold unitsOf in *.
    destruct (splitTextToWords_ok text) as (units & Hsplit & _).
    rewrite Hsplit in *. rstep. eexists. split; [reflexivity|].
    split; [discriminate|]. intros _. eexists. split; [reflexivity|].
    split; [|assumption]. unfold termOf.
    destruct rest; cbn -[splitTextToWords Atoi]; rewrite Hsplit, Hatoi;
      reflexivity.
Qed.

End LoaderFacts.

Lemma sumFrequency_app (a b : list Token.t) :
  sumFrequency (a ++ b) = sumFrequency a + sumFrequency b.
Proof. induction a as [|t a IH]; cbn; [reflexivity|]. rewrite IH. lia. Qed.

Lemma sumFrequency_core (a b : list Token.t) :
  core <$> a = core <$> b -> sumFrequency a = sumFrequency b.
Proof.
  revert b. induction a as [|t a IH]; intros [|t' b] Heq;
    try discriminate; [reflexivity|].
  cbn in Heq. injection Heq as _ Hf _ _ Hrest. cbn. rewrite Hf.
  f_equal. apply IH. exact Hrest.
Qed.

Lemma noEmptyToken_core (d d' : Dictionary.t) :
  core <$> Dictionary.tokens d' = core <$> Dictionary.tokens d ->
  noEmptyToken d' = noEmptyToken d.
Proof.
  unfold noEmptyToken. generalize (Dictionary.tokens d) as b.
  induction (Dictionary.tokens d') as [|t a IH]; intros [|t' b] Heq;
    try discriminate; [reflexivity|].
  cbn in Heq. injection Heq as Ht _ _ _ Hrest. cbn. rewrite Ht.
  f_equal. apply IH. exact Hrest.
Qed.

Lemma keepSegments_ok dict : forall segs,
  Forall (fun s => exists t, deref dict (Segment.token s) = Ok t) segs ->
  exists kept, keepSegments dict segs = Ok kept.
Proof.
  induction segs as [|s segs IH]; intros Hall; [exists []; reflexivity|].
  inversion Hall as [|? ? (t & Ht) Hrest]; subst.
  destruct (IH Hrest) as (kept & Hkept). cbn [keepSegments].
  rewrite Ht. rstep. rewrite Hkept. rstep.
  destruct (0 <? length (Token.text t))%nat; eauto.
Qed.

(** [segmentWords] returns, whatever the text and the mode. *)
Lemma segmentWords_total dict text searchMode :
  noEmptyToken dict = true ->
  exists segs,
    segmentWords dict text searchMode = Ok segs
    /\ Forall (fun s => exists t, deref dict (Segment.token s) = Ok t) segs.
Proof.
  intros Hwf.
  destruct (searchMode && (length text =? 1)%nat) eqn:Hearly.
  - exists []. unfold segmentWords. rewrite Hearly. split; [reflexivity|].
    constructor.
  - assert (Hmode : searchMode = true -> length text <> 1%nat).
    { intros -> He. rewrite He in Hearly. discriminate. }
    destruct (segmentWords_run dict text searchMode Hwf Hmode)
      as (jumpers & toks & out & segs & _ & _ & _ & Hch & _ & _ & Hseg
          & Htoks & _).
    exists segs. split; [assumption|].
    pose proof (chain_derefs _ _ _ _ _ _ Hch) as Hder.
    apply List.Forall_forall. intros s Hs.
    apply list_elem_of_In, list_elem_of_lookup in Hs. destruct Hs as (i & Hs).
    assert (Hts : (Segment.token <$> segs) !! i = Some (Segment.token s))
      by (rewrite list_lookup_fmap, Hs; reflexivity).
    rewrite Htoks, list_lookup_fmap in Hts.
    destruct (toks !! i) as [tok|] eqn:Htok; [|discriminate].
    cbn in Hts. injection Hts as Hts.
    rewrite List.Forall_forall in Hder.
    destruct (Hder tok) as (t & Hd & _).
    { apply list_elem_of_In, list_elem_of_lookup. eauto. }
    exists t. rewrite <- Hts. assumption.
Qed.

Lemma subSegment_ok dict i :
  noEmptyToken dict = true ->
  (i < length (Dictionary.tokens dict))%nat ->
  exists dict',
    subSegment dict i = Ok dict'
    /\ core <$> Dictionary.tokens dict' = core <$> Dictionary.tokens dict
    /\ Dictionary.maxTokenLength dict' = Dictionary.maxTokenLength dict
    /\ Dictionary.totalFrequency dict' = Dictionary.totalFrequency dict.
Proof.
  intros Hwf Hi.
  destruct (lookup_lt_is_Some_2 _ _ Hi) as (tok & Htok).
  destruct (segmentWords_total dict (Token.text tok) true Hwf)
    as (segs & Hsegs & Hder).
  destruct (keepSegments_ok dict segs Hder) as (kept & Hkept).
  unfold subSegment. rewrite (index_ok _ _ _ Htok). rstep.
  rewrite Hsegs. rstep. rewrite Hkept. rstep.
  eexists. split; [reflexivity|]. cbn. repeat split.
  rewrite list_fmap_insert. apply list_insert_id.
  rewrite list_lookup_fmap, Htok. reflexivity.
Qed.

Lemma subSegments_ok : forall indices dict,
  noEmptyToken dict = true ->
  Forall (fun i => (i < length (Dictionary.tokens dict))%nat) indices ->
  exists dict',
    foldM subSegment dict indices = Ok dict'
    /\ core <$> Dictionary.tokens dict' = core <$> Dictionary.tokens dict
    /\ Dictionary.maxTokenLength dict' = Dictionary.maxTokenLength dict
    /\ Dictionary.totalFrequency dict' = Dictionary.totalFrequency dict.
Proof.
  induction indices as [|i indices IH]; intros dict Hwf Hall.
  - exists dict. repeat split.
  - inversion Hall as [|? ? Hi Hrest]; subst.
    destruct (subSegment_ok dict i Hwf Hi) as (d1 & Hstep & Hcore & Hmax & Htot).
    assert (Hlen : length (Dictionary.tokens d1)
                   = length (Dictionary.tokens dict)).
    { apply (f_equal length) in Hcore. rewrite !length_fmap in Hcore.
      exact Hcore. }
    destruct (IH d1) as (d2 & Hfold & Hcore2 & Hmax2 & Htot2).
    { rewrite (noEmptyToken_core dict d1 Hcore). assumption. }
    { rewrite Hlen. assumption. }
    exists d2. cbn [foldM]. rewrite Hstep. rstep.
    split; [assumption|]. repeat split; congruence.
Qed.

Section LoadFacts.
Context `{GoStdlib}.

Lemma parsed_discarded (line : Text) :
  discarded line = true -> parsed line = None.
Proof.
  intros Hd. unfold parsed.
  destruct (parseLine_spec line) as (r & -> & Hnone & _). auto.
Qed.

Lemma parsed_kept (line : Text) :
  discarded line = false ->
  exists t, parsed line = Some t /\ termOf t = storedTerm line
            /\ Token.text t <> [].
Proof.
  intros Hd. unfold parsed.
  destruct (parseLine_spec line) as (r & -> & _ & Hsome). auto.
Qed.

Lemma loadLine_parsed dict line :
  loadLine dict line
  = Ok (match parsed line with
        | Some t => addToken dict t
        | None => dict
        end).
Proof.
  unfold loadLine, parsed.
  destruct (parseLine_spec line) as (r & -> & _). rstep.
  destruct r; reflexivity.
Qed.

Lemma loadLines_from : forall lines dict,
  foldM loadLine dict lines
  = Ok (foldl addToken dict (omap parsed lines)).
Proof.
  induction lines as [|line lines IH]; intros dict; [reflexivity|].
  cbn [foldM]. rewrite loadLine_parsed. rstep. rewrite IH.
  cbn [omap list_omap]. destruct (parsed line); reflexivity.
Qed.

Lemma addTokens_tokens : forall toks dict,
  Dictionary.tokens (foldl addToken dict toks) = Dictionary.tokens dict ++ toks
  /\ Dictionary.totalFrequency (foldl addToken dict toks)
     = Dictionary.totalFrequency dict + sumFrequency toks.
Proof.
  induction toks as [|t toks IH]; intros dict; cbn [foldl].
  - rewrite app_nil_r. cbn. split; [reflexivity|lia].
  - destruct (IH (addToken dict t)) as [-> ->]. cbn.
    rewrite <- app_assoc. split; [reflexivity|lia].
Qed.

Lemma omap_parsed_kept : forall lines,
  termOf <$> omap parsed lines
  = storedTerm <$> filter (fun line => discarded line = false) lines
  /\ Forall (fun t => Token.text t <> []) (omap parsed lines).
Proof.
  induction lines as [|line lines [IH1 IH2]]; [split; [reflexivity|constructor]|].
  cbn [omap list_omap]. rewrite filter_cons.
  destruct (discarded line) eqn:Hd.
  - rewrite (parsed_discarded line Hd).
    rewrite decide_False by discriminate. split; assumption.
  - destruct (parsed_kept line Hd) as (t & -> & Hterm & Hne).
    rewrite decide_True by reflexivity. cbn. rewrite Hterm, IH1.
    split; [reflexivity|]. constructor; assumption.
Qed.

Lemma termOf_core (a b : list Token.t) :
  core <$> a = core <$> b -> termOf <$> a = termOf <$> b.
Proof.
  revert b. induction a as [|t a IH]; intros [|t' b] Heq;
    try discriminate; [reflexivity|].
  cbn in Heq. injection Heq as Ht Hf _ Hp Hrest. cbn.
  unfold termOf at 1 3. rewrite Ht, Hf, Hp. f_equal. apply IH. exact Hrest.
Qed.

Lemma termOf_setDistance (l : float32) (a : list Token.t) :
  termOf <$> (map (setDistance l) a) = termOf <$> a.
Proof. induction a as [|t a IH]; cbn; [reflexivity|]. rewrite IH. reflexivity. Qed.

Lemma sumFrequency_setDistance (l : float32) (a : list Token.t) :
  sumFrequency (map (setDistance l) a) = sumFrequency a.
Proof. induction a as [|t a IH]; cbn; [reflexivity|]. rewrite IH. reflexivity. Qed.

(** What [loadFromLines] returns. *)
Lemma loadFromLines_ok (lines : list Text) :
  exists dict,
    loadFromLines lines = Ok dict
    /\ noEmptyToken dict = true
    /\ termOf <$> Dictionary.tokens dict
       = storedTerm <$> filter (fun line => discarded line = false) lines
    /\ Dictionary.totalFrequency dict = sumFrequency (Dictionary.tokens dict)
    /\ core <$> Dictionary.tokens dict
       = core <$> map (setDistance (Log2_f32 (Dictionary.totalFrequency dict)))
                      (omap parsed lines).
Proof.
  unfold loadFromLines, loadLines. rewrite loadLines_from. rstep.
  set (d0 := foldl addToken NewDictionary (omap parsed lines)).
  destruct (addTokens_tokens (omap parsed lines) NewDictionary)
    as [Htoks Htotal]. fold d0 in Htoks, Htotal. cbn in Htoks, Htotal.
  destruct (omap_parsed_kept lines) as [Hterms Hne].
  assert (Hwf : noEmptyToken (assignDistances d0) = true).
  { unfold noEmptyToken, assignDistances. cbn [Dictionary.tokens].
    rewrite Htoks. apply forallb_forall. intros t Hin.
    apply in_map_iff in Hin. destruct Hin as (t0 & <- & Hin0).
    rewrite List.Forall_forall in Hne. specialize (Hne t0 Hin0). cbn.
    destruct (Token.text t0); [congruence|reflexivity]. }
  destruct (subSegments_ok
              (seq 0 (length (Dictionary.tokens (assignDistances d0))))
              (assignDistances d0) Hwf) as (d & Hfold & Hcore & _ & Htot).
  { apply List.Forall_forall. intros i Hi. apply in_seq in Hi. lia. }
  exists d. split; [exact Hfold|].
  split; [rewrite (noEmptyToken_core _ _ Hcore); exact Hwf|].
  assert (Htot' : Dictionary.totalFrequency d = Dictionary.totalFrequency d0)
    by exact Htot.
  assert (Hcore' : core <$> Dictionary.tokens d
            = core <$> map (setDistance
                              (Log2_f32 (Dictionary.totalFrequency d0)))
                           (omap parsed lines)).
  { rewrite Hcore. unfold assignDistances. cbn [Dictionary.tokens].
    rewrite Htoks. reflexivity. }
  split; [rewrite (termOf_core _ _ Hcore'), termOf_setDistance; exact Hterms|].
  split.
  - rewrite (sumFrequency_core _ _ Hcore'), sumFrequency_setDistance. lia.
  - rewrite Htot'. exact Hcore'.
Qed.

Lemma LoadDictionary_noEmptyToken (content : Text) (dict : Dictionary.t) :
  LoadDictionary content = Ok dict -> noEmptyToken dict = true.
Proof.
  unfold LoadDictionary. intros Hload.
  destruct (loadFromLines_ok (readLines content []))
    as (dict' & Hload' & Hwf & _).
  rewrite Hload in Hload'. injection Hload' as <-. exact Hwf.
Qed.

End LoadFacts.

Section LoaderClaims.
Context `{GoStdlib}.

(** C5. [splitTextToWords] returns on every byte slice, valid UTF-8 or
    not; the lengths of its units add up to the length of the input, and
    every boundary between units is a position at which the decoder starts
    a code point (or the end of the input). *)
Theorem splitTextToWords_covers (text : Text) :
  exists units,
    splitTextToWords text = Ok units
    /\ textSliceByteLength units = length text
    /\ unitBoundaries text units.
Proof. apply splitTextToWords_ok. Qed.

(** C8. Splitting the concatenation of the units of a split gives the
    same units again. *)
Theorem splitTextToWords_idempotent (text : Text) :
  exists units,
    splitTextToWords text = Ok units
    /\ splitTextToWords (concat units) = Ok units.
Proof.
  destruct (splitTextToWords_ok text) as (units & Hsplit & _ & _).
  exists units. split; [exact Hsplit|].
  rewrite (splitTextToWords_concat text units Hsplit).
  rewrite splitTextToWords_toLower. exact Hsplit.
Qed.

(** C6. [LoadDictionary] returns a dictionary for every content. Its
    terms are, in order, those of the lines that are not discarded: the
    first field in units, the value of the second field, the third field
    or the empty tag. A line is discarded when it has fewer than two
    fields, when its second field is not an integer or when that integer
    is below 2, and such a line, wherever it stands, changes nothing in
    the result. *)
Theorem LoadDictionary_skips_bad_records :
  (forall content, exists dict,
     LoadDictionary content = Ok dict
     /\ termOf <$> Dictionary.tokens dict
        = storedTerm <$> filter (fun line => discarded line = false)
                                (readLines content []))
  /\ (forall before line after, discarded line = true ->
        loadFromLines (before ++ line :: after)
        = loadFromLines (before ++ after)).
Proof.
  split.
  - intros content. unfold LoadDictionary.
    destruct (loadFromLines_ok (readLines content []))
      as (dict & Hload & _ & Hterms & _).
    exists dict. split; assumption.
  - intros before line after Hd. unfold loadFromLines, loadLines.
    rewrite !loadLines_from, !omap_app. cbn [omap list_omap].
    rewrite (parsed_discarded line Hd). reflexivity.
Qed.

(** C7. In the dictionary that [LoadDictionary] returns, the total
    frequency is the sum of the frequencies of the terms, and the cost of
    every term is the [float32] difference of the binary logarithms of the
    total frequency and of the term's frequency. *)
Theorem LoadDictionary_costs (content : Text) :
  exists dict,
    LoadDictionary content = Ok dict
    /\ Dictionary.totalFrequency dict
       = sumFrequency (Dictionary.tokens dict)
    /\ forall t, t ∈ Dictionary.tokens dict ->
         Token.distance t
         = f32_sub (Log2_f32 (Dictionary.totalFrequency dict))
                   (Log2_f32 (Token.frequency t)).
Proof.
  unfold LoadDictionary.
  destruct (loadFromLines_ok (readLines content []))
    as (dict & Hload & _ & _ & Htotal & Hcore).
  exists dict. split; [assumption|]. split; [assumption|].
  intros t Hin. apply list_elem_of_lookup in Hin. destruct Hin as (i & Hi).
  assert (Hc : (core <$> Dictionary.tokens dict) !! i = Some (core t))
    by (rewrite list_lookup_fmap, Hi; reflexivity).
  rewrite Hcore, list_lookup_fmap in Hc.
  destruct (map _ _ !! i) as [t1|] eqn:Ht1; [|discriminate].
  cbn in Hc. injection Hc as Htext Hfreq Hdist Hpos.
  apply list_elem_of_lookup_2, list_elem_of_In, in_map_iff in Ht1.
  destruct Ht1 as (t0 & <- & _). cbn in Hfreq, Hdist.
  rewrite <- Hdist, <- Hfreq. reflexivity.
Qed.

End LoaderClaims.

(** C2. The dictionary of the single term "bei jing" with frequency 128
    gives that term the cost 0. On the text "bei jing" the first step of
    the forward pass records it in cell 1 with cost 0; the second step
    offers cell 1 the pseudo token of "jing" at cost 32 + 32, which is not
    smaller than 0, and [updateJumper] writes it all the same, because the
    recorded cost 0 reads as "never visited". [Segment] returns the two
    pseudo tokens and not the term. *)
Theorem updateJumper_overwrites_zero_cost_cell :
  @LoadDictionary exampleStdlib beijingSource = Ok beijingDict
  /\ forwardStep beijingDict [uBei; uJing] false (replicate 2 zeroJumper) 0
     = Ok [mkJumper (f32_of_Z 32) (Some (PseudoTok uBei));
           mkJumper (S754_zero false) (Some (DictTok 0))]
  /\ forwardStep beijingDict [uBei; uJing] false
       [mkJumper (f32_of_Z 32) (Some (PseudoTok uBei));
        mkJumper (S754_zero false) (Some (DictTok 0))] 1
     = Ok [mkJumper (f32_of_Z 32) (Some (PseudoTok uBei));
           mkJumper (f32_of_Z 64) (Some (PseudoTok uJing))]
  /\ tokensAt beijingDict [uBei; uJing] 1 = Ok []
  /\ callsAt beijingDict [uBei; uJing] false 1 = Ok [(1, PseudoTok uJing)]
  /\ f32_gtb (S754_zero false) (f32_add (f32_of_Z 32) (f32_of_Z 32)) = false
  /\ updateJumper beijingDict (mkJumper (S754_zero false) (Some (DictTok 0)))
       (f32_of_Z 32) (PseudoTok uJing)
     = Ok (mkJumper (f32_of_Z 64) (Some (PseudoTok uJing)))
  /\ @Segment exampleStdlib beijingDict (uBei ++ uJing)
     = Ok [Segment.mk 0 3 (Some (PseudoTok uBei));
           Segment.mk 3 6 (Some (PseudoTok uJing))].
Proof. repeat split; vm_compute; reflexivity. Qed.

(** ** The theorems at concrete inputs *)

Lemma Segment_covers_input_witness :
  noEmptyToken exampleDict = true
  /\ uZhong ++ uHua ++ uRen ++ uMin <> []
  /\ (exists segs,
        @Segment exampleStdlib exampleDict (uZhong ++ uHua ++ uRen ++ uMin)
        = Ok segs /\ covers segs 12)
  /\ (exists segs,
        @InternalSegment exampleStdlib exampleDict
          (uZhong ++ uHua ++ uRen ++ uMin) true = Ok segs
        /\ covers segs 12).
Proof.
  assert (Hwf : noEmptyToken exampleDict = true) by (vm_compute; reflexivity).
  assert (Hne : uZhong ++ uHua ++ uRen ++ uMin <> []) by discriminate.
  pose proof (@Segment_covers_input exampleStdlib exampleDict
                (uZhong ++ uHua ++ uRen ++ uMin) Hwf Hne) as [Hplain Hsearch].
  split; [exact Hwf|]. split; [exact Hne|]. split; [exact Hplain|].
  apply (Hsearch [uZhong; uHua; uRen; uMin]).
  - vm_compute. reflexivity.
  - cbn. lia.
Defined.

Lemma empty_and_single_unit_inputs_witness :
  @splitTextToWords exampleStdlib [x41; x62] = Ok [[x61; x62]]
  /\ length [[x61; x62]] = 1%nat
  /\ @InternalSegment exampleStdlib exampleDict [x41; x62] true = Ok [].
Proof.
  assert (Hs : @splitTextToWords exampleStdlib [x41; x62] = Ok [[x61; x62]])
    by (vm_compute; reflexivity).
  split; [exact Hs|]. split; [reflexivity|].
  exact (proj2 (proj2 (proj2
           (@empty_and_single_unit_inputs exampleStdlib exampleDict)))
           [x41; x62] [[x61; x62]] Hs eq_refl).
Defined.

Lemma backward_scans_safe_witness :
  noEmptyToken exampleDict = true
  /\ [uZhong; uHua; uRen; uMin] <> []
  /\ exists jumpers numSeg outputSegments filledSegments segs,
       forwardPass exampleDict [uZhong; uHua; uRen; uMin] true = Ok jumpers
       /\ length jumpers = 4%nat
       /\ (forall i, (i < 4)%nat ->
             exists j t, jumpers !! i = Some j
               /\ token j <> None
               /\ deref exampleDict (token j) = Ok t
               /\ (1 <= length (Token.text t))%nat
               /\ Z.of_nat i - Z.of_nat (length (Token.text t)) + 1 - 1
                  < Z.of_nat i)
       /\ countSegments 4 exampleDict jumpers 3 0 = Ok numSeg
       /\ makeSegments numSeg = Ok outputSegments
       /\ fillSegments 4 exampleDict jumpers 3 numSeg outputSegments
          = Ok (filledSegments, 0)
       /\ segmentWords exampleDict [uZhong; uHua; uRen; uMin] true = Ok segs
       /\ Z.of_nat (length segs) = numSeg.
Proof.
  assert (Hwf : noEmptyToken exampleDict = true) by (vm_compute; reflexivity).
  assert (Hne : [uZhong; uHua; uRen; uMin] <> []) by discriminate.
  split; [exact Hwf|]. split; [exact Hne|].
  apply (backward_scans_safe exampleDict [uZhong; uHua; uRen; uMin] true Hwf Hne).
  intros _. cbn. lia.
Defined.

Lemma searchMode_skips_whole_match_witness :
  (exists calls,
     callsAt exampleDict [uZhong; uHua; uRen; uMin] true 0 = Ok calls
     /\ ~ (3, DictTok 2) ∈ calls /\ (1, DictTok 0) ∈ calls)
  /\ (exists segs,
        segmentWords exampleDict [uZhong; uHua; uRen; uMin] true = Ok segs
        /\ (2 <= length segs)%nat).
Proof.
  pose proof (searchMode_skips_whole_match exampleDict
                [uZhong; uHua; uRen; uMin]) as [Hcalls Hsegs].
  split.
  - destruct (Hcalls true 0%nat [DictTok 0; DictTok 2] uZhong)
      as (calls & Hc & _ & Hspec); [vm_compute; reflexivity|reflexivity|].
    exists calls. split; [exact Hc|]. split.
    + intros Hin.
      apply (Hspec (DictTok 2)
               (Token.mk [uZhong; uHua; uRen; uMin] 2 (f32_of_Z 2) []
                  [Segment.mk 0 6 (Some (DictTok 0));
                   Segment.mk 6 12 (Some (DictTok 1))])) in Hin;
        [|right; left|vm_compute; reflexivity].
      apply Hin. repeat split.
    + apply (Hspec (DictTok 0)
               (Token.mk [uZhong; uHua] 4 (f32_of_Z 1) []
                  [Segment.mk 0 3 (Some (PseudoTok uZhong));
                   Segment.mk 3 6 (Some (PseudoTok uHua))]));
        [left|vm_compute; reflexivity|].
      intros (_ & _ & Hloc). cbn in Hloc. lia.
  - destruct Hsegs as (segs & Hs & Hlen & _);
      [vm_compute; reflexivity|cbn; lia|].
    exists segs. split; assumption.
Defined.

Lemma pseudo_token_injection_witness :
  tokensAt exampleDict [uZhong; uHua; uRen; uMin] 1 = Ok []
  /\ [uZhong; uHua; uRen; uMin] !! 1%nat = Some uHua
  /\ exists calls,
       callsAt exampleDict [uZhong; uHua; uRen; uMin] true 1 = Ok calls
       /\ (1, PseudoTok uHua) ∈ calls.
Proof.
  assert (Ht : tokensAt exampleDict [uZhong; uHua; uRen; uMin] 1 = Ok [])
    by (vm_compute; reflexivity).
  assert (Hu : [uZhong; uHua; uRen; uMin] !! 1%nat = Some uHua) by reflexivity.
  split; [exact Ht|]. split; [exact Hu|].
  destruct (pseudo_token_injection exampleDict [uZhong; uHua; uRen; uMin] true
              1%nat [] uHua Ht Hu) as (calls & Hcalls & _ & Hiff & _).
  exists calls. split; [exact Hcalls|]. apply Hiff. left. reflexivity.
Defined.

Lemma LoadDictionary_skips_bad_records_witness :
  @discarded (uZhong ++ [x20; x31; x0a]) = true
  /\ @loadFromLines exampleStdlib
       [uBei ++ uJing ++ [x20; x31; x32; x38; x0a]; uZhong ++ [x20; x31; x0a]]
     = @loadFromLines exampleStdlib
         [uBei ++ uJing ++ [x20; x31; x32; x38; x0a]].
Proof.
  assert (Hd : discarded (uZhong ++ [x20; x31; x0a]) = true)
    by (vm_compute; reflexivity).
  split; [exact Hd|].
  exact (proj2 (@LoadDictionary_skips_bad_records exampleStdlib)
           [uBei ++ uJing ++ [x20; x31; x32; x38; x0a]]
           (uZhong ++ [x20; x31; x0a]) [] Hd).
Defined.

Lemma LoadDictionary_costs_witness :
  exists dict,
    @LoadDictionary exampleStdlib exampleSource = Ok dict
    /\ dict = exampleDict
    /\ forall t, t ∈ Dictionary.tokens dict ->
         Token.distance t
         = f32_sub (@Log2_f32 exampleStdlib (Dictionary.totalFrequency dict))
                   (@Log2_f32 exampleStdlib (Token.frequency t)).
Proof.
  destruct (@LoadDictionary_costs exampleStdlib exampleSource)
    as (dict & Hload & _ & Hcost).
  exists dict. split; [exact Hload|]. split; [|exact Hcost].
  unfold exampleDict. rewrite Hload. reflexivity.
Defined.

(** * Further properties of the code *)

(** ** More on [toLower] and [splitTextToWords] *)

Lemma toLowerByte_noUpper (c : byte) : isUpper (toLowerByte c) = false.
Proof. destruct c; reflexivity. Qed.

Lemma toLower_noUpper (t : Text) :
  Forall (fun c => isUpper c = false) (toLower t).
Proof.
  unfold toLower. apply Forall_fmap, Forall_true. intros c.
  apply toLowerByte_noUpper.
Qed.

Lemma toLower_b2z (t : Text) :
  b2z <$> toLower t
  = (fun c => if isUpper c then b2z c + 32 else b2z c) <$> t.
Proof.
  unfold toLower. rewrite <- list_fmap_compose. apply list_fmap_ext.
  intros i c _. apply toLowerByte_b2z.
Qed.

Section SplitterMore.
Context `{GoStdlib}.

Lemma flushRun_nonempty text output current inA start out1 :
  (current <= length text)%nat ->
  (inA = true -> (start <= current)%nat
                 /\ (current <> 0%nat -> (start < current)%nat)) ->
  Forall (fun u => u <> []) output ->
  flushRun text output current inA start = Ok out1 ->
  Forall (fun u => u <> []) out1.
Proof.
  intros Hcur Hrun Hout. unfold flushRun. destruct inA.
  - destruct (Hrun eq_refl) as [Hle Hlt].
    destruct (Nat.eqb_spec current 0) as [->|Hne]; cbn [negb].
    + intros [= <-]. assumption.
    + rewrite slice_ok by lia. rstep. intros [= <-].
      apply Forall_app. split; [assumption|]. constructor; [|constructor].
      intros Heq. apply (f_equal length) in Heq.
      rewrite length_toLower, length_take, length_drop in Heq.
      specialize (Hlt Hne). cbn in Heq. lia.
  - intros [= <-]. assumption.
Qed.

Lemma splitLoop_nonempty fuel : forall text output current inA start units,
  (current <= length text)%nat ->
  (inA = true -> (start <= current)%nat
                 /\ (current <> 0%nat -> (start < current)%nat)) ->
  Forall (fun u => u <> []) output ->
  splitLoop fuel text output current inA start = Ok units ->
  Forall (fun u => u <> []) units.
Proof.
  induction fuel as [|fuel IH];
    intros text output current inA start units Hcur Hrun Hout;
    cbn [splitLoop];
    destruct (Nat.ltb_spec current (length text)) as [Hlt|Hge];
    try discriminate; try (apply flushRun_nonempty; assumption).
  destruct (DecodeRune (drop current text)) as [r size] eqn:He.
  destruct (DecodeRune_drop_size _ _ _ _ Hlt He) as [Hs1 Hs2].
  destruct ((size <=? 2)%nat && (IsLetter r || IsNumber r)).
  - destruct inA; cbn [negb]; apply IH; try assumption; try lia;
      intros _; try destruct (Hrun eq_refl); lia.
  - destruct (flushRun text output current inA start) as [out1| |] eqn:Hfl;
      rstep; try discriminate.
    rewrite slice_ok by lia. rstep. apply IH; [lia|intros [=]|].
    apply Forall_app. split.
    + exact (flushRun_nonempty text output current inA start out1
               Hcur Hrun Hout Hfl).
    + constructor; [|constructor]. intros Heq.
      apply (f_equal length) in Heq.
      rewrite length_take, length_drop in Heq. cbn in Heq. lia.
Qed.

Lemma splitTextToWords_nonempty_units (text : Text) (units : list Text) :
  splitTextToWords text = Ok units -> Forall (fun u => u <> []) units.
Proof.
  unfold splitTextToWords. apply splitLoop_nonempty.
  - lia.
  - intros _. split; lia.
  - constructor.
Qed.

Lemma splitTextToWords_noUpper_units (text : Text) (units : list Text) :
  splitTextToWords text = Ok units ->
  Forall (Forall (fun c => isUpper c = false)) units.
Proof.
  intros Hsplit. apply Forall_concat.
  rewrite (splitTextToWords_concat text units Hsplit).
  apply toLower_noUpper.
Qed.

Lemma splitTextToWords_normal (text : Text) (units : list Text) :
  splitTextToWords text = Ok units ->
  splitTextToWords (concat units) = Ok units.
Proof.
  intros Hsplit. rewrite (splitTextToWords_concat text units Hsplit).
  rewrite splitTextToWords_toLower. exact Hsplit.
Qed.

Lemma asciiAlnum_decode (c : byte) (rest : Text) :
  asciiAlnum c = true ->
  DecodeRune (c :: rest) = (b2z c, 1%nat)
  /\ IsLetter (b2z c) || IsNumber (b2z c) = true.
Proof.
  unfold asciiAlnum, asciiLetter, asciiDigit. intros Ha.
  assert (Hlt : b2z c < 0x80).
  { repeat (apply orb_true_iff in Ha; destruct Ha as [Ha|Ha]);
      apply andb_true_iff in Ha; lia. }
  unfold DecodeRune. rewrite (proj2 (first_AS (b2z c)) Hlt).
  split; [reflexivity|]. unfold IsLetter, IsNumber.
  destruct (Z.ltb_spec (b2z c) 128); [|lia]. exact Ha.
Qed.

Lemma splitLoop_alnum fuel : forall text current,
  Forall (fun c => asciiAlnum c = true) text ->
  (current <= length text)%nat -> (length text - current <= fuel)%nat ->
  splitLoop fuel text [] current true 0
  = flushRun text [] (length text) true 0.
Proof.
  induction fuel as [|fuel IH]; intros text current Hall Hcur Hfuel;
    cbn [splitLoop];
    destruct (Nat.ltb_spec current (length text)) as [Hlt|Hge];
    try lia; try (replace current with (length text) by lia; reflexivity).
  destruct (lookup_lt_is_Some_2 text current Hlt) as (c & Hc).
  rewrite (drop_S _ _ _ Hc).
  assert (Ha : asciiAlnum c = true).
  { rewrite List.Forall_forall in Hall. apply Hall.
    apply list_elem_of_In, list_elem_of_lookup. eauto. }
  destruct (asciiAlnum_decode c (drop (S current) text) Ha) as [-> ->].
  cbn [Nat.leb andb negb]. apply IH; [assumption|lia|lia].
Qed.

End SplitterMore.

(** X1. [toLower] keeps the length of its input, is idempotent, leaves no
    byte in the range A..Z, and changes a byte only by adding 32 to one in
    that range. *)
Theorem toLower_folds_ascii_upper (t : Text) :
  length (toLower t) = length t
  /\ toLower (toLower t) = toLower t
  /\ Forall (fun c => isUpper c = false) (toLower t)
  /\ b2z <$> toLower t
     = (fun c => if isUpper c then b2z c + 32 else b2z c) <$> t.
Proof.
  split; [apply length_toLower|]. split; [apply toLower_idem|].
  split; [apply toLower_noUpper|apply toLower_b2z].
Qed.

Section SplitterProperties.
Context `{GoStdlib}.

(** X2. [splitTextToWords] returns on every input, and its units, put end
    to end, are the input with the bytes A..Z lowered. *)
Theorem splitTextToWords_units_spell_input (text : Text) :
  exists units,
    splitTextToWords text = Ok units /\ concat units = toLower text.
Proof.
  destruct (splitTextToWords_ok text) as (units & Hsplit & _).
  exists units. split; [exact Hsplit|].
  apply splitTextToWords_concat. exact Hsplit.
Qed.

(** X3. No unit that [splitTextToWords] returns is empty, none holds a
    byte in the range A..Z, and there are at most as many units as the
    input has bytes. *)
Theorem splitTextToWords_units_shape (text : Text) :
  exists units,
    splitTextToWords text = Ok units
    /\ Forall (fun u => u <> []) units
    /\ Forall (Forall (fun c => isUpper c = false)) units
    /\ (length units <= length text)%nat.
Proof.
  destruct (splitTextToWords_ok text) as (units & Hsplit & Hlen & _).
  pose proof (splitTextToWords_nonempty_units text units Hsplit) as Hne.
  exists units. split; [exact Hsplit|]. split; [exact Hne|]. split.
  - exact (splitTextToWords_noUpper_units text units Hsplit).
  - rewrite <- Hlen. clear Hsplit Hlen.
    induction Hne as [|u units Hu _ IH]; [cbn; lia|].
    cbn [length]. unfold textSliceByteLength in *. cbn [sum_list_with].
    destruct u; [congruence|]. cbn [length]. lia.
Qed.

(** X4. A non-empty input made of ASCII letters and digits only is one
    unit: the input in lower case. *)
Theorem splitTextToWords_alnum_run (text : Text) :
  text <> [] -> Forall (fun c => asciiAlnum c = true) text ->
  splitTextToWords text = Ok [toLower text].
Proof.
  intros Hne Hall. unfold splitTextToWords.
  rewrite (splitLoop_alnum (length text) text 0%nat Hall) by lia.
  unfold flushRun. destruct text as [|c text]; [congruence|].
  cbn [length Nat.eqb negb]. rewrite slice_ok by (cbn [length]; lia). rstep.
  rewrite Nat.sub_0_r, drop_0.
  rewrite take_ge by (cbn [length]; lia). reflexivity.
Qed.

(** X5. [InternalSegment] and [Segment] give the same result on an input
    and on the input with the bytes A..Z lowered: outcome, tokens and byte
    positions. *)
Theorem InternalSegment_ignores_ascii_case (dict : Dictionary.t)
    (bytes : Text) (searchMode : bool) :
  InternalSegment dict (toLower bytes) searchMode
  = InternalSegment dict bytes searchMode
  /\ Segment dict (toLower bytes) = Segment dict bytes.
Proof.
  unfold Segment, InternalSegment, internalSegment.
  rewrite length_toLower, splitTextToWords_toLower. split; reflexivity.
Qed.

End SplitterProperties.

Lemma splitTextToWords_alnum_run_witness :
  [x47; x6f; x31] <> []
  /\ Forall (fun c => asciiAlnum c = true) [x47; x6f; x31]
  /\ @splitTextToWords exampleStdlib [x47; x6f; x31] = Ok [[x67; x6f; x31]].
Proof.
  assert (Hne : [x47; x6f; x31] <> []) by discriminate.
  assert (Hall : Forall (fun c => asciiAlnum c = true) [x47; x6f; x31])
    by (repeat constructor).
  split; [exact Hne|]. split; [exact Hall|].
  exact (@splitTextToWords_alnum_run exampleStdlib [x47; x6f; x31] Hne Hall).
Defined.

(** ** More on [segmentWords] *)

Lemma segText_tokens dict (segs : list Segment.t) (toks : list TokenPtr) :
  Segment.token <$> segs = Some <$> toks ->
  segText dict <$> segs = (fun tok => tokText dict (Some tok)) <$> toks.
Proof.
  revert toks. induction segs as [|s segs IH]; intros [|tok toks] Heq;
    try discriminate; [reflexivity|].
  cbn in Heq. injection Heq as Hs Hrest. cbn [fmap list_fmap].
  unfold segText at 1. rewrite Hs. f_equal. apply IH. exact Hrest.
Qed.

Section ChainMore.
Variable dict : Dictionary.t.
Variable text : list Text.
Variable searchMode : bool.
Variable jumpers : list jumper.

Lemma chain_texts m toks :
  Chain dict text searchMode jumpers m toks ->
  concat ((fun tok => tokText dict (Some tok)) <$> toks) = take m text.
Proof.
  revert toks. induction m as [m IH] using lt_wf_ind. intros toks Hch.
  inversion Hch as [|m' j tok toks' Hj Htok Hgood Hrest]; subst;
    [rewrite take_0; reflexivity|].
  destruct Hgood as (t & Hd & Hlen & Htxt & _). specialize (Hrest t Hd).
  apply IH in Hrest; [|lia].
  rewrite fmap_app, concat_app, Hrest. cbn [fmap list_fmap concat].
  unfold tokText. rewrite Hd, app_nil_r.
  remember (length (Token.text t)) as L eqn:HL.
  rewrite <- Htxt, take_take_drop. f_equal. lia.
Qed.

Lemma chain_good m toks :
  Chain dict text searchMode jumpers m toks ->
  Forall (fun tok => exists i, GoodTok dict text searchMode i tok) toks.
Proof.
  revert toks. induction m as [m IH] using lt_wf_ind. intros toks Hch.
  inversion Hch as [|m' j tok toks' Hj Htok Hgood Hrest]; subst; [constructor|].
  pose proof Hgood as (t & Hd & Hlen & _). specialize (Hrest t Hd).
  apply Forall_app. split; [eapply IH; [|eassumption]; lia|].
  constructor; [|constructor]. eauto.
Qed.

End ChainMore.

Lemma bytePositions_spans dict : forall segs from segs',
  bytePositions dict from segs = Ok segs' ->
  Forall (spansToken dict) segs'.
Proof.
  induction segs as [|s segs IH]; intros from segs'; cbn [bytePositions].
  - intros [= <-]. constructor.
  - destruct (deref dict (Segment.token s)) as [t| |] eqn:Hd; rstep;
      try discriminate.
    destruct (bytePositions dict _ segs) as [rest| |] eqn:Hrest; rstep;
      try discriminate.
    intros [= <-]. constructor; [|eapply IH; eassumption].
    unfold spansToken, segText, tokText. cbn. rewrite Hd. reflexivity.
Qed.

Lemma segmentWords_spans dict text searchMode segs :
  segmentWords dict text searchMode = Ok segs ->
  Forall (spansToken dict) segs.
Proof.
  unfold segmentWords.
  destruct (searchMode && (length text =? 1)%nat);
    [intros [= <-]; constructor|].
  destruct (forwardPass dict text searchMode) as [jumpers| |]; rstep;
    try discriminate.
  destruct (countSegments _ _ _ _ _) as [numSeg| |]; rstep; try discriminate.
  destruct (makeSegments numSeg) as [out| |]; rstep; try discriminate.
  destruct (fillSegments _ _ _ _ _ _) as [filled| |]; rstep; try discriminate.
  apply bytePositions_spans.
Qed.

Lemma goodTok_bytes dict text searchMode i tok :
  Forall (fun u => u <> []) text ->
  GoodTok dict text searchMode i tok ->
  (1 <= textSliceByteLength (tokText dict (Some tok)))%nat.
Proof.
  intros Hne (t & Hd & Hlen & Htxt & _). unfold tokText. rewrite Hd.
  assert (Hall : Forall (fun u => u <> []) (Token.text t)).
  { rewrite <- Htxt. apply Forall_take, Forall_drop. exact Hne. }
  destruct (Token.text t) as [|u rest]; [cbn in Hlen; lia|].
  inversion Hall as [|? ? Hu _]; subst.
  unfold textSliceByteLength. cbn [sum_list_with].
  destruct u; [congruence|]. cbn [length]. lia.
Qed.

(** What [segmentWords] returns beyond the cover of the bytes. *)
Lemma segmentWords_spells dict text searchMode :
  noEmptyToken dict = true ->
  (searchMode = true -> length text <> 1%nat) ->
  exists segs,
    segmentWords dict text searchMode = Ok segs
    /\ concat (segText dict <$> segs) = text
    /\ Forall (spansToken dict) segs
    /\ Forall (fun s => exists t, deref dict (Segment.token s) = Ok t
                 /\ (1 <= length (Token.text t))%nat) segs
    /\ (length segs <= length text)%nat
    /\ (text <> [] -> segs <> [])
    /\ (Forall (fun u => u <> []) text ->
        Forall (fun s => (Segment.start s < Segment.end_ s)%nat) segs).
Proof.
  intros Hwf Hmode.
  destruct (segmentWords_run dict text searchMode Hwf Hmode)
    as (jumpers & toks & out & segs & _ & _ & _ & Hch & _ & _ & Hseg
        & Htoks & _).
  pose proof (segmentWords_spans _ _ _ _ Hseg) as Hspans.
  pose proof (segText_tokens dict segs toks Htoks) as Htexts.
  exists segs. split; [exact Hseg|]. split.
  { rewrite Htexts, (chain_texts _ _ _ _ _ _ Hch), take_ge by lia.
    reflexivity. }
  split; [exact Hspans|].
  assert (Hlook : forall s, s ∈ segs ->
            exists tok, Segment.token s = Some tok /\ tok ∈ toks).
  { intros s Hs. apply list_elem_of_lookup in Hs. destruct Hs as (i & Hs).
    assert (Hts : (Segment.token <$> segs) !! i = Some (Segment.token s))
      by (rewrite list_lookup_fmap, Hs; reflexivity).
    rewrite Htoks, list_lookup_fmap in Hts.
    destruct (toks !! i) as [tok|] eqn:Htok; [|discriminate].
    cbn in Hts. injection Hts as Hts. exists tok. split; [auto|].
    apply list_elem_of_lookup. eauto. }
  split.
  { pose proof (chain_derefs _ _ _ _ _ _ Hch) as Hder.
    rewrite List.Forall_forall in Hder. apply List.Forall_forall.
    intros s Hs. apply list_elem_of_In in Hs.
    destruct (Hlook s Hs) as (tok & Hst & Hin).
    destruct (Hder tok) as (t & Hd & Hl & _); [apply list_elem_of_In; auto|].
    exists t. rewrite Hst. auto. }
  split.
  { rewrite (fmap_token_length _ _ Htoks).
    apply (chain_length _ _ _ _ _ _ Hch). }
  split.
  { intros Hne ->. cbn in Htoks. symmetry in Htoks.
    apply fmap_nil_inv in Htoks.
    apply (chain_positive _ _ _ _ _ _ Hch); [|assumption].
    destruct text; [congruence|cbn; lia]. }
  intros Hunits.
  pose proof (chain_good _ _ _ _ _ _ Hch) as Hgood.
  rewrite List.Forall_forall in Hgood, Hspans. apply List.Forall_forall.
  intros s Hs. pose proof (Hspans s Hs) as Hspan.
  apply list_elem_of_In in Hs.
  destruct (Hlook s Hs) as (tok & Hst & Hin).
  destruct (Hgood tok) as (i & Hg); [apply list_elem_of_In; auto|].
  pose proof (goodTok_bytes _ _ _ _ _ Hunits Hg) as Hb.
  unfold spansToken, segText in Hspan. rewrite Hst in Hspan. lia.
Qed.

Section SegmentProperties.
Context `{GoStdlib}.

Lemma splitTextToWords_nil : splitTextToWords [] = Ok [].
Proof. reflexivity. Qed.

(** X6. For a dictionary without an empty term, the texts of the tokens
    of the segments that [InternalSegment] returns, put end to end, are the
    units of the input, and their bytes are the input in lower case; every
    segment spans as many bytes as the text of its token has. In search
    mode this is for an input that does not split to exactly one unit. *)
Theorem InternalSegment_tokens_spell_units (dict : Dictionary.t)
    (bytes : Text) (searchMode : bool) :
  noEmptyToken dict = true ->
  (searchMode = true ->
   forall units, splitTextToWords bytes = Ok units ->
                 length units <> 1%nat) ->
  exists units segs,
    splitTextToWords bytes = Ok units
    /\ InternalSegment dict bytes searchMode = Ok segs
    /\ concat (segText dict <$> segs) = units
    /\ concat (concat (segText dict <$> segs)) = toLower bytes
    /\ Forall (spansToken dict) segs.
Proof.
  intros Hwf Hmode.
  destruct (splitTextToWords_ok bytes) as (units & Hsplit & _).
  assert (Hmode' : searchMode = true -> length units <> 1%nat).
  { intros Hs. exact (Hmode Hs units Hsplit). }
  destruct (segmentWords_spells dict units searchMode Hwf Hmode')
    as (segs & Hseg & Hspell & Hspans & _).
  destruct bytes as [|b bytes].
  - rewrite splitTextToWords_nil in Hsplit. injection Hsplit as <-.
    exists [], []. repeat split; constructor.
  - exists units, segs. split; [exact Hsplit|].
    unfold InternalSegment, internalSegment. cbn [length Nat.eqb].
    rewrite Hsplit. rstep. split; [exact Hseg|]. split; [exact Hspell|].
    split; [|exact Hspans].
    transitivity (concat units); [f_equal; exact Hspell|].
    apply splitTextToWords_concat. exact Hsplit.
Qed.

(** X7. For a dictionary without an empty term and a non-empty input,
    [InternalSegment] returns at least one segment and at most one per
    unit; every segment has a token of at least one unit and ends after its
    start. In search mode this is for an input that does not split to
    exactly one unit. *)
Theorem InternalSegment_segments_nonempty (dict : Dictionary.t)
    (bytes : Text) (searchMode : bool) :
  noEmptyToken dict = true -> bytes <> [] ->
  (searchMode = true ->
   forall units, splitTextToWords bytes = Ok units ->
                 length units <> 1%nat) ->
  exists units segs,
    splitTextToWords bytes = Ok units
    /\ InternalSegment dict bytes searchMode = Ok segs
    /\ (1 <= length segs <= length units)%nat
    /\ Forall (fun s => (Segment.start s < Segment.end_ s)%nat) segs
    /\ Forall (fun s => exists t, deref dict (Segment.token s) = Ok t
                 /\ (1 <= length (Token.text t))%nat) segs.
Proof.
  intros Hwf Hne Hmode.
  destruct (splitTextToWords_ok bytes) as (units & Hsplit & Hlen & _).
  assert (Hmode' : searchMode = true -> length units <> 1%nat).
  { intros Hs. exact (Hmode Hs units Hsplit). }
  destruct (segmentWords_spells dict units searchMode Hwf Hmode')
    as (segs & Hseg & _ & _ & Hder & Hle & Hsome & Hlt).
  exists units, segs. split; [exact Hsplit|].
  destruct bytes as [|b bytes]; [congruence|].
  unfold InternalSegment, internalSegment. cbn [length Nat.eqb].
  rewrite Hsplit. rstep. split; [exact Hseg|].
  assert (Hunits : units <> []).
  { intros ->. cbn in Hlen. discriminate. }
  split.
  - split; [|exact Hle]. specialize (Hsome Hunits).
    destruct segs; [congruence|cbn; lia].
  - split; [|exact Hder]. apply Hlt.
    apply (splitTextToWords_nonempty_units _ _ Hsplit).
Qed.


End SegmentProperties.

(** X8. For a dictionary without an empty term the forward pass of
    [segmentWords] returns one cell per unit, and every cell [i] holds a
    token whose text is the stretch of the text that ends at unit [i]; in
    search mode that token is shorter than the whole text. *)
Theorem forwardPass_cells_match_text (dict : Dictionary.t)
    (text : list Text) (searchMode : bool) :
  noEmptyToken dict = true ->
  (searchMode = true -> length text <> 1%nat) ->
  exists jumpers,
    forwardPass dict text searchMode = Ok jumpers
    /\ length jumpers = length text
    /\ forall i j, jumpers !! i = Some j ->
         exists tok t,
           token j = Some tok /\ deref dict (Some tok) = Ok t
           /\ (length (Token.text t) <= i + 1)%nat
           /\ take (length (Token.text t))
                   (drop (i + 1 - length (Token.text t)) text)
              = Token.text t
           /\ (searchMode = true ->
               (length (Token.text t) < length text)%nat).
Proof.
  intros Hwf Hmode.
  destruct (forwardPass_ok dict text searchMode Hwf Hmode)
    as (jumpers & Hfwd & [Hlen Hcells] & Hfilled).
  exists jumpers. split; [exact Hfwd|]. split; [exact Hlen|].
  intros i j Hj. pose proof (lookup_lt_Some _ _ _ Hj) as Hi.
  destruct (Hfilled i ltac:(lia)) as (j' & tok & Hj' & Htok).
  rewrite Hj in Hj'. injection Hj' as <-.
  specialize (Hcells i j Hj). unfold CellOk in Hcells. rewrite Htok in Hcells.
  destruct Hcells as (t & Hd & Hl & Htxt & Hs).
  exists tok, t. repeat split; try assumption; lia.
Qed.

Lemma InternalSegment_tokens_spell_units_witness :
  noEmptyToken exampleDict = true
  /\ exists units segs,
       @splitTextToWords exampleStdlib (uZhong ++ uHua ++ uRen ++ uMin)
       = Ok units
       /\ @InternalSegment exampleStdlib exampleDict
            (uZhong ++ uHua ++ uRen ++ uMin) true = Ok segs
       /\ concat (segText exampleDict <$> segs) = units
       /\ concat (concat (segText exampleDict <$> segs))
          = toLower (uZhong ++ uHua ++ uRen ++ uMin)
       /\ Forall (spansToken exampleDict) segs.
Proof.
  assert (Hwf : noEmptyToken exampleDict = true) by (vm_compute; reflexivity).
  split; [exact Hwf|].
  apply (@InternalSegment_tokens_spell_units exampleStdlib exampleDict
           (uZhong ++ uHua ++ uRen ++ uMin) true Hwf).
  intros _ units Hu. vm_compute in Hu. injection Hu as <-. cbn. lia.
Defined.

Lemma InternalSegment_segments_nonempty_witness :
  noEmptyToken exampleDict = true
  /\ uZhong ++ uHua ++ uRen ++ uMin <> []
  /\ exists units segs,
       @splitTextToWords exampleStdlib (uZhong ++ uHua ++ uRen ++ uMin)
       = Ok units
       /\ @InternalSegment exampleStdlib exampleDict
            (uZhong ++ uHua ++ uRen ++ uMin) false = Ok segs
       /\ (1 <= length segs <= length units)%nat
       /\ Forall (fun s => (Segment.start s < Segment.end_ s)%nat) segs
       /\ Forall (fun s => exists t,
                    deref exampleDict (Segment.token s) = Ok t
                    /\ (1 <= length (Token.text t))%nat) segs.
Proof.
  assert (Hwf : noEmptyToken exampleDict = true) by (vm_compute; reflexivity).
  assert (Hne : uZhong ++ uHua ++ uRen ++ uMin <> []) by discriminate.
  split; [exact Hwf|]. split; [exact Hne|].
  apply (@InternalSegment_segments_nonempty exampleStdlib exampleDict
           (uZhong ++ uHua ++ uRen ++ uMin) false Hwf Hne).
  discriminate.
Defined.

Lemma forwardPass_cells_match_text_witness :
  noEmptyToken exampleDict = true
  /\ exists jumpers,
       forwardPass exampleDict [uZhong; uHua; uRen; uMin] false = Ok jumpers
       /\ length jumpers = 4%nat
       /\ forall i j, jumpers !! i = Some j ->
            exists tok t,
              token j = Some tok /\ deref exampleDict (Some tok) = Ok t
              /\ (length (Token.text t) <= i + 1)%nat
              /\ take (length (Token.text t))
                      (drop (i + 1 - length (Token.text t))
                            [uZhong; uHua; uRen; uMin])
                 = Token.text t
              /\ (false = true -> (length (Token.text t) < 4)%nat).
Proof.
  assert (Hwf : noEmptyToken exampleDict = true) by (vm_compute; reflexivity).
  split; [exact Hwf|].
  apply (forwardPass_cells_match_text exampleDict
           [uZhong; uHua; uRen; uMin] false Hwf).
  discriminate.
Defined.

(** ** A text in which no term of the dictionary occurs *)

Lemma lookupTokens_no_tokens dict words :
  Dictionary.tokens dict = [] -> lookupTokens dict words = [].
Proof.
  intros Hd. unfold lookupTokens, tokensWithText. rewrite Hd. cbn [imap omap].
  induction (seq 0 (S (length words))) as [|k ks IH]; [reflexivity|].
  cbn [flat_map]. rewrite IH. reflexivity.
Qed.

Lemma tokensAt_no_tokens dict text current :
  Dictionary.tokens dict = [] -> (current < length text)%nat ->
  tokensAt dict text current = Ok [].
Proof.
  intros Hd Hc. unfold tokensAt, minInt.
  rewrite slice_ok;
    [rstep; rewrite lookupTokens_no_tokens by assumption; reflexivity| |];
    destruct (Nat.ltb_spec (length text)
                (current + Dictionary.maxTokenLength dict)); lia.
Qed.

Lemma noMatch_noEmptyToken dict text :
  text <> [] -> tokensAt dict text 0 = Ok [] -> noEmptyToken dict = true.
Proof.
  intros Hne Ht. unfold tokensAt in Ht.
  destruct (slice _ _ _) as [words| |]; try discriminate.
  cbn [mbind result_bind] in Ht. injection Ht as Hl.
  unfold noEmptyToken. apply forallb_forall. intros t Hin.
  destruct (Nat.eqb_spec (length (Token.text t)) 0) as [Hz|]; [|reflexivity].
  exfalso. apply list_elem_of_In, list_elem_of_lookup in Hin.
  destruct Hin as (i & Hi).
  assert (Hmem : DictTok i ∈ lookupTokens dict words).
  { apply elem_of_lookupTokens. exists i, t, 0%nat.
    split; [reflexivity|]. split; [assumption|]. split; [lia|].
    rewrite take_0. destruct (Token.text t); [reflexivity|discriminate]. }
  rewrite Hl in Hmem. inversion Hmem.
Qed.

Section NoMatch.
Variable dict : Dictionary.t.
Variable text : list Text.
Variable searchMode : bool.
Hypothesis Hno : forall current, (current < length text)%nat ->
  tokensAt dict text current = Ok [].

Lemma callsAt_noMatch current u :
  text !! current = Some u ->
  callsAt dict text searchMode current = Ok [(Z.of_nat current, PseudoTok u)].
Proof.
  intros Hu. pose proof (lookup_lt_Some _ _ _ Hu) as Hc.
  unfold callsAt. rewrite (Hno current Hc). rstep. cbn [matchCalls]. rstep.
  unfold pseudoCall. rstep. rewrite (index_ok _ _ _ Hu). reflexivity.
Qed.

Lemma forwardStep_noMatch jumpers current :
  (current < length text)%nat -> pseudoUpTo text current jumpers ->
  exists jumpers',
    forwardStep dict text searchMode jumpers current = Ok jumpers'
    /\ pseudoUpTo text (S current) jumpers'.
Proof.
  intros Hc (Hlen & Hbefore & Hafter).
  destruct (lookup_lt_is_Some_2 text current Hc) as (u & Hu).
  assert (Hb : exists b, baseDistanceAt jumpers current = Ok b).
  { unfold baseDistanceAt. destruct (Nat.eqb_spec current 0) as [|Hne];
      [eauto|].
    destruct (Hbefore (current - 1)%nat) as (j & _ & Hj & _); [lia|].
    replace (Z.of_nat current - 1) with (Z.of_nat (current - 1)) by lia.
    rewrite (index_ok _ _ _ Hj). rstep. eauto. }
  destruct Hb as (b & Hb).
  rewrite forwardStep_calls, Hb. rstep.
  rewrite (callsAt_noMatch current u Hu). rstep. cbn [foldM].
  unfold updateAt. cbn [fst snd].
  rewrite (index_ok _ _ _ (Hafter current ltac:(lia))). rstep.
  unfold updateJumper. cbn [deref]. rstep. cbn [minDistance zeroJumper].
  replace (f32_eqb (S754_zero false) (S754_zero false)) with true
    by reflexivity.
  cbn [orb]. rstep. rewrite store_ok by lia. rstep.
  eexists. split; [reflexivity|].
  split; [rewrite length_insert; exact Hlen|]. split.
  - intros i Hi. destruct (decide (i = current)) as [->|Hne].
    + eexists. exists u. rewrite list_lookup_insert_eq by lia. auto.
    + rewrite list_lookup_insert_ne by lia. apply Hbefore. lia.
  - intros i Hi. rewrite list_lookup_insert_ne by lia. apply Hafter. lia.
Qed.

Lemma forwardLoop_noMatch : forall count current jumpers,
  (current + count = length text)%nat -> pseudoUpTo text current jumpers ->
  exists jumpers',
    foldM (forwardStep dict text searchMode) jumpers (seq current count)
    = Ok jumpers'
    /\ pseudoUpTo text (length text) jumpers'.
Proof.
  induction count as [|count IH]; intros current jumpers Hsum Hinv.
  - exists jumpers. split; [reflexivity|].
    replace (length text) with current by lia. exact Hinv.
  - destruct (forwardStep_noMatch jumpers current ltac:(lia) Hinv)
      as (js1 & Hstep & Hinv1).
    destruct (IH (S current) js1 ltac:(lia) Hinv1) as (js2 & Hloop & Hinv2).
    exists js2. cbn [seq foldM]. rewrite Hstep. rstep. auto.
Qed.

Lemma forwardPass_noMatch :
  exists jumpers,
    forwardPass dict text searchMode = Ok jumpers
    /\ pseudoUpTo text (length text) jumpers.
Proof.
  unfold forwardPass. apply forwardLoop_noMatch; [lia|].
  split; [apply length_replicate|]. split; [intros i Hi; lia|].
  intros i Hi. apply lookup_replicate_2. lia.
Qed.

Lemma chain_noMatch jumpers : pseudoUpTo text (length text) jumpers ->
  forall m toks, (m <= length text)%nat ->
  Chain dict text searchMode jumpers m toks ->
  toks = PseudoTok <$> take m text.
Proof.
  intros (_ & Hcells & _). induction m as [m IH] using lt_wf_ind.
  intros toks Hm Hch.
  inversion Hch as [|m' j tok toks' Hj Htok Hgood Hrest]; subst;
    [rewrite take_0; reflexivity|].
  destruct (Hcells m' ltac:(lia)) as (j' & u & Hj' & Hu & Htok').
  rewrite Hj in Hj'. injection Hj' as <-. rewrite Htok in Htok'.
  injection Htok' as ->.
  specialize (Hrest (pseudoToken u) eq_refl). cbn in Hrest.
  replace (m' + 1 - 1)%nat with m' in Hrest by lia.
  rewrite (IH m' ltac:(lia) toks' ltac:(lia) Hrest).
  rewrite (take_S_r _ _ _ Hu), fmap_app. reflexivity.
Qed.

Lemma segmentWords_noMatch :
  (searchMode = true -> length text <> 1%nat) ->
  exists segs,
    segmentWords dict text searchMode = Ok segs
    /\ Segment.token <$> segs = (fun u => Some (PseudoTok u)) <$> text.
Proof.
  intros Hmode. destruct (decide (text = [])) as [He|Hne].
  { exists []. rewrite He.
    split; [destruct searchMode; reflexivity|reflexivity]. }
  assert (Hpos : (0 < length text)%nat).
  { destruct text; [congruence|cbn; lia]. }
  assert (Hwf : noEmptyToken dict = true).
  { apply (noMatch_noEmptyToken dict text Hne). apply Hno. exact Hpos. }
  destruct (segmentWords_run dict text searchMode Hwf Hmode)
    as (jumpers & toks & out & segs & Hfwd & _ & _ & Hch & _ & _ & Hseg
        & Htoks & _).
  destruct forwardPass_noMatch as (jumpers' & Hfwd' & Hinv).
  rewrite Hfwd in Hfwd'. injection Hfwd' as <-.
  rewrite (chain_noMatch jumpers Hinv (length text) toks (Nat.le_refl _) Hch)
    in Htoks.
  rewrite take_ge in Htoks by lia.
  exists segs. split; [exact Hseg|]. rewrite Htoks.
  rewrite <- list_fmap_compose. reflexivity.
Qed.

End NoMatch.

(** X9. When no term of the dictionary is found at any position of the
    text, [segmentWords] returns one segment per unit, in order, each with
    the pseudo token of its unit; so it does, in plain mode, on every text
    for a dictionary without terms. *)
Theorem segmentWords_unknown_text (dict : Dictionary.t) :
  (forall text searchMode,
     (forall current, (current < length text)%nat ->
        tokensAt dict text current = Ok []) ->
     (searchMode = true -> length text <> 1%nat) ->
     exists segs,
       segmentWords dict text searchMode = Ok segs
       /\ Segment.token <$> segs = (fun u => Some (PseudoTok u)) <$> text)
  /\ (Dictionary.tokens dict = [] ->
      forall text, exists segs,
        segmentWords dict text false = Ok segs
        /\ Segment.token <$> segs = (fun u => Some (PseudoTok u)) <$> text).
Proof.
  split.
  - intros text searchMode Hno Hmode.
    exact (segmentWords_noMatch dict text searchMode Hno Hmode).
  - intros Hd text. apply segmentWords_noMatch; [|discriminate].
    intros current Hc. apply tokensAt_no_tokens; assumption.
Qed.

Lemma segmentWords_unknown_text_witness :
  (forall current, (current < length [uRen; uHua])%nat ->
     tokensAt exampleDict [uRen; uHua] current = Ok [])
  /\ segmentWords exampleDict [uRen; uHua] true
     = Ok [Segment.mk 0 3 (Some (PseudoTok uRen));
           Segment.mk 3 6 (Some (PseudoTok uHua))]
  /\ Dictionary.tokens NewDictionary = []
  /\ exists segs,
       segmentWords NewDictionary [uZhong; uHua] false = Ok segs
       /\ Segment.token <$> segs
          = (fun u => Some (PseudoTok u)) <$> [uZhong; uHua].
Proof.
  assert (Hno : forall current, (current < length [uRen; uHua])%nat ->
            tokensAt exampleDict [uRen; uHua] current = Ok []).
  { intros [|[|current]] Hc; [vm_compute; reflexivity ..|cbn in Hc; lia]. }
  split; [exact Hno|].
  destruct (proj1 (segmentWords_unknown_text exampleDict)
              [uRen; uHua] true Hno) as (segs & Hseg & _);
    [cbn; lia|].
  split; [vm_compute; reflexivity|]. split; [reflexivity|].
  exact (proj2 (segmentWords_unknown_text NewDictionary) eq_refl
           [uZhong; uHua]).
Defined.

(** ** The terms of a loaded dictionary *)

Lemma tokText_core (d d' : Dictionary.t) (tok : option TokenPtr) :
  core <$> Dictionary.tokens d' = core <$> Dictionary.tokens d ->
  tokText d' tok = tokText d tok.
Proof.
  intros Hcore. destruct tok as [[i|u]|]; [|reflexivity..].
  unfold tokText, deref.
  apply (f_equal (fun l => l !! i)) in Hcore.
  rewrite !list_lookup_fmap in Hcore.
  destruct (Dictionary.tokens d' !! i) as [t'|],
           (Dictionary.tokens d !! i) as [t|]; cbn in Hcore;
    try discriminate; [|reflexivity].
  injection Hcore as Ht _. exact Ht.
Qed.

Lemma subSegmentation_core (d d' : Dictionary.t) text segs :
  core <$> Dictionary.tokens d' = core <$> Dictionary.tokens d ->
  subSegmentation d text segs -> subSegmentation d' text segs.
Proof.
  intros Hcore [Hone Hmore].
  assert (Hseg : forall s, segText d' s = segText d s)
    by (intros s; apply tokText_core; exact Hcore).
  split; [exact Hone|]. intros Hlen.
  destruct (Hmore Hlen) as (H2 & Hcov & Hspell & Hshort).
  split; [exact H2|]. split; [exact Hcov|]. split.
  - rewrite <- Hspell. f_equal. apply list_fmap_ext. intros ? s _. apply Hseg.
  - eapply List.Forall_impl; [|exact Hshort]. cbn. intros s Hs.
    rewrite Hseg. exact Hs.
Qed.

Lemma keepSegments_all dict : forall segs,
  Forall (fun s => exists t, deref dict (Segment.token s) = Ok t
                     /\ (1 <= length (Token.text t))%nat) segs ->
  keepSegments dict segs = Ok segs.
Proof.
  induction segs as [|s segs IH]; intros Hall; [reflexivity|].
  inversion Hall as [|? ? (t & Ht & Hlen) Hrest]; subst.
  cbn [keepSegments]. rewrite Ht. rstep. rewrite (IH Hrest). rstep.
  destruct (Nat.ltb_spec 0 (length (Token.text t))); [reflexivity|lia].
Qed.

Lemma Forall_tokens (P : option TokenPtr -> Prop) :
  forall (segs : list Segment.t) (toks : list TokenPtr),
  Segment.token <$> segs = Some <$> toks ->
  Forall (fun tok => P (Some tok)) toks ->
  Forall (fun s => P (Segment.token s)) segs.
Proof.
  induction segs as [|s segs IH]; intros [|tok toks] Heq Hall;
    try discriminate; [constructor|].
  cbn in Heq. injection Heq as Hs Hrest.
  inversion Hall as [|? ? Htok Hall']; subst.
  constructor; [rewrite Hs; exact Htok|]. eapply IH; eassumption.
Qed.

(** The sub-segmentation that [segmentWords] computes in search mode. *)
Lemma segmentWords_search dict text :
  noEmptyToken dict = true ->
  exists segs,
    segmentWords dict text true = Ok segs
    /\ keepSegments dict segs = Ok segs
    /\ subSegmentation dict text segs.
Proof.
  intros Hwf. destruct (decide (length text = 1%nat)) as [Hone|Hone].
  { exists []. unfold segmentWords. rewrite Hone.
    split; [reflexivity|]. split; [reflexivity|].
    split; [reflexivity|lia]. }
  destruct (segmentWords_run dict text true Hwf (fun _ => Hone))
    as (jumpers & toks & out & segs & _ & _ & _ & Hch & _ & _ & Hseg
        & Htoks & Hcont).
  pose proof (chain_derefs _ _ _ _ _ _ Hch) as Hder.
  pose proof (Forall_tokens
                (fun p => exists t, deref dict p = Ok t
                   /\ (1 <= length (Token.text t))%nat
                   /\ (true = true ->
                       (length (Token.text t) < length text)%nat))
                segs toks Htoks Hder) as Hsegs.
  cbn beta in Hsegs.
  assert (Hspell : concat (segText dict <$> segs) = text).
  { rewrite (segText_tokens dict segs toks Htoks),
      (chain_texts _ _ _ _ _ _ Hch), take_ge by lia. reflexivity. }
  assert (Hshort : Forall (fun s =>
            (1 <= length (segText dict s) < length text)%nat) segs).
  { eapply List.Forall_impl; [|exact Hsegs]. cbn.
    intros s (t & Ht & H1 & H2). unfold segText, tokText. rewrite Ht.
    specialize (H2 eq_refl). lia. }
  exists segs. split; [exact Hseg|]. split.
  { apply keepSegments_all. eapply List.Forall_impl; [|exact Hsegs].
    cbn. intros s (t & Ht & H1 & _). eauto. }
  split; [intros; contradiction|]. intros Hlen.
  assert (H2 : (2 <= length segs)%nat).
  { destruct segs as [|s [|s' segs]]; [| |cbn [length]; lia].
    - cbn in Hspell. rewrite <- Hspell in Hlen. cbn in Hlen. lia.
    - cbn in Hspell. rewrite app_nil_r in Hspell.
      pose proof (List.Forall_inv Hshort) as Hs. cbn beta in Hs.
      rewrite Hspell in Hs. lia. }
  split; [exact H2|]. split; [|split; assumption].
  apply contiguous_covers; [exact Hcont|].
  intros ->. cbn in H2. lia.
Qed.

Section LoadMore.
Context `{GoStdlib}.

Lemma subSegment_spec dict i tok :
  noEmptyToken dict = true ->
  Dictionary.tokens dict !! i = Some tok ->
  exists kept,
    subSegment dict i
    = Ok (Dictionary.mk
            (<[i := setSegments kept tok]> (Dictionary.tokens dict))
            (Dictionary.maxTokenLength dict)
            (Dictionary.totalFrequency dict))
    /\ subSegmentation dict (Token.text tok) kept.
Proof.
  intros Hwf Htok.
  destruct (segmentWords_search dict (Token.text tok) Hwf)
    as (segs & Hseg & Hkeep & Hsub).
  exists segs. unfold subSegment. rewrite (index_ok _ _ _ Htok). rstep.
  rewrite Hseg. rstep. rewrite Hkeep. rstep. split; [reflexivity|exact Hsub].
Qed.

Lemma subSegments_spec : forall count a dict,
  noEmptyToken dict = true ->
  (a + count)%nat = length (Dictionary.tokens dict) ->
  (forall k t, (k < a)%nat -> Dictionary.tokens dict !! k = Some t ->
     subSegmentation dict (Token.text t) (Token.segments t)) ->
  exists dict',
    foldM subSegment dict (seq a count) = Ok dict'
    /\ forall t, t ∈ Dictionary.tokens dict' ->
         subSegmentation dict' (Token.text t) (Token.segments t).
Proof.
  induction count as [|count IH]; intros a dict Hwf Hlen Hinv.
  - exists dict. split; [reflexivity|]. intros t Ht.
    apply list_elem_of_lookup in Ht. destruct Ht as (k & Hk).
    apply (Hinv k); [|exact Hk]. apply lookup_lt_Some in Hk. lia.
  - destruct (lookup_lt_is_Some_2 (Dictionary.tokens dict) a) as (tok & Htok);
      [lia|].
    destruct (subSegment_spec dict a tok Hwf Htok) as (kept & Hstep & Hsub).
    set (d1 := Dictionary.mk
                 (<[a := setSegments kept tok]> (Dictionary.tokens dict))
                 (Dictionary.maxTokenLength dict)
                 (Dictionary.totalFrequency dict)) in *.
    assert (Hcore : core <$> Dictionary.tokens d1
                    = core <$> Dictionary.tokens dict).
    { cbn. rewrite list_fmap_insert. apply list_insert_id.
      rewrite list_lookup_fmap, Htok. reflexivity. }
    destruct (IH (S a) d1) as (d2 & Hfold & Hall).
    + rewrite (noEmptyToken_core dict d1 Hcore). exact Hwf.
    + cbn. rewrite length_insert. lia.
    + intros k t Hk Ht. apply (subSegmentation_core dict d1 _ _ Hcore).
      cbn in Ht. destruct (decide (k = a)) as [->|Hne].
      * rewrite list_lookup_insert_eq in Ht by lia.
        injection Ht as <-. exact Hsub.
      * rewrite list_lookup_insert_ne in Ht by congruence.
        apply (Hinv k); [lia|exact Ht].
    + exists d2. cbn [seq foldM]. rewrite Hstep. rstep.
      split; assumption.
Qed.

Lemma Atoi_range (s : Text) (v : Z) :
  Atoi s = Some v -> - 2 ^ 63 <= v < 2 ^ 63.
Proof.
  unfold Atoi.
  destruct (match s with
            | [] => (false, [])
            | c :: s' =>
                if decide (c = x2d) then (true, s')
                else if decide (c = x2b) then (false, s') else (false, s)
            end) as [neg digits].
  destruct digits as [|d digits]; [discriminate|].
  destruct (parseDigits 0 (d :: digits)) as [n|]; [|discriminate].
  destruct ((- 2 ^ 63 <=? (if neg then - n else n))
            && ((if neg then - n else n) <? 2 ^ 63)) eqn:Hr;
    [|discriminate].
  intros [= <-]. apply andb_true_iff in Hr. destruct Hr as [H1 H2].
  apply Z.leb_le in H1. apply Z.ltb_lt in H2. lia.
Qed.

(** What the reading loop knows of a token it adds. *)
Lemma parsed_facts (line : Text) (t : Token.t) :
  parsed line = Some t ->
  2 <= Token.frequency t < 2 ^ 63
  /\ exists field, field <> []
       /\ splitTextToWords field = Ok (Token.text t).
Proof.
  unfold parsed, parseLine.
  destruct (Fields_ok line) as (fields & -> & Hne). rstep.
  destruct fields as [|text [|freqText rest]]; [discriminate..|].
  destruct (Atoi freqText) as [frequency|] eqn:Hatoi; [|discriminate].
  unfold minTokenFrequency.
  destruct (Z.ltb_spec frequency 2); [discriminate|].
  destruct (splitTextToWords_ok text) as (units & Hsplit & _).
  rewrite Hsplit. rstep. intros [= <-]. cbn [Token.frequency Token.text].
  apply Atoi_range in Hatoi. split; [lia|].
  exists text. split; [|exact Hsplit].
  inversion Hne; assumption.
Qed.

Lemma sumFrequency_bound : forall (l : list Token.t) (t : Token.t),
  Forall (fun t => 0 <= Token.frequency t) l ->
  t ∈ l -> Token.frequency t <= sumFrequency l.
Proof.
  induction l as [|t0 l IH]; intros t Hall Ht; [inversion Ht|].
  inversion Hall as [|? ? H0 Hrest]; subst.
  assert (0 <= sumFrequency l).
  { clear -Hrest. induction Hrest; cbn; lia. }
  cbn [sumFrequency]. apply elem_of_cons in Ht. destruct Ht as [->|Ht].
  - lia.
  - specialize (IH t Hrest Ht). lia.
Qed.

(** The token of the loaded dictionary comes from a line. *)
Lemma loaded_token_parsed (lines : list Text) (dict : Dictionary.t)
    (t : Token.t) :
  core <$> Dictionary.tokens dict
  = core <$> map (setDistance (Log2_f32 (Dictionary.totalFrequency dict)))
                 (omap parsed lines) ->
  t ∈ Dictionary.tokens dict ->
  exists line t0, parsed line = Some t0
    /\ Token.text t = Token.text t0
    /\ Token.frequency t = Token.frequency t0.
Proof.
  intros Hcore Ht. apply list_elem_of_lookup in Ht. destruct Ht as (i & Hi).
  apply (f_equal (fun l => l !! i)) in Hcore.
  rewrite list_lookup_fmap, Hi in Hcore. cbn in Hcore.
  symmetry in Hcore. rewrite list_lookup_fmap in Hcore.
  change (map ?f ?l) with (f <$> l) in Hcore.
  rewrite list_lookup_fmap in Hcore.
  destruct (omap parsed lines !! i) as [t0|] eqn:Ht0; [|discriminate].
  cbn in Hcore. injection Hcore as Htext Hfreq _ _.
  assert (Hin : t0 ∈ omap parsed lines)
    by (apply list_elem_of_lookup; eauto).
  apply list_elem_of_omap in Hin. destruct Hin as (line & _ & Hline).
  exists line, t0. split; [exact Hline|]. split; congruence.
Qed.

Lemma loadFromLines_sub (lines : list Text) :
  exists dict,
    loadFromLines lines = Ok dict
    /\ forall t, t ∈ Dictionary.tokens dict ->
         subSegmentation dict (Token.text t) (Token.segments t).
Proof.
  unfold loadFromLines, loadLines. rewrite loadLines_from. rstep.
  set (d0 := foldl addToken NewDictionary (omap parsed lines)).
  destruct (addTokens_tokens (omap parsed lines) NewDictionary)
    as [Htoks _]. fold d0 in Htoks. cbn in Htoks.
  destruct (omap_parsed_kept lines) as [_ Hne].
  assert (Hwf : noEmptyToken (assignDistances d0) = true).
  { unfold noEmptyToken, assignDistances. cbn [Dictionary.tokens].
    rewrite Htoks. apply forallb_forall. intros t Hin.
    apply in_map_iff in Hin. destruct Hin as (t0 & <- & Hin0).
    rewrite List.Forall_forall in Hne. specialize (Hne t0 Hin0). cbn.
    destruct (Token.text t0); [congruence|reflexivity]. }
  apply (subSegments_spec _ 0%nat (assignDistances d0) Hwf);
    [reflexivity|]. intros k t Hk. lia.
Qed.

End LoadMore.

Section LoaderProperties.
Context `{GoStdlib}.

(** X10. Every term of a loaded dictionary has a frequency from 2 up to
    the largest 64-bit integer and not above [totalFrequency]; its text has
    at least one unit, no unit of it is empty or holds a byte in the range
    A..Z, and splitting the bytes of the text gives the text again. *)
Theorem LoadDictionary_terms_normalised (content : Text) :
  exists dict,
    LoadDictionary content = Ok dict
    /\ forall t, t ∈ Dictionary.tokens dict ->
         2 <= Token.frequency t < 2 ^ 63
         /\ Token.frequency t <= Dictionary.totalFrequency dict
         /\ Token.text t <> []
         /\ Forall (fun u => u <> []) (Token.text t)
         /\ Forall (Forall (fun c => isUpper c = false)) (Token.text t)
         /\ splitTextToWords (concat (Token.text t)) = Ok (Token.text t).
Proof.
  unfold LoadDictionary.
  destruct (loadFromLines_ok (readLines content []))
    as (dict & Hload & _ & _ & Htotal & Hcore).
  exists dict. split; [exact Hload|].
  assert (Hfacts : forall t, t ∈ Dictionary.tokens dict ->
            2 <= Token.frequency t < 2 ^ 63
            /\ exists field, field <> []
                 /\ splitTextToWords field = Ok (Token.text t)).
  { intros t Ht.
    destruct (loaded_token_parsed _ _ _ Hcore Ht)
      as (line & t0 & Hline & Htext & Hfreq).
    rewrite Htext, Hfreq. exact (parsed_facts line t0 Hline). }
  intros t Ht. destruct (Hfacts t Ht) as (Hfreq & field & Hne & Hsplit).
  split; [exact Hfreq|]. split.
  { rewrite Htotal. apply sumFrequency_bound; [|exact Ht].
    apply List.Forall_forall. intros t' Ht'.
    apply list_elem_of_In in Ht'. destruct (Hfacts t' Ht') as [? _]. lia. }
  split.
  { intros Hnil. rewrite Hnil in Hsplit.
    destruct (splitTextToWords_ok field) as (units & Hsplit' & Hlen & _).
    rewrite Hsplit in Hsplit'. injection Hsplit' as <-.
    cbn in Hlen. destruct field; [congruence|discriminate]. }
  split; [exact (splitTextToWords_nonempty_units field _ Hsplit)|].
  split; [exact (splitTextToWords_noUpper_units field _ Hsplit)|].
  exact (splitTextToWords_normal field _ Hsplit).
Qed.

(** X11. The third loop of [LoadDictionary] leaves every term of one
    unit without segments, and gives every longer term at least two
    segments that lie end to end over the bytes of its text, whose tokens
    spell the text unit by unit and each have fewer units than the term. *)
Theorem LoadDictionary_sub_segmentation (content : Text) :
  exists dict,
    LoadDictionary content = Ok dict
    /\ forall t, t ∈ Dictionary.tokens dict ->
         (1 <= length (Token.text t))%nat
         /\ subSegmentation dict (Token.text t) (Token.segments t).
Proof.
  destruct (loadFromLines_sub (readLines content []))
    as (dict & Hload & Hall).
  exists dict. split; [exact Hload|]. intros t Ht.
  split; [|exact (Hall t Ht)].
  pose proof (LoadDictionary_noEmptyToken content dict Hload) as Hwf.
  apply list_elem_of_lookup in Ht. destruct Ht as (i & Hi).
  exact (noEmptyToken_lookup dict i t Hwf Hi).
Qed.

End LoaderProperties.

(** ** The cells before the current position *)

Lemma updateAt_prefix dict b jumpers call jumpers' (n : nat) :
  updateAt dict b jumpers call = Ok jumpers' ->
  Z.of_nat n <= call.1 ->
  take n jumpers' = take n jumpers /\ length jumpers' = length jumpers.
Proof.
  unfold updateAt. intros Hup Hn.
  destruct (index jumpers call.1) as [j| |]; [|discriminate..].
  cbn [mbind result_bind] in Hup.
  destruct (updateJumper dict j b call.2) as [j'| |]; [|discriminate..].
  cbn [mbind result_bind] in Hup. unfold store in Hup.
  destruct ((0 <=? call.1) && (call.1 <? Z.of_nat (length jumpers)));
    [|discriminate].
  injection Hup as <-. split; [|apply length_insert].
  apply take_insert_ge. lia.
Qed.

Lemma updateMatches_prefix dict len searchMode current b :
  forall toks jumpers jumpers',
  Forall (fun tok => forall t, deref dict (Some tok) = Ok t ->
                       (1 <= length (Token.text t))%nat) toks ->
  updateMatches dict len searchMode current b toks jumpers = Ok jumpers' ->
  take current jumpers' = take current jumpers
  /\ length jumpers' = length jumpers.
Proof.
  induction toks as [|tok toks IH]; intros jumpers jumpers' Hall Hup.
  - injection Hup as <-. split; reflexivity.
  - inversion Hall as [|? ? Htok Hrest]; subst. cbn [updateMatches] in Hup.
    destruct (deref dict (Some tok)) as [t| |]; [|discriminate..].
    cbn [mbind result_bind] in Hup. specialize (Htok t eq_refl).
    set (location := Z.of_nat current + Z.of_nat (length (Token.text t)) - 1)
      in Hup.
    destruct (updates len searchMode current location).
    + destruct (updateAt dict b jumpers (location, tok)) as [j1| |] eqn:H1;
        [|discriminate..].
      cbn [mbind result_bind] in Hup.
      destruct (updateAt_prefix dict b jumpers (location, tok) j1 current H1)
        as [Ht Hl]; [cbn; lia|].
      destruct (IH j1 jumpers' Hrest Hup) as [Ht' Hl']. split; congruence.
    + cbn [mbind result_bind] in Hup. exact (IH jumpers jumpers' Hrest Hup).
Qed.

Lemma addPseudoToken_prefix dict text current b toks jumpers jumpers' :
  addPseudoToken dict text current b toks jumpers = Ok jumpers' ->
  take current jumpers' = take current jumpers
  /\ length jumpers' = length jumpers.
Proof.
  unfold addPseudoToken. intros Hup.
  destruct (match toks with
            | [] => Ok true
            | tok0 :: _ =>
                t0 ← deref dict (Some tok0);
                Ok (1 <? length (Token.text t0))%nat
            end) as [[|]| |]; try discriminate; cbn [mbind result_bind] in Hup.
  - destruct (index text (Z.of_nat current)) as [u| |]; [|discriminate..].
    cbn [mbind result_bind] in Hup.
    apply (updateAt_prefix dict b jumpers _ jumpers' current Hup). cbn. lia.
  - injection Hup as <-. split; reflexivity.
Qed.

Lemma tokensAt_lengths dict text current toks :
  noEmptyToken dict = true ->
  tokensAt dict text current = Ok toks ->
  Forall (fun tok => forall t, deref dict (Some tok) = Ok t ->
                       (1 <= length (Token.text t))%nat) toks.
Proof.
  intros Hwf. unfold tokensAt.
  destruct (slice text current _) as [words| |]; [|discriminate..].
  cbn [mbind result_bind]. intros [= <-].
  apply List.Forall_forall. intros tok Hin.
  apply list_elem_of_In, elem_of_lookupTokens in Hin.
  destruct Hin as (i & t & k & -> & Hl & _). intros t' Ht'.
  cbn in Ht'. rewrite Hl in Ht'. injection Ht' as <-.
  exact (noEmptyToken_lookup dict i t Hwf Hl).
Qed.

Lemma forwardStep_prefix dict text searchMode jumpers current jumpers' :
  noEmptyToken dict = true ->
  forwardStep dict text searchMode jumpers current = Ok jumpers' ->
  take current jumpers' = take current jumpers
  /\ length jumpers' = length jumpers.
Proof.
  intros Hwf. unfold forwardStep. intros Hstep.
  destruct (baseDistanceAt jumpers current) as [b| |]; [|discriminate..].
  cbn [mbind result_bind] in Hstep.
  destruct (tokensAt dict text current) as [toks| |] eqn:Htoks;
    [|discriminate..].
  cbn [mbind result_bind] in Hstep.
  destruct (updateMatches dict (length text) searchMode current b toks
              jumpers) as [j1| |] eqn:H1; [|discriminate..].
  cbn [mbind result_bind] in Hstep.
  destruct (updateMatches_prefix dict _ _ _ _ toks jumpers j1
              (tokensAt_lengths dict text current toks Hwf Htoks) H1)
    as [Ht Hl].
  destruct (addPseudoToken_prefix dict text current b toks j1 jumpers' Hstep)
    as [Ht' Hl'].
  split; congruence.
Qed.

(** X13. For a dictionary without an empty term, the iterations of the
    forward loop from position [current] on leave the cells before
    [current] as they are, and the number of cells unchanged. *)
Theorem forward_loop_keeps_earlier_cells (dict : Dictionary.t)
    (text : list Text) (searchMode : bool) :
  noEmptyToken dict = true ->
  forall count current jumpers jumpers',
    foldM (forwardStep dict text searchMode) jumpers (seq current count)
    = Ok jumpers' ->
    take current jumpers' = take current jumpers
    /\ length jumpers' = length jumpers.
Proof.
  intros Hwf. induction count as [|count IH];
    intros current jumpers jumpers' Hloop.
  - injection Hloop as <-. split; reflexivity.
  - cbn [seq foldM] in Hloop.
    destruct (forwardStep dict text searchMode jumpers current)
      as [j1| |] eqn:Hstep; [|discriminate..].
    cbn [mbind result_bind] in Hloop.
    destruct (forwardStep_prefix _ _ _ _ _ _ Hwf Hstep) as [Ht Hl].
    destruct (IH (S current) j1 jumpers' Hloop) as [Ht' Hl'].
    split; [|congruence].
    rewrite <- Ht. apply (f_equal (take current)) in Ht'.
    rewrite !take_take in Ht'.
    replace (current `min` S current)%nat with current in Ht' by lia.
    exact Ht'.
Qed.

Lemma forward_loop_keeps_earlier_cells_witness :
  noEmptyToken exampleDict = true
  /\ exists jumpers',
       foldM (forwardStep exampleDict [uZhong; uHua; uRen; uMin] false)
         (replicate 4 zeroJumper) (seq 2 2) = Ok jumpers'
       /\ take 2 jumpers' = take 2 (replicate 4 zeroJumper)
       /\ length jumpers' = length (replicate 4 zeroJumper).
Proof.
  assert (Hwf : noEmptyToken exampleDict = true) by (vm_compute; reflexivity).
  split; [exact Hwf|].
  destruct (foldM (forwardStep exampleDict [uZhong; uHua; uRen; uMin] false)
              (replicate 4 zeroJumper) (seq 2 2)) as [js| |] eqn:Hloop;
    [|vm_compute in Hloop; discriminate..].
  exists js. split; [reflexivity|].
  exact (forward_loop_keeps_earlier_cells exampleDict
           [uZhong; uHua; uRen; uMin] false Hwf 2 2 _ _ Hloop).
Defined.

(** ** The bytes of a segment *)

Lemma textSliceByteLength_concat (l : list Text) :
  textSliceByteLength l = length (concat l).
Proof.
  unfold textSliceByteLength. induction l as [|u l IH]; [reflexivity|].
  cbn [sum_list_with concat]. rewrite length_app, IH. reflexivity.
Qed.

Lemma spans_bytes dict : forall segs from to (pre : list byte),
  contiguous from segs to ->
  Forall (spansToken dict) segs ->
  length pre = from ->
  forall s, s ∈ segs ->
    take (Segment.end_ s - Segment.start s)
         (drop (Segment.start s)
               (pre ++ concat (concat (segText dict <$> segs))))
    = concat (segText dict s).
Proof.
  induction segs as [|s0 segs IH]; intros from to pre Hcont Hspans Hpre s Hs;
    [inversion Hs|].
  destruct Hcont as (Hstart & _ & Hrest).
  pose proof (List.Forall_inv Hspans) as Hs0.
  pose proof (List.Forall_inv_tail Hspans) as Hspans'.
  unfold spansToken in Hs0. rewrite textSliceByteLength_concat in Hs0.
  cbn [fmap list_fmap concat]. rewrite concat_app.
  apply elem_of_cons in Hs. destruct Hs as [->|Hs].
  - rewrite Hs0, Hstart, <- Hpre, drop_app_length.
    replace (length pre + length (concat (segText dict s0)) - length pre)%nat
      with (length (concat (segText dict s0))) by lia.
    apply take_app_length.
  - rewrite app_assoc.
    apply (IH (Segment.end_ s0) to (pre ++ concat (segText dict s0)));
      try assumption.
    rewrite length_app. lia.
Qed.

Lemma segmentWords_bytes dict text searchMode :
  noEmptyToken dict = true ->
  exists segs,
    segmentWords dict text searchMode = Ok segs
    /\ forall s, s ∈ segs ->
         take (Segment.end_ s - Segment.start s)
              (drop (Segment.start s) (concat text))
         = concat (segText dict s).
Proof.
  intros Hwf.
  destruct (searchMode && (length text =? 1)%nat) eqn:Hearly.
  { exists []. unfold segmentWords. rewrite Hearly. split; [reflexivity|].
    intros s Hs. inversion Hs. }
  assert (Hmode : searchMode = true -> length text <> 1%nat).
  { intros -> He. rewrite He in Hearly. discriminate. }
  destruct (segmentWords_run dict text searchMode Hwf Hmode)
    as (jumpers & toks & out & segs & _ & _ & _ & Hch & _ & _ & Hseg
        & Htoks & Hcont).
  exists segs. split; [exact Hseg|]. intros s Hs.
  assert (Hspell : concat (segText dict <$> segs) = text).
  { rewrite (segText_tokens dict segs toks Htoks),
      (chain_texts _ _ _ _ _ _ Hch), take_ge by lia. reflexivity. }
  pose proof (spans_bytes dict segs 0%nat _ [] Hcont
                (segmentWords_spans _ _ _ _ Hseg) eq_refl s Hs) as Hb.
  rewrite <- Hspell. exact Hb.
Qed.

Section SpanProperties.
Context `{GoStdlib}.

(** X14. For a dictionary without an empty term, the bytes of the input
    in lower case between the start and the end of a segment that
    [InternalSegment] returns are the bytes of the text of its token. *)
Theorem segment_span_holds_token_bytes (dict : Dictionary.t)
    (bytes : Text) (searchMode : bool) :
  noEmptyToken dict = true ->
  exists segs,
    InternalSegment dict bytes searchMode = Ok segs
    /\ forall s, s ∈ segs ->
         take (Segment.end_ s - Segment.start s)
              (drop (Segment.start s) (toLower bytes))
         = concat (segText dict s).
Proof.
  intros Hwf. unfold InternalSegment, internalSegment.
  destruct (length bytes =? 0)%nat.
  { exists []. split; [reflexivity|]. intros s Hs. inversion Hs. }
  destruct (splitTextToWords_ok bytes) as (units & Hsplit & _).
  rewrite Hsplit. rstep.
  destruct (segmentWords_bytes dict units searchMode Hwf)
    as (segs & Hseg & Hbytes).
  exists segs. split; [exact Hseg|].
  rewrite <- (splitTextToWords_concat bytes units Hsplit). exact Hbytes.
Qed.

End SpanProperties.

Lemma segment_span_holds_token_bytes_witness :
  noEmptyToken exampleDict = true
  /\ exists segs,
       @InternalSegment exampleStdlib exampleDict
         (uZhong ++ uHua ++ uRen ++ uMin) false = Ok segs
       /\ forall s, s ∈ segs ->
            take (Segment.end_ s - Segment.start s)
                 (drop (Segment.start s)
                       (toLower (uZhong ++ uHua ++ uRen ++ uMin)))
            = concat (segText exampleDict s).
Proof.
  assert (Hwf : noEmptyToken exampleDict = true) by (vm_compute; reflexivity).
  split; [exact Hwf|].
  exact (@segment_span_holds_token_bytes exampleStdlib exampleDict
           (uZhong ++ uHua ++ uRen ++ uMin) false Hwf).
Defined.

(** ** The lines of a dictionary *)



Lemma readLines_app : forall a line b,
  readLines (a ++ x0a :: b) line
  = readLines (a ++ [x0a]) line ++ readLines b [].
Proof.
  induction a as [|c a IH]; intros line b; cbn [app readLines].
  - rewrite decide_True by reflexivity. reflexivity.
  - destruct (decide (c = x0a)).
    + rewrite IH. reflexivity.
    + apply IH.
Qed.

Lemma sumFrequency_termOf (a b : list Token.t) :
  termOf <$> a = termOf <$> b -> sumFrequency a = sumFrequency b.
Proof.
  revert b. induction a as [|t a IH]; intros [|t' b] Heq;
    try discriminate; [reflexivity|].
  cbn in Heq. injection Heq as _ Hf _ Hrest. cbn. rewrite Hf.
  f_equal. apply IH. exact Hrest.
Qed.

Section LinesProperties.
Context `{GoStdlib}.


(** X16. Loading one content, a newline and a second content gives the
    terms (text, frequency, tag) of the first content up to the newline
    followed by those of the second, and the sum of the two total
    frequencies. *)
Theorem LoadDictionary_concatenation (a b : Text) :
  exists da db dab,
    LoadDictionary (a ++ [x0a]) = Ok da
    /\ LoadDictionary b = Ok db
    /\ LoadDictionary (a ++ x0a :: b) = Ok dab
    /\ termOf <$> Dictionary.tokens dab
       = (termOf <$> Dictionary.tokens da) ++ (termOf <$> Dictionary.tokens db)
    /\ Dictionary.totalFrequency dab
       = Dictionary.totalFrequency da + Dictionary.totalFrequency db.
Proof.
  unfold LoadDictionary. rewrite (readLines_app a [] b).
  destruct (loadFromLines_ok (readLines (a ++ [x0a]) []))
    as (da & Ha & _ & Hta & Hfa & _).
  destruct (loadFromLines_ok (readLines b []))
    as (db & Hb & _ & Htb & Hfb & _).
  destruct (loadFromLines_ok (readLines (a ++ [x0a]) [] ++ readLines b []))
    as (dab & Hab & _ & Htab & Hfab & _).
  exists da, db, dab. repeat (split; [assumption|]).
  assert (Hterms : termOf <$> Dictionary.tokens dab
            = termOf <$> (Dictionary.tokens da ++ Dictionary.tokens db)).
  { rewrite fmap_app, Htab, Hta, Htb, list.filter_app, fmap_app. reflexivity. }
  split; [rewrite Hterms, fmap_app; reflexivity|].
  rewrite Hfab, Hfa, Hfb, (sumFrequency_termOf _ _ Hterms).
  apply sumFrequency_app.
Qed.

End LinesProperties.

(** X17. [minInt] and [maxInt] return the smaller and the larger of
    their arguments. *)
Theorem minInt_maxInt_spec (a b : nat) :
  minInt a b = Nat.min a b /\ maxInt a b = Nat.max a b.
Proof.
  unfold minInt, maxInt. destruct (Nat.ltb_spec b a); lia.
Qed.
